(** * The S3 transfer engine of libtsuba (src/libtsuba/src/s3.cpp)

    A shallow embedding of the segmenting, multipart-upload, batched-delete,
    ranged-get and paginated-list code of [s3.cpp], together with the
    collaborators it calls ([SegmentedBufferView], [CountingSemaphore],
    [AsyncOpGroup]), and the properties the specification states about them.

    Conventions.
    - [uint64_t] values are integers in [Z]; every C++ operation that can
      leave the range [0, 2^64) has its wrap-around written out ([wrap64]).
    - Pointers into the caller's buffer are addresses in [Z].
    - A call that ends in [GALOIS_LOG_FATAL] or in a failed
      [GALOIS_LOG_ASSERT]/[GALOIS_LOG_VASSERT] is the outcome [Aborted];
      a wait that is never satisfied is [Blocked].
    - The remote store is a function from requests to responses; every
      request the code issues is appended to the world's request log.
    - Completion handlers of asynchronous requests run once the requests
      have been dispatched, in an order the environment chooses.
    - Logging and the fault-injection points ([TSUBA_PTP]) do nothing on a
      normal run and are left out. *)

From Stdlib Require Import ZArith Lia Bool Ascii String DecimalString DecimalN.
From stdpp Require Import base tactics option list gmap strings.

Local Open Scope Z_scope.

(* ===================================================================== *)
(** ** Machine integers and the limits of s3.cpp *)
(* ===================================================================== *)

Definition wrap64 (z : Z) : Z := z mod 2 ^ 64.

(** Modelled from the spec: the unit macros [MB] and [GB] come from a header
    that is not among the sources; the limits they build are the documented
    5 MiB minimum, 8 MiB default and 5 GiB maximum part sizes. *)
Definition MB (v : Z) : Z := Z.shiftl v 20.

(** Modelled from the spec: see [MB]. *)
Definition GB (v : Z) : Z := Z.shiftl v 30.

Definition kS3MinBufSize : Z := MB 5.
Definition kS3DefaultBufSize : Z := MB 8.
Definition kS3MaxBufSize : Z := GB 5.
Definition kS3MaxMultiPart : Z := 10000.
Definition kS3MaxDelete : Z := 995.

(** Outcome of running a piece of the engine. *)
Inductive Run (A : Type) : Type :=
| Done (a : A)
| Aborted
| Blocked.
Arguments Done {A} a.
Arguments Aborted {A}.
Arguments Blocked {A}.

(* ===================================================================== *)
(** ** SegmentedBufferView *)
(* ===================================================================== *)

Module BufPart.
(** [SegmentedBufferView::BufPart]: [start] and the exclusive [end] are
    absolute offsets, [dest] points into the caller's buffer. *)
Record t : Type := mk { start : Z; end_ : Z; dest : Z }.

Definition len (p : t) : Z := end_ p - start p.
End BufPart.

Module SegmentedBufferView.
(** Modelled from the spec: SegmentedBufferView.h is not among the sources.
    The view is the pure data [start, dest, size, segment size] handed to
    its constructor in [SegmentBuf]; iterating it yields the ordered
    partition of the range into parts of the segment size, the last part
    taking what is left, each with its absolute start and end offset and
    its pointer into the caller's buffer. *)
Record t : Type := mk { start_ : Z; dest_ : Z; size_ : Z; segment_size_ : Z }.

(** Modelled from the spec: the number of parts of the partition; a
    zero-length range has none. *)
Definition NumSegments (v : t) : Z :=
  size_ v / segment_size_ v +
  (if size_ v mod segment_size_ v =? 0 then 0 else 1).

(** Modelled from the spec: the [i]-th part of the partition. *)
Definition GetPart (v : t) (i : Z) : BufPart.t :=
  let off := i * segment_size_ v in
  let len := Z.min (segment_size_ v) (size_ v - off) in
  {| BufPart.start := wrap64 (start_ v + off);
     BufPart.end_ := wrap64 (start_ v + off + len);
     BufPart.dest := wrap64 (dest_ v + off) |}.

(** Modelled from the spec: the sequence between [begin()] and [end()]. *)
Definition parts (v : t) : list BufPart.t :=
  (fun i : nat => GetPart v (Z.of_nat i)) <$> seq 0 (Z.to_nat (NumSegments v)).
End SegmentedBufferView.

(** [SegmentBuf] of s3.cpp: choose the segment size and build the view. *)
Definition SegmentBuf (start data size : Z) : Run SegmentedBufferView.t :=
  let segment_size := kS3DefaultBufSize in
  if size / kS3DefaultBufSize >? kS3MaxMultiPart then
    (* Add one because integer arithmetic is floor *)
    let segment_size := size / (kS3MaxMultiPart + 1) in
    if (segment_size >? kS3MinBufSize) && (segment_size <? kS3MaxBufSize)
    then Done (SegmentedBufferView.mk start data size segment_size)
    else Aborted
  else Done (SegmentedBufferView.mk start data size segment_size).

(** Total number of bytes of a part sequence. *)
Definition total_len (ps : list BufPart.t) : Z :=
  foldr (fun p acc => BufPart.len p + acc) 0 ps.

(** [chain a b ps]: the parts [ps] are non-empty intervals laid end to end
    from offset [a] to offset [b]. *)
Inductive chain : Z -> Z -> list BufPart.t -> Prop :=
| chain_nil a : chain a a []
| chain_cons a b p ps :
    BufPart.start p = a ->
    BufPart.start p < BufPart.end_ p ->
    chain (BufPart.end_ p) b ps ->
    chain a b (p :: ps).

(** [partition_of a b ps]: the parts are non-empty, each ends where the
    next one starts, no two overlap, the first starts at [a], the last ends
    at [b], and their lengths add up to [b - a]. *)
Definition partition_of (a b : Z) (ps : list BufPart.t) : Prop :=
  Forall (fun p => BufPart.start p < BufPart.end_ p) ps
  /\ (forall (i : nat) p q,
         ps !! i = Some p -> ps !! S i = Some q ->
         BufPart.end_ p = BufPart.start q)
  /\ (forall (i j : nat) p q,
         (i < j)%nat -> ps !! i = Some p -> ps !! j = Some q ->
         BufPart.end_ p <= BufPart.start q)
  /\ (exists p, head ps = Some p /\ BufPart.start p = a)
  /\ (exists q, last ps = Some q /\ BufPart.end_ q = b)
  /\ total_len ps = b - a.

(* ===================================================================== *)
(** ** Errors, requests, responses and the world *)
(* ===================================================================== *)

(** Modelled from the spec: tsuba/Errors.h is not among the sources.  These
    are the error kinds of the specification's taxonomy, under the names the
    code gives them where it names them ([S3Error] is the generic service
    error, [AWSWrongRegion] the redirect, [TODO] appears in the name-server
    client). *)
Inductive ErrorCode : Type :=
| NotFound
| AWSWrongRegion
| S3Error
| TypeError
| TODO
| Unknown.

(** [galois::Result<T>]. *)
Inductive Result (T : Type) : Type :=
| Ok (v : T)
| Err (e : ErrorCode).
Arguments Ok {T} v.
Arguments Err {T} e.

Definition ResultSuccess : Result unit := Ok tt.

Definition is_ok {T} (r : Result T) : bool :=
  match r with Ok _ => true | Err _ => false end.

(** [Aws::Http::HttpResponseCode::MOVED_PERMANENTLY]. *)
Definition MOVED_PERMANENTLY : Z := 301.

(** The requests of the remote object store that s3.cpp builds.  Pointers
    and lengths of request bodies and of response buffers are part of the
    request, as they are in the SDK's request objects. *)
Inductive Request : Type :=
| HeadObject (bucket key : string)
| GetObject (bucket key range : string) (dest buflen : Z)
| PutObject (bucket key : string) (data size : Z)
| CreateMultipartUpload (bucket key : string)
| UploadPart (bucket key upload_id : string) (part_number : Z)
             (data content_length : Z)
| CompleteMultipartUpload (bucket key upload_id : string)
                          (completed : list (Z * string))
| DeleteObjects (bucket : string) (keys : list string)
| ListObjectsV2 (bucket prefix : string) (token : option string).

(** How a request is handed to the SDK: the blocking call, the
    [...Async] call with a completion handler, or the [...Callable] call
    that returns a future. *)
Inductive Call : Type :=
| Sync (r : Request)
| Async (r : Request)
| Callable (r : Request).

Definition request_of (c : Call) : Request :=
  match c with Sync r | Async r | Callable r => r end.

(** What an SDK outcome lets the code read. *)
Record Response : Type := mkResponse {
  IsSuccess : bool;
  GetResponseCode : Z;
  GetContentLength : Z;
  GetUploadId : string;
  GetETag : string;
  GetBody : list Z;
  GetContents : list string;
  GetIsTruncated : bool;
  GetNextContinuationToken : string
}.

(** The world the engine runs in: whether [S3Init] has run, the requests
    issued so far, the bytes of the caller's buffers, and the name sets
    behind the pointers handed to [S3ListAsync]. *)
Record World : Type := mkWorld {
  library_init : bool;
  calls : list Call;
  memory : gmap Z Z;
  sets : gmap Z (gset string)
}.

Definition M (A : Type) : Type := World -> Run A * World.

Definition ret {A} (a : A) : M A := fun w => (Done a, w).

Definition bind {A B} (m : M A) (f : A -> M B) : M B :=
  fun w =>
    match m w with
    | (Done a, w') => f a w'
    | (Aborted, w') => (Aborted, w')
    | (Blocked, w') => (Blocked, w')
    end.

Definition abort {A} : M A := fun w => (Aborted, w).
Definition block {A} : M A := fun w => (Blocked, w).
Definition lift {A} (r : Run A) : M A := fun w => (r, w).

Notation "x <- c1 ;; c2" := (bind c1 (fun x => c2))
  (at level 100, c1 at next level, right associativity).
Notation "c1 ;;; c2" := (bind c1 (fun _ => c2))
  (at level 100, right associativity).

(** [GALOIS_LOG_ASSERT] and [GALOIS_LOG_VASSERT]. *)
Definition GALOIS_LOG_ASSERT (c : bool) : M unit :=
  if c then ret tt else abort.

(** [Run] is a monad of its own for the pure pieces. *)
Definition run_bind {A B} (r : Run A) (f : A -> Run B) : Run B :=
  match r with
  | Done a => f a
  | Aborted => Aborted
  | Blocked => Blocked
  end.

(** A [for] loop over a list with a body that can abort. *)
Fixpoint run_foldl {A B} (f : A -> B -> Run A) (a : A) (l : list B) : Run A :=
  match l with
  | [] => Done a
  | b :: l' => run_bind (f a b) (fun a' => run_foldl f a' l')
  end.

(** A [for] loop over a list in the world. *)
Fixpoint foldM {A B} (f : A -> B -> M A) (a : A) (l : list B) : M A :=
  match l with
  | [] => ret a
  | b :: l' => a' <- f a b ;; foldM f a' l'
  end.

(** A response stream writes its bytes where the request's stream factory
    points: [buflen] bytes at most, starting at [dest]. *)
Fixpoint store_bytes (dest : Z) (bytes : list Z) (m : gmap Z Z) : gmap Z Z :=
  match bytes with
  | [] => m
  | b :: bs => store_bytes (dest + 1) bs (<[dest := b]> m)
  end.

Definition deliver (r : Request) (resp : Response) (m : gmap Z Z) : gmap Z Z :=
  match r with
  | GetObject _ _ _ dest buflen =>
      if IsSuccess resp
      then store_bytes dest (take (Z.to_nat buflen) (GetBody resp)) m
      else m
  | _ => m
  end.

(* ===================================================================== *)
(** ** CountingSemaphore *)
(* ===================================================================== *)

Module CountingSemaphore.
(** Modelled from the spec: the class is declared in a header that is not
    among the sources.  A goal is set, completions decrement it, one
    waiter blocks until nothing remains. *)
Record t : Type := mk { goal : Z; remaining : Z }.

Definition init : t := mk 0 0.

(** Modelled from the spec: fails when called while [remaining] differs
    from [goal], which a prior unfinished cycle leaves behind. *)
Definition SetGoal (n : Z) (s : t) : Run t :=
  if remaining s =? goal s then Done (mk n n) else Aborted.

(** Modelled from the spec: decrementing past zero is fatal. *)
Definition GoalMinusOne (s : t) : Run t :=
  if remaining s >? 0 then Done (mk (goal s) (remaining s - 1)) else Aborted.

(** Modelled from the spec: returns at once when nothing remains; the
    model runs it after every outstanding completion handler has run, so
    a positive remainder then is a wait that never ends. *)
Definition WaitGoal (s : t) : Run unit :=
  if remaining s =? 0 then Done tt else Blocked.
End CountingSemaphore.

(* ===================================================================== *)
(** ** Strings as s3.cpp uses them *)
(* ===================================================================== *)

(** [operator<<] of an unsigned 64-bit integer: decimal digits. *)
Definition to_decimal (z : Z) : string :=
  NilEmpty.string_of_uint (N.to_uint (Z.to_N z)).

(** [std::string::find(needle)]: the position of the first occurrence, or
    [None] for [npos]. *)
Fixpoint find_from (pos : nat) (needle hay : string) : option nat :=
  if String.prefix needle hay then Some pos
  else match hay with
       | EmptyString => None
       | String _ hay' => find_from (S pos) needle hay'
       end.

Definition find (needle hay : string) : option nat := find_from 0 needle hay.

(** Dropping the first [n] characters. *)
Fixpoint string_drop (n : nat) (s : string) : string :=
  match n, s with
  | O, _ => s
  | S n', String _ s' => string_drop n' s'
  | S _, EmptyString => EmptyString
  end.

(** [std::string::erase(pos, n)] for [pos] within the string. *)
Definition erase (pos n : nat) (s : string) : string :=
  String.substring 0 pos s +:+ string_drop (pos + n) s.

Definition slash : ascii := "/"%char.

(** [FileAsyncWork]: the handle around the future a call returns; waiting
    on the handle runs the future's body to its result. *)
Record FileAsyncWork : Type := mkFileAsyncWork { future : M (Result unit) }.

Module PutMultiImpl.
(** [internal::PutMultiImpl]; a future is the outcome it will give, or
    [None] when it holds nothing. *)
Record t : Type := mk {
  parts_ : list BufPart.t;
  create_fut_ : option Response;
  outcome_fut_ : option Response;
  part_e_tags_ : list string;
  sema : CountingSemaphore.t;
  upload_id_ : string
}.
End PutMultiImpl.

(** The [CompletedMultipartUpload] built from the recorded tags: part
    number [i + 1] with the tag at index [i]. *)
Definition completed_parts (part_e_tags : list string) : list (Z * string) :=
  imap (fun i tag => (Z.of_nat i + 1, tag)) part_e_tags.

(* ===================================================================== *)
(** ** The engine: s3.cpp *)
(* ===================================================================== *)

Section Engine.
(** The remote store answers each request. *)
Context (remote : Request -> Response).
(** For [n] requests dispatched with a completion handler, the order (by
    dispatch index) in which the executor's threads run the handlers. *)
Context (arrival : nat -> list nat).
(** [galois::JoinPath], from a header that is not among the sources. *)
Context (JoinPath : string -> string -> string).

(** Hand a request to the SDK.  The request is logged and its response
    decided; a response stream is delivered into its buffer.  Completion
    handlers of [Async] calls run later, in [arrival] order. *)
Definition send (c : Call) : M Response :=
  fun w =>
    let resp := remote (request_of c) in
    (Done resp,
     mkWorld (library_init w) (calls w ++ [c])
             (deliver (request_of c) resp (memory w)) (sets w)).

(** [GetS3Client()]: asserts that [S3Init] has run. *)
Definition GetS3Client : M unit :=
  fun w => GALOIS_LOG_ASSERT (library_init w) w.

(** [async_s3_client] is null until [S3Init]; using it before is a crash. *)
Definition async_s3_client : M unit :=
  fun w => GALOIS_LOG_ASSERT (library_init w) w.

Definition CheckS3Error (outcome : Response) : Result unit :=
  if IsSuccess outcome then ResultSuccess
  else if GetResponseCode outcome =? MOVED_PERMANENTLY
       then Err AWSWrongRegion
       else Err S3Error.

(** [S3GetSize]; [Ok n] stands for success with [*size = n]: what the
    code stores through the caller's [size] pointer is the value returned
    here, it is not written to [memory]. *)
Definition S3GetSize (bucket object : string) : M (Result Z) :=
  GetS3Client ;;;
  outcome <- send (Sync (HeadObject bucket object)) ;;
  match CheckS3Error outcome with
  | Err e => ret (Err e)
  | Ok _ => ret (Ok (wrap64 (GetContentLength outcome)))
  end.

Definition S3PutSingleSync (bucket object : string) (data size : Z)
  : M (Result unit) :=
  GetS3Client ;;;
  outcome <- send (Sync (PutObject bucket object data size)) ;;
  if negb (IsSuccess outcome) then ret (Err S3Error)
  else ret ResultSuccess.

(** The loop that dispatches one [UploadPartAsync] per part, numbered
    from [i + 1]; it returns the outcomes now in flight. *)
Fixpoint upload_parts (bucket object upload_id : string) (i : nat)
         (parts : list BufPart.t) : M (list Response) :=
  match parts with
  | [] => ret []
  | part :: rest =>
      let lengthToWrite := wrap64 (BufPart.end_ part - BufPart.start part) in
      outcome <- send (Async (UploadPart bucket object upload_id
                                (Z.of_nat i + 1) (BufPart.dest part)
                                lengthToWrite)) ;;
      outcomes <- upload_parts bucket object upload_id (S i) rest ;;
      ret (outcome :: outcomes)
  end.

(** The completion handler of part [i] in [S3UploadOverwrite]. *)
Definition upload_callback (outcomes : list Response)
           (st : list string * Z) (i : nat) : Run (list string * Z) :=
  match outcomes !! i with
  | None => Done st
  | Some outcome =>
      if IsSuccess outcome
      then Done (<[i := GetETag outcome]> (fst st), wrap64 (snd st + 1))
      else Aborted
  end.

Definition S3UploadOverwrite (bucket object : string) (data size : Z)
  : M (Result unit) :=
  (* Any small size put, do synchronously *)
  if size <? kS3DefaultBufSize then S3PutSingleSync bucket object data size
  else
    GetS3Client ;;;
    createMpResponse <- send (Sync (CreateMultipartUpload bucket object)) ;;
    match CheckS3Error createMpResponse with
    | Err e => ret (Err e)
    | Ok _ =>
        let upload_id := GetUploadId createMpResponse in
        bufView <- lift (SegmentBuf 0 data size) ;;
        let parts := SegmentedBufferView.parts bufView in
        GALOIS_LOG_ASSERT (negb (bool_decide (parts = []))) ;;;
        let part_e_tags := replicate (length parts) EmptyString in
        outcomes <- upload_parts bucket object upload_id 0 parts ;;
        st <- lift (run_foldl (upload_callback outcomes) (part_e_tags, 0)
                              (arrival (length parts))) ;;
        let '(part_e_tags, finished) := st in
        if finished <? Z.of_nat (length parts) then block
        else
          completeUploadOutcome <-
            send (Sync (CompleteMultipartUpload bucket object upload_id
                          (completed_parts part_e_tags))) ;;
          if negb (IsSuccess completeUploadOutcome) then ret (Err S3Error)
          else ret ResultSuccess
    end.

Definition S3PutMultiAsync1 (bucket object : string) (data size : Z)
  : M PutMultiImpl.t :=
  (fun w => GALOIS_LOG_ASSERT (library_init w) w) ;;;
  GALOIS_LOG_ASSERT (size >? 0) ;;;
  bufView <- lift (SegmentBuf 0 data size) ;;
  let parts := SegmentedBufferView.parts bufView in
  sema <- lift (CountingSemaphore.SetGoal (Z.of_nat (length parts))
                  CountingSemaphore.init) ;;
  create_fut <- send (Callable (CreateMultipartUpload bucket object)) ;;
  ret (PutMultiImpl.mk parts (Some create_fut) None
         (replicate (Z.to_nat (SegmentedBufferView.NumSegments bufView))
                    EmptyString)
         sema EmptyString).

(** [S3PutMultiAsync2] returns its result, the session as it leaves it,
    and the part outcomes now in flight. *)
Definition S3PutMultiAsync2 (bucket object : string) (pmh : PutMultiImpl.t)
  : M (Result unit * PutMultiImpl.t * list Response) :=
  match PutMultiImpl.create_fut_ pmh with
  | None => abort
  | Some createMpResponse =>
      let pmh := PutMultiImpl.mk (PutMultiImpl.parts_ pmh) None
                   (PutMultiImpl.outcome_fut_ pmh)
                   (PutMultiImpl.part_e_tags_ pmh)
                   (PutMultiImpl.sema pmh) (PutMultiImpl.upload_id_ pmh) in
      if negb (IsSuccess createMpResponse) then ret (Err S3Error, pmh, [])
      else
        let pmh := PutMultiImpl.mk (PutMultiImpl.parts_ pmh) None
                     (PutMultiImpl.outcome_fut_ pmh)
                     (PutMultiImpl.part_e_tags_ pmh)
                     (PutMultiImpl.sema pmh)
                     (GetUploadId createMpResponse) in
        async_s3_client ;;;
        outcomes <- upload_parts bucket object (PutMultiImpl.upload_id_ pmh)
                                 0 (PutMultiImpl.parts_ pmh) ;;
        ret (ResultSuccess, pmh, outcomes)
  end.

(** The completion handler of part [i] in [S3PutMultiAsync2]. *)
Definition part_callback (outcomes : list Response)
           (pmh : PutMultiImpl.t) (i : nat) : Run PutMultiImpl.t :=
  match outcomes !! i with
  | None => Done pmh
  | Some outcome =>
      if IsSuccess outcome
      then
        run_bind (CountingSemaphore.GoalMinusOne (PutMultiImpl.sema pmh))
          (fun sema =>
             Done (PutMultiImpl.mk (PutMultiImpl.parts_ pmh)
                     (PutMultiImpl.create_fut_ pmh)
                     (PutMultiImpl.outcome_fut_ pmh)
                     (<[i := GetETag outcome]> (PutMultiImpl.part_e_tags_ pmh))
                     sema (PutMultiImpl.upload_id_ pmh)))
      else Aborted
  end.

Definition S3PutMultiAsync3 (bucket object : string) (pmh : PutMultiImpl.t)
  : M (Result unit * PutMultiImpl.t) :=
  (* Possibly blocking call *)
  lift (CountingSemaphore.WaitGoal (PutMultiImpl.sema pmh)) ;;;
  async_s3_client ;;;
  outcome_fut <-
    send (Callable (CompleteMultipartUpload bucket object
                      (PutMultiImpl.upload_id_ pmh)
                      (completed_parts (PutMultiImpl.part_e_tags_ pmh)))) ;;
  ret (ResultSuccess,
       PutMultiImpl.mk (PutMultiImpl.parts_ pmh)
         (PutMultiImpl.create_fut_ pmh) (Some outcome_fut)
         (PutMultiImpl.part_e_tags_ pmh) (PutMultiImpl.sema pmh)
         (PutMultiImpl.upload_id_ pmh)).

Definition S3PutMultiAsyncFinish (bucket object : string)
           (pmh : PutMultiImpl.t) : M (Result unit) :=
  match PutMultiImpl.outcome_fut_ pmh with
  | None => abort
  | Some completeUploadOutcome =>
      if negb (IsSuccess completeUploadOutcome) then ret (Err S3Error)
      else ret ResultSuccess
  end.

(** [S3PutSingleAsync] returns its result, the semaphore as it leaves it,
    and the outcome now in flight. *)
Definition S3PutSingleAsync (bucket object : string) (data size : Z)
           (sema : CountingSemaphore.t)
  : M (Result unit * CountingSemaphore.t * Response) :=
  (fun w => GALOIS_LOG_ASSERT (library_init w) w) ;;;
  sema <- lift (CountingSemaphore.SetGoal 1 sema) ;;
  outcome <- send (Async (PutObject bucket object data size)) ;;
  ret (ResultSuccess, sema, outcome).

(** The completion handler of [S3PutSingleAsync] and of
    [S3GetMultiAsync]. *)
Definition sema_callback (sema : CountingSemaphore.t) (outcome : Response)
  : Run CountingSemaphore.t :=
  if IsSuccess outcome then CountingSemaphore.GoalMinusOne sema
  else Aborted.

Definition S3PutSingleAsyncFinish (sema : CountingSemaphore.t)
  : M (Result unit) :=
  lift (CountingSemaphore.WaitGoal sema) ;;;
  ret ResultSuccess.

(** The body of the future for a small payload. *)
Definition put_single_future (bucket object : string) (data size : Z)
  : M (Result unit) :=
  let sema := CountingSemaphore.init in
  r <- S3PutSingleAsync bucket object data size sema ;;
  let '(res, sema, outcome) := r in
  match res with
  | Err e => ret (Err e)
  | Ok _ =>
      (* the completion handler runs on an executor thread *)
      sema <- lift (sema_callback sema outcome) ;;
      res <- S3PutSingleAsyncFinish sema ;;
      match res with
      | Err e => ret (Err e)
      | Ok _ => ret ResultSuccess
      end
  end.

(** The body of the future for a large payload. *)
Definition put_multi_future (bucket object : string) (data size : Z)
  : M (Result unit) :=
  pm <- S3PutMultiAsync1 bucket object data size ;;
  r <- S3PutMultiAsync2 bucket object pm ;;
  let '(res, pm, outcomes) := r in
  match res with
  | Err e => ret (Err e)
  | Ok _ =>
      (* the completion handlers run on executor threads *)
      pm <- lift (run_foldl (part_callback outcomes) pm
                            (arrival (length outcomes))) ;;
      r <- S3PutMultiAsync3 bucket object pm ;;
      let '(res, pm) := r in
      match res with
      | Err e => ret (Err e)
      | Ok _ =>
          res <- S3PutMultiAsyncFinish bucket object pm ;;
          match res with
          | Err e => ret (Err e)
          | Ok _ => ret ResultSuccess
          end
      end
  end.

Definition S3PutAsync (bucket object : string) (data size : Z)
  : M (Result (option FileAsyncWork)) :=
  if size <? kS3DefaultBufSize
  then ret (Ok (Some (mkFileAsyncWork
                        (put_single_future bucket object data size))))
  else ret (Ok (Some (mkFileAsyncWork
                        (put_multi_future bucket object data size)))).

Definition PrepareObjectRequest (bucket object : string) (part : BufPart.t)
  : Request :=
  (* Knock one byte off the end because range in AWS S3 API is inclusive *)
  let range := "bytes=" +:+ to_decimal (BufPart.start part) +:+ "-" +:+
               to_decimal (wrap64 (BufPart.end_ part - 1)) in
  GetObject bucket object range (BufPart.dest part)
            (wrap64 (BufPart.end_ part - BufPart.start part + 1)).

(** The loop that dispatches one [GetObjectAsync] per part. *)
Fixpoint get_parts (bucket object : string) (parts : list BufPart.t)
  : M (list Response) :=
  match parts with
  | [] => ret []
  | part :: rest =>
      outcome <- send (Async (PrepareObjectRequest bucket object part)) ;;
      outcomes <- get_parts bucket object rest ;;
      ret (outcome :: outcomes)
  end.

(** [S3GetMultiAsync] returns its result, the semaphore as it leaves it,
    and the outcomes now in flight. *)
Definition S3GetMultiAsync (bucket object : string) (start size result_buf : Z)
           (sema : CountingSemaphore.t)
  : M (Result unit * CountingSemaphore.t * list Response) :=
  bufView <- lift (SegmentBuf start result_buf size) ;;
  let parts := SegmentedBufferView.parts bufView in
  if bool_decide (parts = []) then ret (ResultSuccess, sema, [])
  else
    sema <- lift (CountingSemaphore.SetGoal (Z.of_nat (length parts)) sema) ;;
    async_s3_client ;;;
    outcomes <- get_parts bucket object parts ;;
    ret (ResultSuccess, sema, outcomes).

Definition S3GetMultiAsyncFinish (sema : CountingSemaphore.t)
  : M (Result unit) :=
  lift (CountingSemaphore.WaitGoal sema) ;;;
  (* result_buf should have the data here *)
  ret ResultSuccess.

(** The body of the future of [S3GetAsync]. *)
Definition get_future (bucket object : string) (start size result_buf : Z)
  : M (Result unit) :=
  let sema := CountingSemaphore.init in
  r <- S3GetMultiAsync bucket object start size result_buf sema ;;
  let '(res, sema, outcomes) := r in
  match res with
  | Err e => ret (Err e)
  | Ok _ =>
      (* the completion handlers run on executor threads *)
      sema <- lift (run_foldl
                      (fun s i => match outcomes !! i with
                                  | Some outcome => sema_callback s outcome
                                  | None => Done s
                                  end)
                      sema (arrival (length outcomes))) ;;
      res <- S3GetMultiAsyncFinish sema ;;
      match res with
      | Err e => ret (Err e)
      | Ok _ => ret ResultSuccess
      end
  end.

(** [S3GetAsync]; [Ok None] is the success value that carries a null
    handle. *)
Definition S3GetAsync (bucket object : string) (start size result_buf : Z)
  : M (Result (option FileAsyncWork)) :=
  if size =? 0 then ret (Ok None)
  else ret (Ok (Some (mkFileAsyncWork
                        (get_future bucket object start size result_buf)))).

(** [list->emplace(short_name)] on the set behind the pointer [list]. *)
Definition emplace (list : Z) (short_name : string) : M unit :=
  fun w =>
    (Done tt,
     mkWorld (library_init w) (calls w) (memory w)
             (<[list := {[short_name]} ∪ (sets w !!! list)]> (sets w))).

(** The body of the loop over the listed keys. *)
Definition emplace_short_name (object : string) (list : Z) (key : string)
  : M unit :=
  let short_name := key in
  match find object short_name with
  | Some begin =>
      GALOIS_LOG_ASSERT (bool_decide (begin = 0%nat)) ;;;
      GALOIS_LOG_ASSERT
        (bool_decide (String.get (String.length object) short_name
                      = Some slash)) ;;;
      let short_name := erase begin (String.length object + 1) short_name in
      emplace list short_name
  | None => abort
  end.

(** The [do ... while] loop of [S3ListAsync]; [token] is the local
    variable, and the request carries it once it is non-empty.  [fuel]
    bounds the number of pages; a listing that outlasts it never ends. *)
Fixpoint list_pages (fuel : nat) (bucket object : string) (list : Z)
         (token : string) : M (Result unit) :=
  match fuel with
  | O => block
  | S fuel' =>
      let request :=
        ListObjectsV2 bucket object
          (if (0 <? String.length token)%nat then Some token else None) in
      async_s3_client ;;;
      s3outcome <- send (Sync request) ;;
      if negb (IsSuccess s3outcome) then abort
      else
        foldM (fun _ key => emplace_short_name object list key) tt
              (GetContents s3outcome) ;;;
        token <- (if GetIsTruncated s3outcome
                  then
                    (* Get more listings *)
                    let token := GetNextContinuationToken s3outcome in
                    GALOIS_LOG_ASSERT (0 <? String.length token)%nat ;;;
                    ret token
                  else ret EmptyString) ;;
        if (0 <? String.length token)%nat
        then list_pages fuel' bucket object list token
        else ret ResultSuccess
  end.

Definition S3ListAsync (fuel : nat) (bucket object : string) (list : Z)
  : M (Result (option FileAsyncWork)) :=
  (fun w => GALOIS_LOG_ASSERT (library_init w) w) ;;;
  ret (Ok (Some (mkFileAsyncWork
                   (list_pages fuel bucket object list EmptyString)))).

Definition S3SendDelete (aws_objs : list string) (bucket : string)
  : M (Result unit) :=
  GetS3Client ;;;
  s3outcome <- send (Sync (DeleteObjects bucket aws_objs)) ;;
  if negb (IsSuccess s3outcome) then ret (Err S3Error)
  else ret ResultSuccess.

(** The [for] loop of [S3Delete] over the files still to visit. *)
Fixpoint S3Delete_loop (bucket object : string) (files : list string)
         (index : Z) (aws_objs : list string) (res : Result unit)
  : M (list string * Result unit) :=
  match files with
  | [] => ret (aws_objs, res)
  | file :: files' =>
      (* Must send a batch of kS3MaxDelete or fewer at a time *)
      st <- (if negb (index =? 0) && (index mod kS3MaxDelete =? 0)
             then
               batch_res <- S3SendDelete aws_objs bucket ;;
               (* If we get an error code, carry on, but remember it *)
               ret ([], if is_ok batch_res then res else batch_res)
             else ret (aws_objs, res)) ;;
      let '(aws_objs, res) := st in
      S3Delete_loop bucket object files' (wrap64 (index + 1))
                    (aws_objs ++ [JoinPath object file]) res
  end.

(** [S3Delete]; [files] lists the set in the order its iterator visits
    it. *)
Definition S3Delete (bucket object : string) (files : list string)
  : M (Result unit) :=
  let res := ResultSuccess in
  if (length files =? 0)%nat then ret res
  else
    st <- S3Delete_loop bucket object files 0 [] res ;;
    let '(aws_objs, res) := st in
    if (0 <? length aws_objs)%nat
    then
      batch_res <- S3SendDelete aws_objs bucket ;;
      ret (if is_ok batch_res then res else batch_res)
    else ret res.
End Engine.

(* ===================================================================== *)
(** ** AsyncOpGroup and ReadGroup *)
(* ===================================================================== *)

(** The first error of a sequence of results, in the order they were met. *)
Fixpoint first_error (rs : list (Result unit)) : Result unit :=
  match rs with
  | [] => ResultSuccess
  | Ok _ :: rs' => first_error rs'
  | Err e :: _ => Err e
  end.

Module Futures.
(** The futures a group waits on.  [schedule] lists the futures in the
    order the network resolves them, each with the result it resolves to;
    [now] is how far along the schedule time has come. *)
Record t : Type := mk { schedule : list (nat * Result unit); now : nat }.

(** Where in the schedule the future [id] resolves. *)
Definition resolution (id : nat) (fs : t) : option (nat * (nat * Result unit)) :=
  list_find (fun e => fst e = id) (schedule fs).

(** What the future [id] resolves to. *)
Definition outcome (id : nat) (fs : t) : option (Result unit) :=
  (fun hit => snd (snd hit)) <$> resolution id fs.

(** [future.get()]: block until the future has resolved, which lets time
    pass up to its place in the schedule; a future that never resolves
    blocks for good. *)
Definition get (id : nat) (fs : t) : Run (Result unit * t) :=
  match resolution id fs with
  | Some (k, (_, r)) => Done (r, mk (schedule fs) (Nat.max (now fs) (S k)))
  | None => Blocked
  end.
End Futures.

Module AsyncOpGroup.
Section Group.
(** The state of the caller that the continuations act on. *)
Context {S : Type}.

(** Modelled from the spec: AsyncOpGroup.h is not among the sources.  A
    tracked operation is a label, a handle to the eventual result, and
    the continuation to run on completion. *)
Record AsyncOp : Type := mkOp {
  result : nat;
  file : string;
  on_complete : S -> Result unit * S
}.

(** Modelled from the spec: the group owns the queue of tracked
    operations, in registration order. *)
Record t : Type := mk { pending_ops_ : list AsyncOp }.

Definition empty : t := mk [].

(** Modelled from the spec: registering appends to the queue. *)
Definition AddOp (g : t) (future : nat) (file : string)
           (on_complete : S -> Result unit * S) : t :=
  mk (pending_ops_ g ++ [mkOp future file on_complete]).

(** Modelled from the spec: drain the queue front first; for each entry
    block until its future resolves, then invoke its continuation; keep
    the first error met (of a future, or returned by a continuation)
    and carry on.  [ran] records the labels in the order the
    continuations were invoked. *)
Fixpoint drain (ops : list AsyncOp) (fs : Futures.t) (s : S)
         (first : Result unit) (ran : list string)
  : Run (Result unit * S * Futures.t * list string) :=
  match ops with
  | [] => Done (first, s, fs, ran)
  | op :: ops' =>
      run_bind (Futures.get (result op) fs)
        (fun got =>
           let '(r, fs') := got in
           let '(c, s') := on_complete op s in
           drain ops' fs' s' (first_error [first; r; c])
                 (ran ++ [file op]))
  end.

(** Modelled from the spec: [finish()]. *)
Definition Finish (g : t) (fs : Futures.t) (s : S)
  : Run (Result unit * t * S * Futures.t * list string) :=
  run_bind (drain (pending_ops_ g) fs s ResultSuccess [])
    (fun out =>
       let '(res, s', fs', ran) := out in
       Done (res, empty, s', fs', ran)).

(** The results met while draining, in the order they are met: for each
    operation its future's, then its continuation's. *)
Fixpoint encountered (ops : list AsyncOp) (fs : Futures.t) (s : S)
  : list (Result unit) :=
  match ops with
  | [] => []
  | op :: ops' =>
      let r := default ResultSuccess (Futures.outcome (result op) fs) in
      let '(c, s') := on_complete op s in
      r :: c :: encountered ops' fs s'
  end.

(** The caller's state after the continuations ran in queue order. *)
Definition continued (ops : list AsyncOp) (s : S) : S :=
  foldl (fun s op => snd (on_complete op s)) s ops.
End Group.
Arguments AsyncOp S : clear implicits.
Arguments t S : clear implicits.
End AsyncOpGroup.

Module ReadGroup.
(** [tsuba::ReadGroup] keeps an [AsyncOpGroup]. *)
Record t (S : Type) : Type := mk { async_op_group_ : AsyncOpGroup.t S }.
Arguments mk {S} _.
Arguments async_op_group_ {S} _.

Definition Make {S} : t S := mk AsyncOpGroup.empty.

(** Modelled from the spec: ReadGroup.cpp is not among the sources; the
    group hands registration to its [AsyncOpGroup]. *)
Definition AddOp {S} (g : t S) (future : nat) (file : string)
           (on_complete : S -> Result unit * S) : t S :=
  mk (AsyncOpGroup.AddOp (async_op_group_ g) future file on_complete).

(** Modelled from the spec: and so it does with [Finish]. *)
Definition Finish {S} (g : t S) (fs : Futures.t) (s : S)
  : Run (Result unit * t S * S * Futures.t * list string) :=
  run_bind (AsyncOpGroup.Finish (async_op_group_ g) fs s)
    (fun out =>
       let '(res, g', s', fs', ran) := out in
       Done (res, mk g', s', fs', ran)).
End ReadGroup.

(** Splitting a list into consecutive groups of [n], the last one taking
    what is left. *)
Fixpoint chunks_fuel {A} (fuel n : nat) (l : list A) : list (list A) :=
  match fuel with
  | O => []
  | S fuel' =>
      match l with
      | [] => []
      | _ :: _ => take n l :: chunks_fuel fuel' n (drop n l)
      end
  end.

Definition chunks {A} (n : nat) (l : list A) : list (list A) :=
  chunks_fuel (length l) n l.

(** The world after the calls [cs] have been logged. *)
Definition logged (cs : list Call) (w : World) : World :=
  mkWorld (library_init w) (calls w ++ cs) (memory w) (sets w).

(** What [S3SendDelete] returns for the batch [keys]. *)
Definition batch_result (remote : Request -> Response) (bucket : string)
           (keys : list string) : Result unit :=
  if IsSuccess (remote (DeleteObjects bucket keys)) then ResultSuccess
  else Err S3Error.

(** How [S3Delete] folds a batch result into the result it will return. *)
Definition remember (res batch_res : Result unit) : Result unit :=
  if is_ok batch_res then res else batch_res.

(** What is left of [S3Delete] once its loop has run. *)
Definition S3Delete_rest (remote : Request -> Response) (bucket : string)
           (st : list string * Result unit) : M (Result unit) :=
  let '(aws_objs, res) := st in
  if (0 <? length aws_objs)%nat
  then bind (S3SendDelete remote aws_objs bucket)
            (fun batch_res => ret (if is_ok batch_res then res else batch_res))
  else ret res.

(** The [UploadPart] requests of a session, part numbers from [i + 1]. *)
Fixpoint upload_requests (bucket object upload_id : string) (i : nat)
         (parts : list BufPart.t) : list Request :=
  match parts with
  | [] => []
  | part :: rest =>
      UploadPart bucket object upload_id (Z.of_nat i + 1) (BufPart.dest part)
                 (wrap64 (BufPart.end_ part - BufPart.start part))
      :: upload_requests bucket object upload_id (S i) rest
  end.

(** The calls of the multipart protocol. *)
Definition multipart_call (c : Call) : Prop :=
  match request_of c with
  | CreateMultipartUpload _ _ | UploadPart _ _ _ _ _ _
  | CompleteMultipartUpload _ _ _ _ => True
  | _ => False
  end.

(** The put calls that carry a whole object. *)
Definition put_object_call (c : Call) : Prop :=
  match request_of c with
  | PutObject _ _ _ _ => True
  | _ => False
  end.

(** A store that accepts everything and returns nothing of interest. *)
Definition remote_ok (r : Request) : Response :=
  mkResponse true 200 0 "upload-1" "etag" [] [] false "".

(** Handlers run in dispatch order. *)
Definition arrival_in_order (n : nat) : list nat := seq 0 n.

(** Handlers run in reverse dispatch order. *)
Definition arrival_reversed (n : nat) : list nat := reverse (seq 0 n).

Definition join_slash (dir file : string) : string := dir +:+ "/" +:+ file.

(** The world right after [S3Init], nothing issued yet. *)
Definition world0 : World := mkWorld true [] ∅ ∅.

(** [issues P m]: whatever [m] does, from any world, it only adds calls
    that satisfy [P] to the log. *)
Definition issues {A} (P : Call -> Prop) (m : M A) : Prop :=
  forall w, exists cs, calls (snd (m w)) = calls w ++ cs /\ Forall P cs.

(** A store that accepts everything and tags each part with its number. *)
Definition remote_etags (r : Request) : Response :=
  match r with
  | UploadPart _ _ _ part_number _ _ =>
      mkResponse true 200 0 "" ("etag-" +:+ to_decimal part_number) [] []
                 false ""
  | _ => remote_ok r
  end.

(** [Aws::Http::HttpResponseCode::NOT_FOUND]. *)
Definition NOT_FOUND : Z := 404.

(** A store in which no object exists: every request fails with 404. *)
Definition remote_missing (r : Request) : Response :=
  mkResponse false NOT_FOUND 0 "" "" [] [] false "".

(** A store whose objects are all 4096 bytes long. *)
Definition remote_4k (r : Request) : Response :=
  mkResponse true 200 4096 "" "" [] [] false "".

(** Reading back a decimal numeral. *)
Definition of_decimal (s : string) : option Z :=
  (fun d => Z.of_N (N.of_uint d)) <$> NilEmpty.uint_of_string s.

(** A store that answers every ranged get with the bytes 1, 2, 3, ... *)
Definition remote_bytes (r : Request) : Response :=
  mkResponse true 200 0 "" "" [1; 2; 3; 4; 5; 6; 7; 8] [] false "".

(** The continuation token a [ListObjectsV2] request carries when the loop
    variable is [token]: none until a non-empty token has been set. *)
Definition token_opt (token : string) : option string :=
  if (0 <? String.length token)%nat then Some token else None.

(** [page_chain remote bucket object token pages]: starting with the loop
    variable [token], the store returns the successful pages [pages], each
    but the last marked truncated with a non-empty continuation token that
    the next request carries, the last one not truncated. *)
Inductive page_chain (remote : Request -> Response) (bucket object : string)
  : string -> list Response -> Prop :=
| page_last token :
    let resp := remote (ListObjectsV2 bucket object (token_opt token)) in
    IsSuccess resp = true ->
    GetIsTruncated resp = false ->
    page_chain remote bucket object token [resp]
| page_more token rest :
    let resp := remote (ListObjectsV2 bucket object (token_opt token)) in
    IsSuccess resp = true ->
    GetIsTruncated resp = true ->
    GetNextContinuationToken resp <> EmptyString ->
    page_chain remote bucket object (GetNextContinuationToken resp) rest ->
    page_chain remote bucket object token (resp :: rest).

(** The requests that fetch the pages [pages], the first without a token. *)
Fixpoint page_requests (bucket object : string) (token : string)
         (pages : list Response) : list Request :=
  match pages with
  | [] => []
  | resp :: rest =>
      ListObjectsV2 bucket object (token_opt token)
      :: page_requests bucket object (GetNextContinuationToken resp) rest
  end.

(** [names_of object keys names]: each key is the prefix, a slash, and the
    name at the same position. *)
Definition names_of (object : string) (keys names : list string) : Prop :=
  Forall2 (fun key name => key = object +:+ "/" +:+ name) keys names.

(** A key that begins with the prefix followed by a slash. *)
Definition under_prefix (object key : string) : Prop :=
  exists name, key = object +:+ "/" +:+ name.

(** The world after [name] was added to the set behind [list]. *)
Definition emplaced (list : Z) (w : World) (name : string) : World :=
  mkWorld (library_init w) (calls w) (memory w)
          (<[list := {[name]} ∪ (sets w !!! list)]> (sets w)).

(** The world after the names [names] were added, one after the other. *)
Definition emplaced_all (list : Z) (names : Datatypes.list string) (w : World)
  : World :=
  foldl (emplaced list) w names.

(** A store that lists two pages under the prefix "dir". *)
Definition remote_two_pages (r : Request) : Response :=
  match r with
  | ListObjectsV2 _ _ None =>
      mkResponse true 200 0 "" "" [] ["dir/a"; "dir/b"] true "next"
  | ListObjectsV2 _ _ (Some _) =>
      mkResponse true 200 0 "" "" [] ["dir/c"] false ""
  | _ => remote_ok r
  end.

(** A store that lists a key outside the prefix. *)
Definition remote_stray_key (r : Request) : Response :=
  mkResponse true 200 0 "" "" [] ["dir/a"; "dirt/b"] false "".

(** A continuation that notes its label in the caller's log. *)
Definition note (label : string) (log : list string)
  : Result unit * list string :=
  (ResultSuccess, log ++ [label]).

(** Three reads registered as A, B, C on the futures 0, 1, 2. *)
Definition group_abc : ReadGroup.t (list string) :=
  ReadGroup.AddOp
    (ReadGroup.AddOp
       (ReadGroup.AddOp ReadGroup.Make 0%nat "A" (note "A"))
       1%nat "B" (note "B"))
    2%nat "C" (note "C").

(** The futures resolve in the order C, A, B; the one of B with an error. *)
Definition futures_cab : Futures.t :=
  Futures.mk [(2%nat, ResultSuccess); (0%nat, ResultSuccess);
              (1%nat, Err S3Error)] 0.

(** The files "0", "1", ..., [n] of them. *)
Definition numbered_files (n : nat) : list string :=
  (fun i : nat => to_decimal (Z.of_nat i)) <$> seq 0 n.

(** A store that rejects every batched delete that names [key]. *)
Definition remote_rejecting (key : string) (r : Request) : Response :=
  match r with
  | DeleteObjects _ keys =>
      if existsb (String.eqb key) keys
      then mkResponse false 500 0 "" "" [] [] false ""
      else remote_ok r
  | _ => remote_ok r
  end.

(** The number of keys of each batched delete in a log. *)
Definition batch_sizes (cs : list Call) : list nat :=
  omap (fun c => match request_of c with
                 | DeleteObjects _ keys => Some (length keys)
                 | _ => None
                 end) cs.

(** A dispatched part that the store rejects: its handler ends the
    process. *)
Definition rejected (outcomes : list Response) (i : nat) : Prop :=
  exists o, outcomes !! i = Some o /\ IsSuccess o = false.

(** A store that rejects the part numbered [bad] and accepts the rest. *)
Definition remote_rejecting_part (bad : Z) (r : Request) : Response :=
  match r with
  | UploadPart _ _ _ part_number _ _ =>
      if part_number =? bad
      then mkResponse false 500 0 "" "" [] [] false ""
      else remote_etags r
  | _ => remote_etags r
  end.

(* ===================================================================== *)
(** ** More of s3.cpp: initialisation, existence, synchronous download *)
(* ===================================================================== *)

Section Downloads.
Context (remote : Request -> Response).
Context (arrival : nat -> list nat).

(** [S3Init]: from here on the library counts as initialised and the
  clients exist. *)
Definition S3Init : M (Result unit) :=
fun w => (Done ResultSuccess, mkWorld true (calls w) (memory w) (sets w)).

(** [S3Exists]: a failed head request is the answer [false]. *)
Definition S3Exists (bucket object : string) : M (Result bool) :=
GetS3Client ;;;
outcome <- send remote (Sync (HeadObject bucket object)) ;;
if negb (IsSuccess outcome) then ret (Ok false)
else ret (Ok true).

(** The completion handler of [S3DownloadRange]. *)
Definition download_callback (outcomes : list Response) (finished : Z)
         (i : nat) : Run Z :=
match outcomes !! i with
| None => Done finished
| Some get_object_outcome =>
    if IsSuccess get_object_outcome then Done (wrap64 (finished + 1))
    else Aborted
end.

Definition S3DownloadRange (bucket object : string) (start size result_buf : Z)
: M (Result unit) :=
GetS3Client ;;;
bufView <- lift (SegmentBuf start result_buf size) ;;
let parts := SegmentedBufferView.parts bufView in
match parts with
| [] => ret ResultSuccess
| [part] =>
    (* skip all of the thread management overhead if we only have one
       request *)
    outcome <- send remote (Sync (PrepareObjectRequest bucket object part)) ;;
    match CheckS3Error outcome with
    | Err e => ret (Err e)
    | Ok _ => ret ResultSuccess
    end
| _ :: _ :: _ =>
    outcomes <- get_parts remote bucket object parts ;;
    finished <- lift (run_foldl (download_callback outcomes) 0
                                (arrival (length outcomes))) ;;
    if finished <? Z.of_nat (length parts) then block
    else ret ResultSuccess
end.
End Downloads.

(** The [GetObject] requests of a ranged download, one per part. *)
Definition get_requests (bucket object : string) (parts : list BufPart.t)
  : list Request :=
  PrepareObjectRequest bucket object <$> parts.

(** The world after the asynchronous requests [reqs] were dispatched and
    their responses delivered. *)
Definition received (remote : Request -> Response) (reqs : list Request)
           (w : World) : World :=
  foldl (fun w r =>
           mkWorld (library_init w) (calls w ++ [Async r])
                   (deliver r (remote r) (memory w)) (sets w))
        w reqs.


(** [keeps R m]: whatever [m] does, the world it leaves is related by [R]
    to the world it started from. *)
Definition keeps {A} (R : World -> World -> Prop) (m : M A) : Prop :=
  forall w, R w (snd (m w)).

(** Nothing but the request log has changed. *)
Definition only_logged (w w' : World) : Prop :=
  library_init w' = library_init w
  /\ memory w' = memory w
  /\ sets w' = sets w.

(** Only the name set behind [list] has changed, and only by growing. *)
Definition only_listed (list : Z) (w w' : World) : Prop :=
  library_init w' = library_init w
  /\ memory w' = memory w
  /\ (forall other, other <> list -> sets w' !! other = sets w !! other)
  /\ sets w !!! list ⊆ sets w' !!! list.

(** The bytes outside the addresses [lo, hi) are as they were. *)
Definition untouched_outside (lo hi : Z) (m m' : gmap Z Z) : Prop :=
  forall a, a < lo \/ hi <= a -> m' !! a = m !! a.

(** A part whose destination lies inside the buffer [buf, buf + size). *)
Definition lands_within (buf size : Z) (part : BufPart.t) : Prop :=
  buf <= BufPart.dest part
  /\ 0 < BufPart.end_ part - BufPart.start part
  /\ BufPart.dest part + (BufPart.end_ part - BufPart.start part) <= buf + size
  /\ BufPart.end_ part - BufPart.start part + 1 < 2 ^ 64.

(** A store that redirects every request. *)
Definition remote_redirect (r : Request) : Response :=
  mkResponse false MOVED_PERMANENTLY 0 "" "" [] [] false "".

(** A store that refuses every request with a server error. *)
Definition remote_error (r : Request) : Response :=
  mkResponse false 500 0 "" "" [] [] false "".

(** The world before [S3Init]. *)
Definition world_uninit : World := mkWorld false [] ∅ ∅.

(** The bytes outside the addresses [lo, hi) are as they were before. *)
Definition writes_within (lo hi : Z) (w w' : World) : Prop :=
  untouched_outside lo hi (memory w) (memory w').

(** The store answers the [GetObject] of a part with no more bytes than
    the part's range asks for. *)
Definition honours_range (remote : Request -> Response)
           (bucket object : string) (part : BufPart.t) : Prop :=
  Z.of_nat (length (GetBody (remote (PrepareObjectRequest bucket object part))))
  <= BufPart.len part.

(** A store that answers every request with the same five bytes. *)
Definition remote_five_bytes (r : Request) : Response :=
  mkResponse true 200 5 "" "" [1; 2; 3; 4; 5] [] false "".

(** [fails_only codes r]: [r] is a success, or an error among [codes]. *)
Definition fails_only {A} (codes : list ErrorCode) (r : Result A) : Prop :=
  match r with
  | Ok _ => True
  | Err e => e ∈ codes
  end.

(** [slices a b reqs]: the [UploadPart] requests [reqs] carry, one after
    the other, non-empty pieces of memory laid end to end from address [a]
    to address [b]. *)
Inductive slices : Z -> Z -> list Request -> Prop :=
| slices_nil a : slices a a []
| slices_cons a b bucket key upload_id part_number content_length reqs :
    0 < content_length ->
    slices (a + content_length) b reqs ->
    slices a b (UploadPart bucket key upload_id part_number a content_length
                :: reqs).

(* ===================================================================== *)
(** ** HttpNameServerClient *)
(* ===================================================================== *)

Module HttpNameServerClient.
(** [galois::Uri]: the client only hands it to [Encode]. *)
Definition Uri : Type := string.

(** [RDGMeta]: the client touches [dir_] alone; [others] stands for the
  rest of the record, as the JSON text that carries it. *)
Record RDGMeta : Type := mkRDGMeta { dir_ : Uri; others : string }.

(** The HTTP requests of galois/Http.h the client makes. *)
Inductive HttpCall : Type :=
| HttpGet (url : string)
| HttpPost (url : string) (body : RDGMeta)
| HttpPut (url : string) (body : RDGMeta).

(** What a call of the client can change on its host: the requests sent,
  and how often [Comm()->NotifyFailure()] was called. *)
Record Host : Type := mkHost {
http_log : list HttpCall;
failures_notified : nat
}.

Definition sent (c : HttpCall) (h : Host) : Host :=
mkHost (http_log h ++ [c]) (failures_notified h).

Definition NotifyFailure (h : Host) : Host :=
mkHost (http_log h) (S (failures_notified h)).

Section Client.
(** The name server the client talks to: the answer to each request. *)
Context (HttpGetJson_health : string -> Result string).
Context (HttpGetJson_meta : string -> Result RDGMeta).
Context (HttpPostJson HttpPutJson : string -> RDGMeta -> Result unit).
Context (Encode : Uri -> string).
(** The client's [prefix_] and the [ID] of the host it runs on. *)
Context (prefix_ : string).
Context (ID : Z).

Definition BuildUrl (rdg_name : Uri) : Result string :=
Ok (prefix_ +:+ "rdgs/" +:+ Encode rdg_name).

(** [HttpGetJson<HealthResponse>] yields the [status] field of the answer. *)
Definition CheckHealth (h : Host) : Result unit * Host :=
let url := prefix_ +:+ "health-status" in
let health_res := HttpGetJson_health url in
let h := sent (HttpGet url) h in
match health_res with
| Err e => (Err e, h)
| Ok status =>
    if negb (String.eqb status "ok") then (Err TODO, h)
    else (ResultSuccess, h)
end.

Definition Get (rdg_name : Uri) (h : Host) : Result RDGMeta * Host :=
match BuildUrl rdg_name with
| Err e => (Err e, h)
| Ok uri =>
    let meta_res := HttpGetJson_meta uri in
    let h := sent (HttpGet uri) h in
    match meta_res with
    | Ok meta => (Ok (mkRDGMeta rdg_name (others meta)), h)
    | Err e => (Err e, h)
    end
end.

Definition Create (rdg_name : Uri) (meta : RDGMeta) (h : Host)
: Result unit * Host :=
let res := ResultSuccess in
let '(res, h) :=
  if ID =? 0 then
    match BuildUrl rdg_name with
    | Ok uri => (HttpPostJson uri meta, sent (HttpPost uri meta) h)
    | Err e => (Err e, h)
    end
  else (res, h) in
let h := if negb (is_ok res) then NotifyFailure h else h in
(ResultSuccess, h).

Definition Update (rdg_name : Uri) (old_version : Z) (meta : RDGMeta)
         (h : Host) : Result unit * Host :=
let res := ResultSuccess in
let '(res, h) :=
  if ID =? 0 then
    match BuildUrl rdg_name with
    | Ok uri =>
        let query_string := "?expected-version=" +:+ to_decimal old_version in
        (HttpPutJson (uri +:+ query_string) meta,
         sent (HttpPut (uri +:+ query_string) meta) h)
    | Err e => (Err e, h)
    end
  else (res, h) in
let h := if negb (is_ok res) then NotifyFailure h else h in
(res, h).
End Client.
End HttpNameServerClient.

(** A name server that refuses every write and reports itself as down. *)
Definition refuse_write (url : string) (body : HttpNameServerClient.RDGMeta)
  : Result unit := Err Unknown.

Definition health_down (url : string) : Result string := Ok "down".

Definition meta_at_server (url : string)
  : Result HttpNameServerClient.RDGMeta :=
  Ok (HttpNameServerClient.mkRDGMeta "elsewhere" "{}").

Definition host0 : HttpNameServerClient.Host :=
  HttpNameServerClient.mkHost [] 0.
(* ===================================================================== *)
(** ** Facts about the segment view *)
(* ===================================================================== *)

Section SegmentView.
Import SegmentedBufferView.

Lemma wrap64_small z : 0 <= z < 2 ^ 64 -> wrap64 z = z.
Proof. intros H. unfold wrap64. apply Z.mod_small. exact H. Qed.

Lemma NumSegments_bounds v :
  0 < segment_size_ v -> 0 <= size_ v ->
  (NumSegments v - 1) * segment_size_ v < size_ v + Z.b2z (size_ v =? 0)
  /\ size_ v <= NumSegments v * segment_size_ v
  /\ 0 <= NumSegments v.
Proof.
  intros Hseg Hsize. unfold NumSegments.
  pose proof (Z.div_mod (size_ v) (segment_size_ v) ltac:(lia)) as Hdm.
  pose proof (Z.mod_pos_bound (size_ v) (segment_size_ v) Hseg) as Hmod.
  pose proof (Z.div_pos (size_ v) (segment_size_ v) Hsize Hseg) as Hq.
  destruct (Z.eqb_spec (size_ v mod segment_size_ v) 0) as [E|E];
    destruct (Z.eqb_spec (size_ v) 0) as [E0|E0]; simpl; nia.
Qed.

Lemma chain_total a b ps : chain a b ps -> total_len ps = b - a.
Proof.
  induction 1 as [a|a b p ps Hs Hlt Hc IH]; simpl.
  - lia.
  - unfold BufPart.len. rewrite IH. lia.
Qed.

Lemma chain_le a b ps : chain a b ps -> a <= b.
Proof. induction 1; lia. Qed.

Lemma chain_Forall a b ps :
  chain a b ps -> Forall (fun p => BufPart.start p < BufPart.end_ p) ps.
Proof. induction 1; constructor; assumption. Qed.

Lemma chain_adjacent a b ps :
  chain a b ps ->
  forall (i : nat) p q,
    ps !! i = Some p -> ps !! S i = Some q -> BufPart.end_ p = BufPart.start q.
Proof.
  induction 1 as [a|a b p ps Hs Hlt Hc IH]; intros i p' q Hp Hq.
  - discriminate.
  - destruct i as [|i]; simpl in *.
    + injection Hp as <-. destruct ps as [|r ps]; [discriminate|].
      simpl in Hq. injection Hq as <-. inversion Hc; subst. congruence.
    + eapply IH; eassumption.
Qed.

Lemma chain_within a b ps :
  chain a b ps ->
  Forall (fun p => a <= BufPart.start p /\ BufPart.end_ p <= b) ps.
Proof.
  induction 1 as [a|a b p ps Hs Hlt Hc IH]; constructor.
  - apply chain_le in Hc. lia.
  - eapply Forall_impl; [exact IH|]. simpl. intros q [? ?]. lia.
Qed.

(** The parts from index [k] on form a chain from [start + k * segment]
    to the end of the range. *)
Lemma parts_from_chain v (m k : nat) :
  0 < segment_size_ v -> 0 <= start_ v -> 0 <= size_ v ->
  start_ v + size_ v < 2 ^ 64 ->
  (Z.of_nat k + Z.of_nat m = NumSegments v) ->
  chain (start_ v + Z.min (Z.of_nat k * segment_size_ v) (size_ v))
        (start_ v + size_ v)
        ((fun i : nat => GetPart v (Z.of_nat i)) <$> seq k m).
Proof.
  intros Hseg Hstart Hsz Hfit. revert k.
  pose proof (NumSegments_bounds v Hseg Hsz) as (Hlb & Hub & _).
  induction m as [|m IH]; intros k Hk.
  - simpl.
    replace (Z.min (Z.of_nat k * segment_size_ v) (size_ v)) with (size_ v)
      by nia.
    constructor.
  - assert (size_ v <> 0) as Hnz.
    { intros E0. unfold NumSegments in Hk. rewrite E0 in Hk.
      rewrite Z.div_0_l, Z.mod_0_l in Hk by lia. simpl in Hk. lia. }
    assert ((size_ v =? 0) = false) as E by (apply Z.eqb_neq; exact Hnz).
    rewrite E in Hlb. simpl in Hlb.
    assert (Z.of_nat k * segment_size_ v < size_ v) as Hoff by nia.
    assert (0 <= Z.of_nat k * segment_size_ v) as Hoff0 by nia.
    rewrite <- cons_seq, fmap_cons. apply chain_cons.
    + cbn [GetPart BufPart.start]. rewrite wrap64_small by lia. lia.
    + cbn [GetPart BufPart.start BufPart.end_].
      rewrite !wrap64_small by lia. lia.
    + cbn [GetPart BufPart.end_]. rewrite wrap64_small by lia.
      replace (start_ v + Z.of_nat k * segment_size_ v +
               Z.min (segment_size_ v) (size_ v - Z.of_nat k * segment_size_ v))
        with (start_ v + Z.min (Z.of_nat (S k) * segment_size_ v) (size_ v))
        by nia.
      apply IH. lia.
Qed.

Lemma parts_chain v :
  0 < segment_size_ v -> 0 <= start_ v -> 0 <= size_ v ->
  start_ v + size_ v < 2 ^ 64 ->
  chain (start_ v) (start_ v + size_ v) (parts v).
Proof.
  intros Hseg Hstart Hsz Hfit.
  pose proof (NumSegments_bounds v Hseg Hsz) as (_ & _ & Hn).
  pose proof (parts_from_chain v (Z.to_nat (NumSegments v)) 0
                Hseg Hstart Hsz Hfit ltac:(lia)) as H.
  replace (start_ v + Z.min (Z.of_nat 0 * segment_size_ v) (size_ v))
    with (start_ v) in H by lia.
  exact H.
Qed.

Lemma parts_length v : length (parts v) = Z.to_nat (NumSegments v).
Proof. unfold parts. rewrite length_fmap, length_seq. reflexivity. Qed.

Lemma parts_len_le v :
  0 < segment_size_ v -> 0 <= start_ v -> 0 <= size_ v ->
  start_ v + size_ v < 2 ^ 64 ->
  Forall (fun p => BufPart.len p <= segment_size_ v) (parts v).
Proof.
  intros Hseg Hstart Hsz Hfit. unfold parts.
  pose proof (NumSegments_bounds v Hseg Hsz) as (Hlb & _ & _).
  apply Forall_fmap, Forall_forall. intros i Hi.
  apply elem_of_seq in Hi. simpl.
  assert (size_ v <> 0) as Hnz.
  { intros E0. unfold NumSegments in Hi. rewrite E0 in Hi.
    rewrite Z.div_0_l, Z.mod_0_l in Hi by lia. simpl in Hi. lia. }
  assert ((size_ v =? 0) = false) as E by (apply Z.eqb_neq; exact Hnz).
  rewrite E in Hlb. simpl in Hlb.
  assert (Z.of_nat i * segment_size_ v < size_ v) as Hoff by nia.
  unfold BufPart.len. simpl. rewrite !wrap64_small by nia. lia.
Qed.

Lemma SegmentBuf_view start data size v :
  SegmentBuf start data size = Done v ->
  start_ v = start /\ dest_ v = data /\ size_ v = size
  /\ kS3MinBufSize < segment_size_ v.
Proof.
  unfold SegmentBuf. intros H.
  destruct (size / kS3DefaultBufSize >? kS3MaxMultiPart).
  - destruct (_ && _) eqn:E; [|discriminate].
    injection H as <-. simpl. apply andb_prop in E as [E1 _].
    repeat split. lia.
  - injection H as <-. simpl. repeat split.
Qed.
End SegmentView.

Section Results.
Lemma first_error_app rs1 rs2 :
  first_error (first_error rs1 :: rs2) = first_error (rs1 ++ rs2).
Proof.
  induction rs1 as [|[[]|e] rs1 IH]; simpl.
  - reflexivity.
  - exact IH.
  - reflexivity.
Qed.

Lemma first_error_all_ok rs :
  is_ok (first_error rs) = true <-> Forall (fun r => is_ok r = true) rs.
Proof.
  induction rs as [|[[]|e] rs IH]; simpl.
  - split; [constructor|reflexivity].
  - rewrite IH. split; [constructor; [reflexivity|assumption]|].
    intros H. apply Forall_cons in H as [_ H]. exact H.
  - split; [discriminate|]. intros H. apply Forall_cons in H as [H _].
    discriminate.
Qed.
End Results.

Section SegmentViewProperties.
Import SegmentedBufferView.

Lemma kS3MinBufSize_pos : 0 < kS3MinBufSize.
Proof. reflexivity. Qed.

Lemma chain_sorted a b ps :
  chain a b ps ->
  forall (i j : nat) p q,
    (i < j)%nat -> ps !! i = Some p -> ps !! j = Some q ->
    BufPart.end_ p <= BufPart.start q.
Proof.
  induction 1 as [a|a b p ps Hs Hlt Hc IH]; intros i j p' q Hij Hp Hq.
  - discriminate.
  - destruct j as [|j]; [lia|]. simpl in Hq.
    destruct i as [|i]; simpl in Hp.
    + injection Hp as <-.
      pose proof (chain_within _ _ _ Hc) as Hall.
      rewrite Forall_lookup in Hall. apply Hall in Hq. lia.
    + eapply IH; [|eassumption|eassumption]. lia.
Qed.

Lemma chain_last a b ps :
  chain a b ps -> ps <> [] -> exists q, last ps = Some q /\ BufPart.end_ q = b.
Proof.
  induction 1 as [a|a b p ps Hs Hlt Hc IH]; intros Hne; [congruence|].
  destruct ps as [|r ps].
  - inversion Hc; subst. exists p. split; reflexivity.
  - destruct IH as (q & Hq & Hb); [congruence|].
    exists q. split; [|exact Hb]. rewrite last_cons, Hq. reflexivity.
Qed.

Lemma chain_partition a b ps : chain a b ps -> a < b -> partition_of a b ps.
Proof.
  intros Hc Hab. unfold partition_of.
  split; [eapply chain_Forall; eassumption|].
  split; [eapply chain_adjacent; eassumption|].
  split; [eapply chain_sorted; eassumption|].
  assert (ps <> []) as Hne.
  { intros ->. inversion Hc; subst. lia. }
  split.
  - destruct Hc as [a|a b p ps Hs _ _]; [congruence|].
    exists p. split; [reflexivity|exact Hs].
  - split; [eapply chain_last; eassumption|].
    eapply chain_total; eassumption.
Qed.

Lemma view_partition start dest size segment_size :
  0 <= start -> 0 < size -> 0 < segment_size -> start + size < 2 ^ 64 ->
  partition_of start (start + size)
               (parts (mk start dest size segment_size)).
Proof.
  intros Hstart Hsize Hseg Hfit.
  apply chain_partition; [|lia].
  apply (parts_chain (mk start dest size segment_size)); simpl; lia.
Qed.

(** C1.  For every range [start, start + size) with [size > 0] that fits
    the 64-bit offsets, and every positive segment size, the parts of the
    segment view are non-empty ([start < end]), contiguous (each part's end
    is the next part's start), non-overlapping, begin at [start], end at
    [start + size] and their byte lengths add up to [size]; the same holds
    for the view [SegmentBuf] builds whenever it returns one. *)
Theorem segment_view_exact_cover (start dest size : Z) :
  0 <= start -> 0 < size -> start + size < 2 ^ 64 ->
  (forall segment_size,
      0 < segment_size ->
      let ps := parts (mk start dest size segment_size) in
      partition_of start (start + size) ps /\ total_len ps = size)
  /\ (forall v,
         SegmentBuf start dest size = Done v ->
         partition_of start (start + size) (parts v)
         /\ total_len (parts v) = size).
Proof.
  intros Hstart Hsize Hfit. split.
  - intros segment_size Hseg ps.
    pose proof (view_partition start dest size segment_size
                  Hstart Hsize Hseg Hfit) as Hp.
    split; [exact Hp|].
    destruct Hp as (_ & _ & _ & _ & _ & Htot). subst ps. lia.
  - intros v Hv.
    destruct (SegmentBuf_view _ _ _ _ Hv) as (E1 & E2 & E3 & Hmin).
    destruct v as [s d z g].
    cbn [start_ dest_ size_ segment_size_] in *. subst s d z.
    assert (0 < g) as Hseg by (pose proof kS3MinBufSize_pos; lia).
    pose proof (view_partition start dest size g Hstart Hsize Hseg Hfit) as Hp.
    split; [exact Hp|].
    destruct Hp as (_ & _ & _ & _ & _ & Htot). lia.
Qed.

Lemma segment_view_exact_cover_witness :
  (forall segment_size,
      0 < segment_size ->
      let ps := parts (mk 100 0 20 segment_size) in
      partition_of 100 (100 + 20) ps /\ total_len ps = 20)
  /\ (forall v,
         SegmentBuf 100 0 20 = Done v ->
         partition_of 100 (100 + 20) (parts v) /\ total_len (parts v) = 20).
Proof. apply (segment_view_exact_cover 100 0 20); lia. Defined.

Example parts_of_20_by_8 :
  parts (mk 100 0 20 8)
  = [BufPart.mk 100 108 0; BufPart.mk 108 116 8; BufPart.mk 116 120 16].
Proof. reflexivity. Qed.

Example parts_of_empty_range : parts (mk 100 0 0 8) = [].
Proof. reflexivity. Qed.

(** The enlarged segment size: when the default size would need more than
    [kS3MaxMultiPart] parts, [SegmentBuf] either aborts on its assertion
    or returns a view whose segment size is [size / (kS3MaxMultiPart + 1)]
    and lies strictly between the minimum and the maximum part size. *)
Lemma SegmentBuf_enlarged start data size :
  size / kS3DefaultBufSize > kS3MaxMultiPart ->
  SegmentBuf start data size = Aborted
  \/ (SegmentBuf start data size
      = Done (mk start data size (size / (kS3MaxMultiPart + 1)))
      /\ kS3MinBufSize < size / (kS3MaxMultiPart + 1) < kS3MaxBufSize).
Proof.
  intros Hbig. unfold SegmentBuf.
  destruct (Z.gtb_spec (size / kS3DefaultBufSize) kS3MaxMultiPart) as [_|?];
    [|lia].
  destruct (Z.gtb_spec (size / (kS3MaxMultiPart + 1)) kS3MinBufSize);
    destruct (Z.ltb_spec (size / (kS3MaxMultiPart + 1)) kS3MaxBufSize);
    simpl; auto.
Qed.

(** Whenever the segment size is enlarged and the assertion holds, the
    view has more than [kS3MaxMultiPart] parts. *)
Lemma SegmentBuf_enlarged_exceeds start data size v :
  size / kS3DefaultBufSize > kS3MaxMultiPart ->
  SegmentBuf start data size = Done v ->
  kS3MaxMultiPart < NumSegments v
  /\ kS3MaxMultiPart < Z.of_nat (length (parts v)).
Proof.
  intros Hbig Hv.
  destruct (SegmentBuf_enlarged start data size Hbig) as [E|[E Hrange]];
    rewrite E in Hv; [discriminate|].
  injection Hv as <-.
  assert (kS3MaxMultiPart < NumSegments (mk start data size
                                           (size / (kS3MaxMultiPart + 1)))).
  { unfold NumSegments. cbn [size_ segment_size_].
    set (g := size / (kS3MaxMultiPart + 1)) in *.
    assert (0 < g) as Hg by (pose proof kS3MinBufSize_pos; lia).
    assert (0 < kS3MaxMultiPart + 1) as Hm by (unfold kS3MaxMultiPart; lia).
    pose proof (Z.mul_div_le size (kS3MaxMultiPart + 1) Hm) as Hle.
    fold g in Hle.
    assert (kS3MaxMultiPart + 1 <= size / g) as Hq.
    { apply Z.div_le_lower_bound; [exact Hg|]. lia. }
    destruct (size mod g =? 0); lia. }
  split; [assumption|].
  rewrite parts_length. lia.
Qed.

(** C3.  At [size = (kS3MaxMultiPart + 1) * kS3DefaultBufSize] the default
    segment size would need more than [kS3MaxMultiPart] parts, [SegmentBuf]
    enlarges the segment to [size / (kS3MaxMultiPart + 1)], its assertion
    holds, nothing fails, and yet the range holds 10001 whole segments of
    that size and the view has 10001 parts: more than [kS3MaxMultiPart]. *)
Theorem SegmentBuf_exceeds_max_multipart :
  let size := (kS3MaxMultiPart + 1) * kS3DefaultBufSize in
  size / kS3DefaultBufSize > kS3MaxMultiPart
  /\ exists v,
      SegmentBuf 0 0 size = Done v
      /\ segment_size_ v = size / (kS3MaxMultiPart + 1)
      /\ kS3MinBufSize < segment_size_ v < kS3MaxBufSize
      /\ kS3MaxMultiPart < size / segment_size_ v
      /\ Z.of_nat (length (parts v)) = 10001
      /\ kS3MaxMultiPart < Z.of_nat (length (parts v)).
Proof.
  cbv zeta. split; [vm_compute; reflexivity|].
  eexists. split; [vm_compute; reflexivity|].
  split; [vm_compute; reflexivity|].
  split; [split; vm_compute; reflexivity|].
  split; [vm_compute; reflexivity|].
  rewrite parts_length.
  split; vm_compute; reflexivity.
Qed.
End SegmentViewProperties.

(* ===================================================================== *)
(** ** Batched delete *)
(* ===================================================================== *)

Section Chunks.
Context {A : Type}.
Implicit Types l a b : list A.

Lemma chunks_fuel_enough (n : nat) :
  (0 < n)%nat ->
  forall (f1 f2 : nat) l,
    (length l <= f1)%nat -> (length l <= f2)%nat ->
    chunks_fuel f1 n l = chunks_fuel f2 n l.
Proof.
  intros Hn. induction f1 as [|f1 IH]; intros f2 l H1 H2.
  - destruct l; [|simpl in H1; lia]. destruct f2; reflexivity.
  - destruct l as [|x l]; [destruct f2; reflexivity|].
    destruct f2 as [|f2]; [simpl in H2; lia|].
    simpl. f_equal. destruct n as [|n]; [lia|]. simpl.
    apply IH; rewrite length_drop; simpl in *; lia.
Qed.

Lemma chunks_nil (n : nat) : chunks n (@nil A) = [].
Proof. reflexivity. Qed.

Lemma chunks_step (n : nat) l :
  (0 < n)%nat -> l <> [] -> chunks n l = take n l :: chunks n (drop n l).
Proof.
  intros Hn Hl. unfold chunks. destruct l as [|x l]; [congruence|].
  cbn [length chunks_fuel]. f_equal.
  apply chunks_fuel_enough; [exact Hn| |lia].
  destruct n as [|n]; [lia|]. simpl. rewrite length_drop. lia.
Qed.

Lemma chunks_app_full (n : nat) a b :
  (0 < n)%nat -> length a = n -> chunks n (a ++ b) = a :: chunks n b.
Proof.
  intros Hn Ha. rewrite chunks_step; [|exact Hn|].
  - rewrite take_app_length' by (symmetry; exact Ha).
    rewrite drop_app_length' by (symmetry; exact Ha). reflexivity.
  - destruct a; [simpl in Ha; lia|discriminate].
Qed.

Lemma chunks_small (n : nat) a :
  a <> [] -> (length a <= n)%nat -> chunks n a = [a].
Proof.
  intros Ha Hle. rewrite chunks_step; [|destruct a; [congruence|simpl in Hle; lia]|exact Ha].
  rewrite take_ge by exact Hle. rewrite drop_ge by exact Hle. reflexivity.
Qed.

Lemma chunks_concat (n : nat) :
  (0 < n)%nat -> forall l, concat (chunks n l) = l.
Proof.
  intros Hn l. remember (length l) as m eqn:Hm.
  revert l Hm. induction m as [m IH] using lt_wf_ind. intros l Hm.
  destruct l as [|x l]; [reflexivity|].
  rewrite chunks_step by (exact Hn || discriminate).
  cbn [concat]. rewrite (IH (length (drop n (x :: l)))).
  - apply take_drop.
  - subst m. rewrite length_drop. simpl. lia.
  - reflexivity.
Qed.

Lemma chunks_bounded (n : nat) :
  (0 < n)%nat ->
  forall l, Forall (fun b => (0 < length b <= n)%nat) (chunks n l).
Proof.
  intros Hn l. remember (length l) as m eqn:Hm.
  revert l Hm. induction m as [m IH] using lt_wf_ind. intros l Hm.
  destruct l as [|x l]; [constructor|].
  rewrite chunks_step by (exact Hn || discriminate).
  constructor.
  - rewrite length_take. simpl. lia.
  - apply (IH (length (drop n (x :: l)))); [|reflexivity].
    subst m. rewrite length_drop. simpl. lia.
Qed.

Lemma chunks_two_and_one (n : nat) l :
  (0 < n)%nat -> length l = (2 * n + 1)%nat ->
  exists b1 b2 b3,
    chunks n l = [b1; b2; b3]
    /\ length b1 = n /\ length b2 = n /\ length b3 = 1%nat.
Proof.
  intros Hn Hl.
  exists (take n l), (take n (drop n l)), (drop n (drop n l)).
  assert (length (take n l) = n) as H1 by (rewrite length_take; lia).
  assert (length (take n (drop n l)) = n) as H2
      by (rewrite length_take, length_drop; lia).
  assert (length (drop n (drop n l)) = 1%nat) as H3
      by (rewrite !length_drop; lia).
  split; [|auto].
  rewrite <- (take_drop n l) at 1.
  rewrite chunks_app_full by assumption. f_equal.
  rewrite <- (take_drop n (drop n l)) at 1.
  rewrite chunks_app_full by assumption. f_equal.
  apply chunks_small; [|lia].
  intros E. rewrite E in H3. simpl in H3. lia.
Qed.
End Chunks.

Section World.
Lemma logged_nil w : logged [] w = w.
Proof. destruct w. unfold logged. simpl. rewrite app_nil_r. reflexivity. Qed.

Lemma logged_logged cs1 cs2 w : logged cs2 (logged cs1 w) = logged (cs1 ++ cs2) w.
Proof. unfold logged. simpl. rewrite app_assoc. reflexivity. Qed.

Lemma library_init_logged cs w : library_init (logged cs w) = library_init w.
Proof. reflexivity. Qed.

Lemma bind_run {A B} (m : M A) (f : A -> M B) w a w' :
  m w = (Done a, w') -> bind m f w = f a w'.
Proof. intros H. unfold bind. rewrite H. reflexivity. Qed.

Lemma bind_ret_l {A B} (a : A) (f : A -> M B) w : bind (ret a) f w = f a w.
Proof. reflexivity. Qed.

Lemma bind_assoc {A B C} (m : M A) (f : A -> M B) (g : B -> M C) w :
  bind (bind m f) g w = bind m (fun a => bind (f a) g) w.
Proof. unfold bind. destruct (m w) as [[a| |] w']; reflexivity. Qed.

Lemma bind_aborted {A B} (m : M A) (f : A -> M B) w w' :
  m w = (Aborted, w') -> bind m f w = (Aborted, w').
Proof. intros H. unfold bind. rewrite H. reflexivity. Qed.

Lemma bind_blocked {A B} (m : M A) (f : A -> M B) w w' :
  m w = (Blocked, w') -> bind m f w = (Blocked, w').
Proof. intros H. unfold bind. rewrite H. reflexivity. Qed.
End World.

Section Delete.
Context (remote : Request -> Response).
Context (JoinPath : string -> string -> string).

Lemma S3SendDelete_run aws_objs bucket w :
  library_init w = true ->
  S3SendDelete remote aws_objs bucket w
  = (Done (batch_result remote bucket aws_objs),
     logged [Sync (DeleteObjects bucket aws_objs)] w).
Proof.
  intros Hinit.
  unfold S3SendDelete, bind, GetS3Client, GALOIS_LOG_ASSERT, send, batch_result.
  rewrite Hinit. simpl.
  destruct (IsSuccess (remote (DeleteObjects bucket aws_objs))); reflexivity.
Qed.

Lemma S3Delete_loop_run bucket object files :
  forall (k : Z) (aws_objs : list string) (res : Result unit) (w : World),
    library_init w = true ->
    0 <= k ->
    (length aws_objs <= 995)%nat ->
    (aws_objs = [] -> k = 0) ->
    995 * k + Z.of_nat (length aws_objs) + Z.of_nat (length files) < 2 ^ 64 ->
    bind (S3Delete_loop remote JoinPath bucket object files
                        (995 * k + Z.of_nat (length aws_objs)) aws_objs res)
         (S3Delete_rest remote bucket) w
    = (Done (foldl remember res
                   (batch_result remote bucket
                      <$> chunks 995 (aws_objs ++ (JoinPath object <$> files)))),
       logged ((fun b => Sync (DeleteObjects bucket b))
                 <$> chunks 995 (aws_objs ++ (JoinPath object <$> files))) w).
Proof.
  induction files as [|file files IH];
    intros k aws_objs res w Hinit Hk Hlen Hzero Hfit.
  - cbn [fmap list_fmap S3Delete_loop]. rewrite app_nil_r, bind_ret_l.
    cbn [S3Delete_rest].
    destruct aws_objs as [|x aws_objs].
    + cbn. rewrite logged_nil. reflexivity.
    + rewrite chunks_small by (discriminate || exact Hlen).
      cbn [length Nat.ltb Nat.leb].
      erewrite bind_run by (apply S3SendDelete_run; exact Hinit).
      reflexivity.
  - cbn [S3Delete_loop]. rewrite bind_assoc.
    set (index := 995 * k + Z.of_nat (length aws_objs)) in *.
    cbn [length] in Hfit.
    assert (0 <= index /\ index + 1 < 2 ^ 64) as Hidx by (subst index; lia).
    destruct (negb (index =? 0) && (index mod kS3MaxDelete =? 0)) eqn:Esend.
    + (* a full batch is sent before this file is added *)
      apply andb_prop in Esend as [Ene Emod].
      apply negb_true_iff, Z.eqb_neq in Ene. apply Z.eqb_eq in Emod.
      assert (length aws_objs = 995%nat) as Hfull.
      { unfold kS3MaxDelete in Emod. subst index.
        destruct (decide (length aws_objs = 995%nat)) as [|Hne]; [assumption|].
        exfalso.
        destruct (decide (length aws_objs = 0%nat)) as [E0|E0].
        - destruct aws_objs; [|discriminate]. specialize (Hzero eq_refl). lia.
        - rewrite Z.add_comm, Z.mul_comm, Z.mod_add in Emod by lia.
          rewrite Z.mod_small in Emod by lia. lia. }
      cbn [fmap list_fmap].
      rewrite chunks_app_full by (lia || exact Hfull).
      rewrite bind_assoc.
      erewrite bind_run by (apply S3SendDelete_run; exact Hinit).
      rewrite bind_ret_l. cbn [app].
      rewrite wrap64_small by lia.
      specialize (IH (k + 1) [JoinPath object file]
                     (remember res (batch_result remote bucket aws_objs))
                     (logged [Sync (DeleteObjects bucket aws_objs)] w)).
      cbn [length app] in IH.
      replace (995 * (k + 1) + Z.of_nat 1) with (index + 1) in IH
        by (subst index; lia).
      unfold remember at 1 in IH.
      rewrite IH; clear IH.
      * rewrite logged_logged. reflexivity.
      * exact Hinit.
      * lia.
      * simpl. lia.
      * discriminate.
      * lia.
    + (* the file joins the batch being filled *)
      assert (length aws_objs < 995)%nat as Hroom.
      { destruct (decide (length aws_objs = 995%nat)) as [Hfull|]; [|lia].
        exfalso. apply andb_false_iff in Esend as [Ene|Emod].
        - apply negb_false_iff, Z.eqb_eq in Ene. subst index. lia.
        - apply Z.eqb_neq in Emod. apply Emod. subst index.
          unfold kS3MaxDelete. rewrite Hfull.
          replace (995 * k + Z.of_nat 995) with (0 + (k + 1) * 995) by lia.
          rewrite Z.mod_add by lia. reflexivity. }
      cbn [fmap list_fmap].
      rewrite bind_ret_l.
      rewrite wrap64_small by lia.
      specialize (IH k (aws_objs ++ [JoinPath object file]) res w).
      rewrite length_app in IH. cbn [length] in IH.
      replace (995 * k + Z.of_nat (length aws_objs + 1)) with (index + 1) in IH
        by (subst index; lia).
      rewrite <- app_assoc in IH. cbn [app] in IH.
      apply IH.
      * exact Hinit.
      * exact Hk.
      * lia.
      * intros E. destruct aws_objs; discriminate.
      * lia.
Qed.

Lemma remember_S3Error rs :
  Forall (fun r => r = ResultSuccess \/ r = Err S3Error) rs ->
  foldl remember (Err S3Error) rs = Err S3Error.
Proof.
  induction 1 as [|r rs [-> | ->] _ IH]; simpl; auto.
Qed.

Lemma remember_first_error rs :
  Forall (fun r => r = ResultSuccess \/ r = Err S3Error) rs ->
  foldl remember ResultSuccess rs = first_error rs.
Proof.
  induction 1 as [|r rs [-> | ->] Hrs IH]; simpl; auto.
  apply remember_S3Error. exact Hrs.
Qed.

Lemma batch_results_shape bucket batches :
  Forall (fun r => r = ResultSuccess \/ r = Err S3Error)
         (batch_result remote bucket <$> batches).
Proof.
  apply Forall_fmap, Forall_forall. intros b _. simpl.
  unfold batch_result. destruct (IsSuccess _); auto.
Qed.

(** C2.  For every non-empty collection of keys, [S3Delete] splits the
    keys, in the order it visits them, into consecutive batches of at most
    [kS3MaxDelete] keys, issues exactly one [DeleteObjects] call per batch
    whatever the earlier batches answered, and returns the first error met
    across the batches (success exactly when every batch succeeded); with
    [2 * kS3MaxDelete + 1] keys that is three calls, the last of one
    key. *)
Theorem S3Delete_batches bucket object (files : list string) (w : World) :
  files <> [] ->
  library_init w = true ->
  Z.of_nat (length files) < 2 ^ 64 ->
  let batches := chunks (Z.to_nat kS3MaxDelete) (JoinPath object <$> files) in
  let results := batch_result remote bucket <$> batches in
  S3Delete remote JoinPath bucket object files w
  = (Done (first_error results),
     logged ((fun b => Sync (DeleteObjects bucket b)) <$> batches) w)
  /\ concat batches = JoinPath object <$> files
  /\ Forall (fun b => (0 < length b <= Z.to_nat kS3MaxDelete)%nat) batches
  /\ (is_ok (first_error results) = true
      <-> Forall (fun r => is_ok r = true) results)
  /\ (length files = (2 * Z.to_nat kS3MaxDelete + 1)%nat ->
      exists b1 b2 b3,
        batches = [b1; b2; b3]
        /\ length b1 = Z.to_nat kS3MaxDelete
        /\ length b2 = Z.to_nat kS3MaxDelete
        /\ length b3 = 1%nat).
Proof.
  intros Hne Hinit Hfit batches results.
  change (Z.to_nat kS3MaxDelete) with 995%nat in *.
  subst results batches.
  split; [|split; [|split; [|split]]].
  - unfold S3Delete.
    destruct files as [|file files]; [congruence|].
    cbn [length Nat.eqb].
    pose proof (S3Delete_loop_run bucket object (file :: files) 0 []
                  ResultSuccess w Hinit ltac:(lia) ltac:(simpl; lia)
                  ltac:(reflexivity) ltac:(simpl in *; lia)) as Hrun.
    cbn [app length] in Hrun.
    change (995 * 0 + Z.of_nat 0) with 0 in Hrun.
    rewrite <- remember_first_error by apply batch_results_shape.
    rewrite <- Hrun. unfold bind, S3Delete_rest.
    destruct (S3Delete_loop remote JoinPath bucket object (file :: files)
                            0 [] ResultSuccess w) as [[[objs res]| |] w'];
      reflexivity.
  - apply chunks_concat. lia.
  - apply chunks_bounded. lia.
  - apply first_error_all_ok.
  - intros Hlen. apply chunks_two_and_one; [lia|].
    rewrite length_fmap. exact Hlen.
Qed.
End Delete.

(* ===================================================================== *)
(** ** Multipart upload *)
(* ===================================================================== *)

Section Upload.
Context (remote : Request -> Response).

Lemma upload_requests_length bucket object upload_id parts :
  forall i, length (upload_requests bucket object upload_id i parts)
            = length parts.
Proof. induction parts as [|p ps IH]; intros i; simpl; [|rewrite IH]; reflexivity. Qed.

Lemma upload_requests_lookup bucket object upload_id parts :
  forall (i j : nat) part,
    parts !! j = Some part ->
    upload_requests bucket object upload_id i parts !! j
    = Some (UploadPart bucket object upload_id (Z.of_nat (i + j) + 1)
                       (BufPart.dest part)
                       (wrap64 (BufPart.end_ part - BufPart.start part))).
Proof.
  induction parts as [|p ps IH]; intros i j part Hj; [discriminate|].
  destruct j as [|j]; cbn [upload_requests].
  - injection Hj as ->. rewrite Nat.add_0_r. reflexivity.
  - etransitivity; [apply (IH (S i) j part Hj)|].
    replace (S i + j)%nat with (i + S j)%nat by lia. reflexivity.
Qed.

Lemma upload_parts_run bucket object upload_id parts :
  forall i w,
    upload_parts remote bucket object upload_id i parts w
    = (Done (remote <$> upload_requests bucket object upload_id i parts),
       logged (Async <$> upload_requests bucket object upload_id i parts) w).
Proof.
  induction parts as [|p ps IH]; intros i w.
  - simpl. unfold ret. rewrite logged_nil. reflexivity.
  - cbn [upload_parts upload_requests fmap list_fmap].
    erewrite bind_run by reflexivity.
    erewrite bind_run by apply IH.
    unfold ret. cbn [request_of deliver].
    f_equal. unfold logged. simpl. rewrite <- app_assoc. reflexivity.
Qed.

(** The handlers of [S3UploadOverwrite], run in any order that visits
    only dispatched parts: every visited part has its tag recorded at its
    own index, the others keep what they had. *)
Lemma upload_callbacks_run (outcomes : list Response) :
  Forall (fun o => IsSuccess o = true) outcomes ->
  forall (order : list nat) (tags : list string) (finished : Z),
    Forall (fun i => (i < length outcomes)%nat) order ->
    length tags = length outcomes ->
    0 <= finished -> finished + Z.of_nat (length order) < 2 ^ 64 ->
    exists tags',
      run_foldl (upload_callback outcomes) (tags, finished) order
      = Done (tags', finished + Z.of_nat (length order))
      /\ length tags' = length outcomes
      /\ forall i : nat,
          tags' !! i = if decide (i ∈ order)
                       then GetETag <$> outcomes !! i
                       else tags !! i.
Proof.
  intros Hok. induction order as [|i order IH];
    intros tags finished Hord Htags Hfin Hfit.
  - exists tags. cbn [run_foldl length]. rewrite Z.add_0_r.
    split; [reflexivity|]. split; [assumption|].
    intros i. rewrite decide_False; [reflexivity|].
    intros Hin. inversion Hin.
  - apply Forall_cons in Hord as [Hi Hord'].
    destruct (lookup_lt_is_Some_2 outcomes i Hi) as [o Ho].
    pose proof (proj1 (Forall_lookup _ _) Hok i o Ho) as Hs. simpl in Hs.
    cbn [run_foldl length] in *. unfold upload_callback at 1.
    rewrite Ho, Hs. cbn [run_bind fst snd].
    rewrite wrap64_small by lia.
    destruct (IH (<[i := GetETag o]> tags) (finished + 1) Hord'
                 ltac:(rewrite length_insert; exact Htags) ltac:(lia) ltac:(lia))
      as (tags' & Hrun & Hlen & Hlook).
    exists tags'. split; [|split; [exact Hlen|]].
    + rewrite Hrun. do 2 f_equal. lia.
    + intros j. rewrite Hlook.
      destruct (decide (j ∈ order)) as [Hj|Hj].
      * rewrite decide_True by (right; exact Hj). reflexivity.
      * destruct (decide (j = i)) as [->|Hne].
        -- rewrite decide_True by left.
           rewrite list_lookup_insert_eq by lia. rewrite Ho. reflexivity.
        -- rewrite decide_False by (intros Hin; inversion Hin; subst; tauto).
           apply list_lookup_insert_ne. congruence.
Qed.

Lemma tags_of_permutation (outcomes : list Response) order tags tags' :
  order ≡ₚ seq 0 (length outcomes) ->
  length tags = length outcomes ->
  length tags' = length outcomes ->
  (forall i : nat,
      tags' !! i = if decide (i ∈ order)
                   then GetETag <$> outcomes !! i
                   else tags !! i) ->
  tags' = GetETag <$> outcomes.
Proof.
  intros Hperm Htags Htags' Hlook. apply list_eq. intros i.
  rewrite Hlook, list_lookup_fmap.
  destruct (decide (i ∈ order)) as [Hin|Hout]; [reflexivity|].
  assert (length outcomes <= i)%nat as Hge.
  { destruct (Nat.le_gt_cases (length outcomes) i) as [|Hlt]; [assumption|].
    exfalso. apply Hout. rewrite Hperm. apply elem_of_seq. lia. }
  rewrite (lookup_ge_None_2 tags) by lia.
  rewrite (lookup_ge_None_2 outcomes) by lia. reflexivity.
Qed.

Lemma permutation_in_range (n : nat) order :
  order ≡ₚ seq 0 n -> Forall (fun i => (i < n)%nat) order /\ length order = n.
Proof.
  intros Hperm. split.
  - apply Forall_forall. intros i Hi. rewrite Hperm in Hi.
    apply elem_of_seq in Hi. lia.
  - rewrite Hperm. apply length_seq.
Qed.

Lemma upload_callbacks_all (outcomes : list Response) order :
  Forall (fun o => IsSuccess o = true) outcomes ->
  order ≡ₚ seq 0 (length outcomes) ->
  Z.of_nat (length outcomes) < 2 ^ 64 ->
  run_foldl (upload_callback outcomes)
            (replicate (length outcomes) EmptyString, 0) order
  = Done (GetETag <$> outcomes, Z.of_nat (length outcomes)).
Proof.
  intros Hok Hperm Hfit.
  destruct (permutation_in_range _ _ Hperm) as [Hrange Hlen].
  destruct (upload_callbacks_run outcomes Hok order
              (replicate (length outcomes) EmptyString) 0 Hrange
              ltac:(apply length_replicate) ltac:(lia) ltac:(lia))
    as (tags' & Hrun & Hlen' & Hlook).
  rewrite Hrun, Hlen. simpl. do 2 f_equal.
  apply (tags_of_permutation outcomes order
           (replicate (length outcomes) EmptyString) tags' Hperm
           ltac:(apply length_replicate) Hlen' Hlook).
Qed.

Lemma rejected_in_order (outcomes : list Response) order :
  order ≡ₚ seq 0 (length outcomes) ->
  Exists (fun o => IsSuccess o = false) outcomes ->
  Exists (rejected outcomes) order.
Proof.
  intros Hperm Hex. apply Exists_exists in Hex as (o & Hin & Hfail).
  apply list_elem_of_lookup in Hin as [i Hi].
  apply Exists_exists. exists i. split.
  - rewrite Hperm. apply elem_of_seq.
    apply lookup_lt_Some in Hi. lia.
  - exists o. auto.
Qed.

Lemma upload_callbacks_abort (outcomes : list Response) :
  forall (order : list nat) (st : list string * Z),
    Exists (rejected outcomes) order ->
    run_foldl (upload_callback outcomes) st order = Aborted.
Proof.
  induction order as [|i order IH]; intros st Hex.
  - inversion Hex.
  - cbn [run_foldl]. unfold upload_callback at 1.
    destruct (outcomes !! i) as [o|] eqn:Ho.
    + destruct (IsSuccess o) eqn:Hs; [|reflexivity].
      cbn [run_bind]. apply IH.
      apply Exists_cons in Hex as [(o' & Ho' & Hfail)|Hex]; [|exact Hex].
      congruence.
    + cbn [run_bind]. apply IH.
      apply Exists_cons in Hex as [(o' & Ho' & Hfail)|Hex]; [|exact Hex].
      congruence.
Qed.

Lemma part_callbacks_abort (outcomes : list Response) :
  forall (order : list nat) (pmh : PutMultiImpl.t),
    Exists (rejected outcomes) order ->
    run_foldl (part_callback outcomes) pmh order = Aborted.
Proof.
  induction order as [|i order IH]; intros pmh Hex.
  - inversion Hex.
  - cbn [run_foldl]. unfold part_callback at 1.
    destruct (outcomes !! i) as [o|] eqn:Ho.
    + destruct (IsSuccess o) eqn:Hs; [|reflexivity].
      unfold CountingSemaphore.GoalMinusOne.
      destruct (CountingSemaphore.remaining (PutMultiImpl.sema pmh) >? 0);
        [|reflexivity].
      cbn [run_bind]. apply IH.
      apply Exists_cons in Hex as [(o' & Ho' & Hfail)|Hex]; [|exact Hex].
      congruence.
    + cbn [run_bind]. apply IH.
      apply Exists_cons in Hex as [(o' & Ho' & Hfail)|Hex]; [|exact Hex].
      congruence.
Qed.
End Upload.

Section Session.
Import SegmentedBufferView.
Context (remote : Request -> Response).
Context (arrival : nat -> list nat).

Lemma GetS3Client_run w :
  library_init w = true -> GetS3Client w = (Done tt, w).
Proof. intros H. unfold GetS3Client. rewrite H. reflexivity. Qed.

Lemma async_s3_client_run w :
  library_init w = true -> async_s3_client w = (Done tt, w).
Proof. intros H. unfold async_s3_client. rewrite H. reflexivity. Qed.

Lemma assert_init_run w :
  library_init w = true ->
  (fun w => GALOIS_LOG_ASSERT (library_init w) w) w = (Done tt, w).
Proof. intros H. cbv beta. rewrite H. reflexivity. Qed.

Lemma send_plain c w :
  deliver (request_of c) (remote (request_of c)) (memory w) = memory w ->
  send remote c w = (Done (remote (request_of c)), logged [c] w).
Proof. intros H. unfold send, logged. rewrite H. reflexivity. Qed.

Lemma SegmentBuf_parts_nonempty data size v :
  0 < size < 2 ^ 64 ->
  SegmentBuf 0 data size = Done v ->
  SegmentedBufferView.parts v <> []
  /\ Z.of_nat (length (SegmentedBufferView.parts v)) < 2 ^ 64.
Proof.
  intros Hsize Hv.
  destruct (SegmentBuf_view _ _ _ _ Hv) as (E1 & E2 & E3 & Hmin).
  pose proof kS3MinBufSize_pos as Hpos.
  pose proof (parts_chain v ltac:(lia) ltac:(lia) ltac:(lia) ltac:(lia)) as Hc.
  split.
  - intros E. rewrite E in Hc. inversion Hc. lia.
  - rewrite parts_length.
    pose proof (NumSegments_bounds v ltac:(lia) ltac:(lia)) as (Hlb & _ & Hn).
    replace (size_ v =? 0) with false in Hlb by (symmetry; apply Z.eqb_neq; lia).
    simpl in Hlb. rewrite Z2Nat.id by exact Hn. nia.
Qed.

(** [S3UploadOverwrite] on a payload at or above the threshold, when the
    store accepts every request and every handler runs once. *)
Lemma S3UploadOverwrite_session_run bucket object data size v w :
  library_init w = true ->
  kS3DefaultBufSize <= size < 2 ^ 64 ->
  SegmentBuf 0 data size = Done v ->
  let ps := SegmentedBufferView.parts v in
  let create := CreateMultipartUpload bucket object in
  let upload_id := GetUploadId (remote create) in
  let uploads := upload_requests bucket object upload_id 0 ps in
  let complete :=
    CompleteMultipartUpload bucket object upload_id
      (completed_parts (GetETag <$> (remote <$> uploads))) in
  IsSuccess (remote create) = true ->
  Forall (fun r => IsSuccess (remote r) = true) uploads ->
  arrival (length ps) ≡ₚ seq 0 (length ps) ->
  S3UploadOverwrite remote arrival bucket object data size w
  = (Done (if IsSuccess (remote complete) then ResultSuccess else Err S3Error),
     logged (Sync create :: (Async <$> uploads) ++ [Sync complete]) w).
Proof.
  intros Hinit Hsize Hv ps create upload_id uploads complete Hcreate Hups Hperm.
  assert (0 < kS3DefaultBufSize) as Hthr by reflexivity.
  destruct (SegmentBuf_parts_nonempty data size v ltac:(lia) Hv) as [Hne Hfit].
  fold ps in Hne, Hfit.
  unfold S3UploadOverwrite.
  replace (size <? kS3DefaultBufSize) with false
    by (symmetry; apply Z.ltb_ge; lia).
  erewrite bind_run by (apply GetS3Client_run; exact Hinit).
  erewrite bind_run by (apply send_plain; reflexivity).
  cbn [request_of]. fold create upload_id.
  unfold CheckS3Error. rewrite Hcreate. cbn [ResultSuccess].
  rewrite Hv. erewrite bind_run by reflexivity.
  fold ps. rewrite bool_decide_eq_false_2 by exact Hne.
  cbn [negb GALOIS_LOG_ASSERT]. rewrite bind_ret_l.
  erewrite bind_run by apply upload_parts_run.
  fold uploads.
  assert (length (remote <$> uploads) = length ps) as Hlen
      by (rewrite length_fmap; apply upload_requests_length).
  rewrite <- Hlen in Hperm, Hfit |- *.
  assert (Forall (fun o => IsSuccess o = true) (remote <$> uploads)) as Hok
      by (apply Forall_fmap; exact Hups).
  rewrite (upload_callbacks_all (remote <$> uploads) _ Hok Hperm Hfit).
  erewrite bind_run by reflexivity. cbv beta iota.
  rewrite Z.ltb_irrefl.
  erewrite bind_run by (apply send_plain; reflexivity).
  cbn [request_of]. fold complete.
  rewrite !logged_logged. cbn [app].
  destruct (IsSuccess (remote complete)); reflexivity.
Qed.

(** The handlers of [S3PutMultiAsync2], run in any order that visits only
    dispatched parts while the semaphore still expects that many. *)
Lemma part_callbacks_run (outcomes : list Response) :
  Forall (fun o => IsSuccess o = true) outcomes ->
  forall (order : list nat) (pmh : PutMultiImpl.t),
    Forall (fun i => (i < length outcomes)%nat) order ->
    length (PutMultiImpl.part_e_tags_ pmh) = length outcomes ->
    CountingSemaphore.remaining (PutMultiImpl.sema pmh)
    = Z.of_nat (length order) ->
    exists tags',
      run_foldl (part_callback outcomes) pmh order
      = Done (PutMultiImpl.mk (PutMultiImpl.parts_ pmh)
                (PutMultiImpl.create_fut_ pmh)
                (PutMultiImpl.outcome_fut_ pmh) tags'
                (CountingSemaphore.mk
                   (CountingSemaphore.goal (PutMultiImpl.sema pmh)) 0)
                (PutMultiImpl.upload_id_ pmh))
      /\ length tags' = length outcomes
      /\ forall i : nat,
          tags' !! i = if decide (i ∈ order)
                       then GetETag <$> outcomes !! i
                       else PutMultiImpl.part_e_tags_ pmh !! i.
Proof.
  intros Hok. induction order as [|i order IH]; intros pmh Hord Htags Hrem.
  - exists (PutMultiImpl.part_e_tags_ pmh). cbn [run_foldl].
    split; [|split; [assumption|]].
    + destruct pmh as [ps cf oc tags [g r] uid]. cbn in Hrem |- *.
      subst r. reflexivity.
    + intros i. rewrite decide_False; [reflexivity|].
      intros Hin. inversion Hin.
  - apply Forall_cons in Hord as [Hi Hord'].
    destruct (lookup_lt_is_Some_2 outcomes i Hi) as [o Ho].
    pose proof (proj1 (Forall_lookup _ _) Hok i o Ho) as Hs. simpl in Hs.
    cbn [run_foldl]. unfold part_callback at 1. rewrite Ho, Hs.
    unfold CountingSemaphore.GoalMinusOne.
    cbn [length] in Hrem.
    replace (CountingSemaphore.remaining (PutMultiImpl.sema pmh) >? 0)
      with true by (symmetry; apply Z.gtb_lt; lia).
    cbn [run_bind].
    edestruct (IH (PutMultiImpl.mk (PutMultiImpl.parts_ pmh)
                     (PutMultiImpl.create_fut_ pmh)
                     (PutMultiImpl.outcome_fut_ pmh)
                     (<[i := GetETag o]> (PutMultiImpl.part_e_tags_ pmh))
                     (CountingSemaphore.mk
                        (CountingSemaphore.goal (PutMultiImpl.sema pmh))
                        (CountingSemaphore.remaining (PutMultiImpl.sema pmh) - 1))
                     (PutMultiImpl.upload_id_ pmh)) Hord')
      as (tags' & Hrun & Hlen & Hlook).
    { cbn. rewrite length_insert. exact Htags. }
    { cbn. lia. }
    exists tags'. split; [exact Hrun|]. split; [exact Hlen|].
    intros j. rewrite Hlook. cbn [PutMultiImpl.part_e_tags_].
    destruct (decide (j ∈ order)) as [Hj|Hj].
    + rewrite decide_True by (right; exact Hj). reflexivity.
    + destruct (decide (j = i)) as [->|Hne].
      * rewrite decide_True by left.
        rewrite list_lookup_insert_eq by lia. rewrite Ho. reflexivity.
      * rewrite decide_False by (intros Hin; inversion Hin; subst; tauto).
        apply list_lookup_insert_ne. congruence.
Qed.

Lemma S3PutMultiAsync1_run bucket object data size v w :
  library_init w = true ->
  0 < size ->
  SegmentBuf 0 data size = Done v ->
  S3PutMultiAsync1 remote bucket object data size w
  = (Done (PutMultiImpl.mk (parts v)
             (Some (remote (CreateMultipartUpload bucket object))) None
             (replicate (Z.to_nat (NumSegments v)) EmptyString)
             (CountingSemaphore.mk (Z.of_nat (length (parts v)))
                                   (Z.of_nat (length (parts v))))
             EmptyString),
     logged [Callable (CreateMultipartUpload bucket object)] w).
Proof.
  intros Hinit Hsize Hv. unfold S3PutMultiAsync1.
  erewrite bind_run by (apply assert_init_run; exact Hinit).
  replace (size >? 0) with true by (symmetry; apply Z.gtb_lt; lia).
  cbn [GALOIS_LOG_ASSERT]. rewrite bind_ret_l.
  rewrite Hv. erewrite bind_run by reflexivity.
  erewrite bind_run by reflexivity.
  erewrite bind_run by (apply send_plain; reflexivity).
  reflexivity.
Qed.

Lemma S3PutMultiAsync2_run bucket object pmh createMpResponse w :
  library_init w = true ->
  PutMultiImpl.create_fut_ pmh = Some createMpResponse ->
  IsSuccess createMpResponse = true ->
  let upload_id := GetUploadId createMpResponse in
  let uploads :=
    upload_requests bucket object upload_id 0 (PutMultiImpl.parts_ pmh) in
  S3PutMultiAsync2 remote bucket object pmh w
  = (Done (ResultSuccess,
           PutMultiImpl.mk (PutMultiImpl.parts_ pmh) None
             (PutMultiImpl.outcome_fut_ pmh) (PutMultiImpl.part_e_tags_ pmh)
             (PutMultiImpl.sema pmh) upload_id,
           remote <$> uploads),
     logged (Async <$> uploads) w).
Proof.
  intros Hinit Hfut Hok upload_id uploads. unfold S3PutMultiAsync2.
  rewrite Hfut, Hok. cbn [negb PutMultiImpl.create_fut_ PutMultiImpl.parts_
    PutMultiImpl.outcome_fut_ PutMultiImpl.part_e_tags_ PutMultiImpl.sema
    PutMultiImpl.upload_id_].
  erewrite bind_run by (apply async_s3_client_run; exact Hinit).
  erewrite bind_run by apply upload_parts_run.
  reflexivity.
Qed.

Lemma S3PutMultiAsync3_run bucket object pmh w :
  library_init w = true ->
  CountingSemaphore.remaining (PutMultiImpl.sema pmh) = 0 ->
  let complete :=
    CompleteMultipartUpload bucket object (PutMultiImpl.upload_id_ pmh)
      (completed_parts (PutMultiImpl.part_e_tags_ pmh)) in
  S3PutMultiAsync3 remote bucket object pmh w
  = (Done (ResultSuccess,
           PutMultiImpl.mk (PutMultiImpl.parts_ pmh)
             (PutMultiImpl.create_fut_ pmh) (Some (remote complete))
             (PutMultiImpl.part_e_tags_ pmh) (PutMultiImpl.sema pmh)
             (PutMultiImpl.upload_id_ pmh)),
     logged [Callable complete] w).
Proof.
  intros Hinit Hrem complete. unfold S3PutMultiAsync3.
  unfold CountingSemaphore.WaitGoal. rewrite Hrem. cbn [Z.eqb].
  erewrite bind_run by reflexivity.
  erewrite bind_run by (apply async_s3_client_run; exact Hinit).
  erewrite bind_run by (apply send_plain; reflexivity).
  reflexivity.
Qed.

(** The future [S3PutAsync] returns for a payload at or above the
    threshold, when the store accepts every request and every handler
    runs once. *)
Lemma put_multi_future_run bucket object data size v w :
  library_init w = true ->
  kS3DefaultBufSize <= size < 2 ^ 64 ->
  SegmentBuf 0 data size = Done v ->
  let ps := SegmentedBufferView.parts v in
  let create := CreateMultipartUpload bucket object in
  let upload_id := GetUploadId (remote create) in
  let uploads := upload_requests bucket object upload_id 0 ps in
  let complete :=
    CompleteMultipartUpload bucket object upload_id
      (completed_parts (GetETag <$> (remote <$> uploads))) in
  IsSuccess (remote create) = true ->
  Forall (fun r => IsSuccess (remote r) = true) uploads ->
  arrival (length ps) ≡ₚ seq 0 (length ps) ->
  put_multi_future remote arrival bucket object data size w
  = (Done (if IsSuccess (remote complete) then ResultSuccess else Err S3Error),
     logged (Callable create :: (Async <$> uploads) ++ [Callable complete]) w).
Proof.
  intros Hinit Hsize Hv ps create upload_id uploads complete Hcreate Hups Hperm.
  assert (0 < kS3DefaultBufSize) as Hthr by reflexivity.
  destruct (SegmentBuf_parts_nonempty data size v ltac:(lia) Hv) as [Hne Hfit].
  fold ps in Hne, Hfit.
  assert (length (remote <$> uploads) = length ps) as Hlen
      by (rewrite length_fmap; apply upload_requests_length).
  assert (Forall (fun o => IsSuccess o = true) (remote <$> uploads)) as Hok
      by (apply Forall_fmap; exact Hups).
  unfold put_multi_future.
  erewrite bind_run
    by (apply (S3PutMultiAsync1_run bucket object data size v w Hinit
                 ltac:(lia) Hv)).
  erewrite bind_run
    by (apply S3PutMultiAsync2_run; [exact Hinit|reflexivity|exact Hcreate]).
  cbv beta iota. cbn [ResultSuccess PutMultiImpl.create_fut_
    PutMultiImpl.parts_ PutMultiImpl.outcome_fut_ PutMultiImpl.part_e_tags_
    PutMultiImpl.sema PutMultiImpl.upload_id_].
  fold ps create upload_id uploads.
  (* the handlers *)
  rewrite Hlen.
  destruct (permutation_in_range _ _ Hperm) as [Hrange Hlenord].
  edestruct (part_callbacks_run (remote <$> uploads) Hok
               (arrival (length ps))
               (PutMultiImpl.mk ps None None
                  (replicate (Z.to_nat (NumSegments v)) EmptyString)
                  (CountingSemaphore.mk (Z.of_nat (length ps))
                                        (Z.of_nat (length ps)))
                  upload_id))
    as (tags' & Hrun & Hlen' & Hlook).
  { rewrite Hlen. exact Hrange. }
  { cbn. rewrite length_replicate, Hlen. symmetry. apply parts_length. }
  { cbn. rewrite Hlenord. reflexivity. }
  assert (tags' = GetETag <$> (remote <$> uploads)) as ->.
  { apply (tags_of_permutation (remote <$> uploads) (arrival (length ps))
             (replicate (Z.to_nat (NumSegments v)) EmptyString) tags').
    - rewrite Hlen. exact Hperm.
    - rewrite length_replicate, Hlen. symmetry. apply parts_length.
    - exact Hlen'.
    - exact Hlook. }
  rewrite Hrun. clear Hrun Hlook.
  cbn [PutMultiImpl.create_fut_ PutMultiImpl.parts_
    PutMultiImpl.outcome_fut_ PutMultiImpl.part_e_tags_ PutMultiImpl.sema
    PutMultiImpl.upload_id_ CountingSemaphore.goal].
  erewrite bind_run by reflexivity.
  erewrite bind_run by (apply S3PutMultiAsync3_run; [exact Hinit|reflexivity]).
  cbv beta iota. cbn [ResultSuccess PutMultiImpl.create_fut_
    PutMultiImpl.parts_ PutMultiImpl.outcome_fut_ PutMultiImpl.part_e_tags_
    PutMultiImpl.sema PutMultiImpl.upload_id_].
  fold complete.
  unfold S3PutMultiAsyncFinish. cbn [PutMultiImpl.outcome_fut_].
  rewrite !logged_logged. cbn [app].
  destruct (IsSuccess (remote complete)); reflexivity.
Qed.

Lemma S3UploadOverwrite_create_fails bucket object data size w :
  library_init w = true ->
  kS3DefaultBufSize <= size ->
  let create := CreateMultipartUpload bucket object in
  IsSuccess (remote create) = false ->
  S3UploadOverwrite remote arrival bucket object data size w
  = (Done (if GetResponseCode (remote create) =? MOVED_PERMANENTLY
           then Err AWSWrongRegion else Err S3Error),
     logged [Sync create] w).
Proof.
  intros Hinit Hsize create Hfail. unfold S3UploadOverwrite.
  replace (size <? kS3DefaultBufSize) with false
    by (symmetry; apply Z.ltb_ge; lia).
  erewrite bind_run by (apply GetS3Client_run; exact Hinit).
  erewrite bind_run by (apply send_plain; reflexivity).
  cbn [request_of]. fold create.
  unfold CheckS3Error. rewrite Hfail.
  destruct (GetResponseCode (remote create) =? MOVED_PERMANENTLY);
    reflexivity.
Qed.

Lemma S3UploadOverwrite_part_fails bucket object data size v w :
  library_init w = true ->
  kS3DefaultBufSize <= size < 2 ^ 64 ->
  SegmentBuf 0 data size = Done v ->
  let ps := SegmentedBufferView.parts v in
  let create := CreateMultipartUpload bucket object in
  let upload_id := GetUploadId (remote create) in
  let uploads := upload_requests bucket object upload_id 0 ps in
  IsSuccess (remote create) = true ->
  Exists (fun r => IsSuccess (remote r) = false) uploads ->
  arrival (length ps) ≡ₚ seq 0 (length ps) ->
  S3UploadOverwrite remote arrival bucket object data size w
  = (Aborted, logged (Sync create :: (Async <$> uploads)) w).
Proof.
  intros Hinit Hsize Hv ps create upload_id uploads Hcreate Hbad Hperm.
  assert (0 < kS3DefaultBufSize) as Hthr by reflexivity.
  destruct (SegmentBuf_parts_nonempty data size v ltac:(lia) Hv) as [Hne Hfit].
  fold ps in Hne, Hfit.
  unfold S3UploadOverwrite.
  replace (size <? kS3DefaultBufSize) with false
    by (symmetry; apply Z.ltb_ge; lia).
  erewrite bind_run by (apply GetS3Client_run; exact Hinit).
  erewrite bind_run by (apply send_plain; reflexivity).
  cbn [request_of]. fold create upload_id.
  unfold CheckS3Error. rewrite Hcreate. cbn [ResultSuccess].
  rewrite Hv. erewrite bind_run by reflexivity.
  fold ps. rewrite bool_decide_eq_false_2 by exact Hne.
  cbn [negb GALOIS_LOG_ASSERT]. rewrite bind_ret_l.
  erewrite bind_run by apply upload_parts_run.
  fold uploads.
  assert (length (remote <$> uploads) = length ps) as Hlen
      by (rewrite length_fmap; apply upload_requests_length).
  rewrite <- Hlen in Hperm.
  rewrite upload_callbacks_abort.
  - rewrite logged_logged. reflexivity.
  - rewrite <- Hlen. apply rejected_in_order; [exact Hperm|].
    apply Exists_fmap. exact Hbad.
Qed.

Lemma put_multi_future_create_fails bucket object data size v w :
  library_init w = true ->
  0 < size ->
  SegmentBuf 0 data size = Done v ->
  let create := CreateMultipartUpload bucket object in
  IsSuccess (remote create) = false ->
  put_multi_future remote arrival bucket object data size w
  = (Done (Err S3Error), logged [Callable create] w).
Proof.
  intros Hinit Hsize Hv create Hfail. unfold put_multi_future.
  erewrite bind_run
    by (apply (S3PutMultiAsync1_run bucket object data size v w Hinit
                 Hsize Hv)).
  unfold S3PutMultiAsync2. cbn [PutMultiImpl.create_fut_]. fold create.
  rewrite Hfail. reflexivity.
Qed.

Lemma put_multi_future_part_fails bucket object data size v w :
  library_init w = true ->
  0 < size ->
  SegmentBuf 0 data size = Done v ->
  let ps := SegmentedBufferView.parts v in
  let create := CreateMultipartUpload bucket object in
  let upload_id := GetUploadId (remote create) in
  let uploads := upload_requests bucket object upload_id 0 ps in
  IsSuccess (remote create) = true ->
  Exists (fun r => IsSuccess (remote r) = false) uploads ->
  arrival (length ps) ≡ₚ seq 0 (length ps) ->
  put_multi_future remote arrival bucket object data size w
  = (Aborted, logged (Callable create :: (Async <$> uploads)) w).
Proof.
  intros Hinit Hsize Hv ps create upload_id uploads Hcreate Hbad Hperm.
  assert (length (remote <$> uploads) = length ps) as Hlen
      by (rewrite length_fmap; apply upload_requests_length).
  unfold put_multi_future.
  erewrite bind_run
    by (apply (S3PutMultiAsync1_run bucket object data size v w Hinit
                 Hsize Hv)).
  erewrite bind_run
    by (apply S3PutMultiAsync2_run; [exact Hinit|reflexivity|exact Hcreate]).
  cbv beta iota. cbn [ResultSuccess PutMultiImpl.create_fut_
    PutMultiImpl.parts_ PutMultiImpl.outcome_fut_ PutMultiImpl.part_e_tags_
    PutMultiImpl.sema PutMultiImpl.upload_id_].
  fold ps create upload_id uploads.
  rewrite <- Hlen in Hperm.
  rewrite part_callbacks_abort.
  - rewrite logged_logged. reflexivity.
  - apply rejected_in_order; [exact Hperm|].
    apply Exists_fmap. exact Hbad.
Qed.
End Session.

Section PutRouting.
Import SegmentedBufferView.
Context (remote : Request -> Response).
Context (arrival : nat -> list nat).

Lemma completed_parts_lookup tags (i : nat) :
  completed_parts tags !! i = (fun tag => (Z.of_nat i + 1, tag)) <$> tags !! i.
Proof.
  unfold completed_parts.
  apply (list_lookup_imap (fun (i : nat) tag => (Z.of_nat i + 1, tag))).
Qed.

Lemma completed_parts_length tags :
  length (completed_parts tags) = length tags.
Proof. unfold completed_parts. apply length_imap. Qed.

(** C4.  For every multipart upload of [n] parts, and whatever the order
    in which the part completions arrive (any permutation of the [n]
    dispatched parts): when the store accepts the session and its parts,
    the [CompleteMultipartUpload] request that [S3UploadOverwrite] and the
    asynchronous session ([S3PutMultiAsync1] to [S3PutMultiAsync3]) send
    carries exactly [n] entries, entry [i] with part number [i + 1] and
    the ETag the store returned for the [UploadPart] request numbered
    [i + 1]; and no completion request is sent otherwise: when the store
    refuses the session the call returns the error after the create
    request, when it rejects a part the handler of that part ends the
    process after the parts were dispatched. *)
Theorem completion_manifest_in_part_order bucket object data size v w :
  library_init w = true ->
  kS3DefaultBufSize <= size < 2 ^ 64 ->
  SegmentBuf 0 data size = Done v ->
  let ps := parts v in
  let n := length ps in
  let create := CreateMultipartUpload bucket object in
  let upload_id := GetUploadId (remote create) in
  let uploads := upload_requests bucket object upload_id 0 ps in
  let manifest := completed_parts (GetETag <$> (remote <$> uploads)) in
  let complete := CompleteMultipartUpload bucket object upload_id manifest in
  arrival n ≡ₚ seq 0 n ->
  (IsSuccess (remote create) = true ->
   Forall (fun r => IsSuccess (remote r) = true) uploads ->
   S3UploadOverwrite remote arrival bucket object data size w
   = (Done (if IsSuccess (remote complete) then ResultSuccess
            else Err S3Error),
      logged (Sync create :: (Async <$> uploads) ++ [Sync complete]) w)
   /\ put_multi_future remote arrival bucket object data size w
      = (Done (if IsSuccess (remote complete) then ResultSuccess
               else Err S3Error),
         logged (Callable create :: (Async <$> uploads)
                   ++ [Callable complete]) w))
  /\ length manifest = n
  /\ length uploads = n
  /\ (forall i : nat,
         (i < n)%nat ->
         exists part,
           ps !! i = Some part
           /\ uploads !! i
              = Some (UploadPart bucket object upload_id (Z.of_nat i + 1)
                        (BufPart.dest part)
                        (wrap64 (BufPart.end_ part - BufPart.start part)))
           /\ manifest !! i
              = Some (Z.of_nat i + 1,
                      GetETag
                        (remote
                           (UploadPart bucket object upload_id
                              (Z.of_nat i + 1) (BufPart.dest part)
                              (wrap64 (BufPart.end_ part
                                       - BufPart.start part))))))
  /\ (IsSuccess (remote create) = false ->
      S3UploadOverwrite remote arrival bucket object data size w
      = (Done (if GetResponseCode (remote create) =? MOVED_PERMANENTLY
               then Err AWSWrongRegion else Err S3Error),
         logged [Sync create] w)
      /\ put_multi_future remote arrival bucket object data size w
         = (Done (Err S3Error), logged [Callable create] w))
  /\ (IsSuccess (remote create) = true ->
      Exists (fun r => IsSuccess (remote r) = false) uploads ->
      S3UploadOverwrite remote arrival bucket object data size w
      = (Aborted, logged (Sync create :: (Async <$> uploads)) w)
      /\ put_multi_future remote arrival bucket object data size w
         = (Aborted, logged (Callable create :: (Async <$> uploads)) w)).
Proof.
  intros Hinit Hsize Hv ps n create upload_id uploads manifest complete Hperm.
  assert (0 < kS3DefaultBufSize) as Hthr by reflexivity.
  split; [|split; [|split; [|split; [|split]]]].
  - intros Hcreate Hups. split.
    + apply (S3UploadOverwrite_session_run remote arrival bucket object data
               size v w Hinit Hsize Hv Hcreate Hups Hperm).
    + apply (put_multi_future_run remote arrival bucket object data
               size v w Hinit Hsize Hv Hcreate Hups Hperm).
  - subst manifest. rewrite completed_parts_length, !length_fmap.
    apply upload_requests_length.
  - apply upload_requests_length.
  - intros i Hi.
    destruct (lookup_lt_is_Some_2 ps i Hi) as [part Hpart].
    exists part. split; [exact Hpart|].
    pose proof (upload_requests_lookup bucket object upload_id ps 0 i part
                  Hpart) as Hreq.
    rewrite Nat.add_0_l in Hreq. fold uploads in Hreq.
    split; [exact Hreq|].
    subst manifest.
    rewrite completed_parts_lookup, !list_lookup_fmap, Hreq. reflexivity.
  - intros Hfail. split.
    + apply (S3UploadOverwrite_create_fails remote arrival bucket object
               data size w Hinit ltac:(lia) Hfail).
    + apply (put_multi_future_create_fails remote arrival bucket object
               data size v w Hinit ltac:(lia) Hv Hfail).
  - intros Hcreate Hbad. split.
    + apply (S3UploadOverwrite_part_fails remote arrival bucket object
               data size v w Hinit Hsize Hv Hcreate Hbad Hperm).
    + apply (put_multi_future_part_fails remote arrival bucket object
               data size v w Hinit ltac:(lia) Hv Hcreate Hbad Hperm).
Qed.

Lemma S3PutSingleSync_run bucket object data size w :
  library_init w = true ->
  S3PutSingleSync remote bucket object data size w
  = (Done (if IsSuccess (remote (PutObject bucket object data size))
           then ResultSuccess else Err S3Error),
     logged [Sync (PutObject bucket object data size)] w).
Proof.
  intros Hinit. unfold S3PutSingleSync.
  erewrite bind_run by (apply GetS3Client_run; exact Hinit).
  erewrite bind_run by (apply send_plain; reflexivity).
  cbn [request_of].
  destruct (IsSuccess (remote (PutObject bucket object data size)));
    reflexivity.
Qed.

Lemma put_single_future_run bucket object data size w :
  library_init w = true ->
  put_single_future remote bucket object data size w
  = (if IsSuccess (remote (PutObject bucket object data size))
     then Done ResultSuccess else Aborted,
     logged [Async (PutObject bucket object data size)] w).
Proof.
  intros Hinit. unfold put_single_future, S3PutSingleAsync.
  rewrite !bind_assoc.
  erewrite bind_run by (apply assert_init_run; exact Hinit).
  rewrite bind_assoc. erewrite bind_run by reflexivity.
  rewrite bind_assoc.
  erewrite bind_run by (apply send_plain; reflexivity).
  cbn [request_of]. rewrite bind_ret_l. cbv beta iota. cbn [ResultSuccess].
  unfold sema_callback.
  destruct (IsSuccess (remote (PutObject bucket object data size)));
    reflexivity.
Qed.

Lemma issues_ret {A} P (a : A) : issues P (ret a).
Proof. intros w. exists []. simpl. rewrite app_nil_r. auto. Qed.

Lemma issues_lift {A} P (r : Run A) : issues P (lift r).
Proof. intros w. exists []. simpl. rewrite app_nil_r. auto. Qed.

Lemma issues_abort {A} P : issues P (@abort A).
Proof. intros w. exists []. simpl. rewrite app_nil_r. auto. Qed.

Lemma issues_block {A} P : issues P (@block A).
Proof. intros w. exists []. simpl. rewrite app_nil_r. auto. Qed.

Lemma issues_assert P c : issues P (GALOIS_LOG_ASSERT c).
Proof. destruct c; [apply issues_ret|apply issues_abort]. Qed.

Lemma issues_assert_init P :
  issues P (fun w => GALOIS_LOG_ASSERT (library_init w) w).
Proof.
  intros w. exists []. rewrite app_nil_r.
  destruct (library_init w); auto.
Qed.

Lemma issues_send (P : Call -> Prop) c : P c -> issues P (send remote c).
Proof. intros Hc w. exists [c]. simpl. auto. Qed.

Lemma issues_bind {A B} P (m : M A) (f : A -> M B) :
  issues P m -> (forall a, issues P (f a)) -> issues P (bind m f).
Proof.
  intros Hm Hf w. destruct (Hm w) as (cs & Hcs & HP).
  unfold bind. destruct (m w) as [[a| |] w'] eqn:E; simpl in Hcs.
  - destruct (Hf a w') as (cs' & Hcs' & HP').
    exists (cs ++ cs'). rewrite Hcs', Hcs, app_assoc.
    split; [reflexivity|]. apply Forall_app; auto.
  - exists cs. auto.
  - exists cs. auto.
Qed.

Lemma issues_upload_parts bucket object upload_id parts :
  forall i, issues multipart_call
                   (upload_parts remote bucket object upload_id i parts).
Proof.
  induction parts as [|p ps IH]; intros i; cbn [upload_parts].
  - apply issues_ret.
  - apply issues_bind; [apply issues_send; exact I|]. intros o.
    apply issues_bind; [apply IH|]. intros os. apply issues_ret.
Qed.

(** After the session has been created, [S3UploadOverwrite] issues
    nothing but calls of the multipart protocol. *)
Lemma issues_S3UploadOverwrite_session bucket object data size
      (createMpResponse : Response) :
  issues multipart_call
    (match CheckS3Error createMpResponse with
     | Err e => ret (Err e)
     | Ok _ =>
         let upload_id := GetUploadId createMpResponse in
         bufView <- lift (SegmentBuf 0 data size) ;;
         let parts := SegmentedBufferView.parts bufView in
         GALOIS_LOG_ASSERT (negb (bool_decide (parts = []))) ;;;
         let part_e_tags := replicate (length parts) EmptyString in
         outcomes <- upload_parts remote bucket object upload_id 0 parts ;;
         st <- lift (run_foldl (upload_callback outcomes) (part_e_tags, 0)
                               (arrival (length parts))) ;;
         let '(part_e_tags, finished) := st in
         if finished <? Z.of_nat (length parts) then block
         else
           completeUploadOutcome <-
             send remote
                  (Sync (CompleteMultipartUpload bucket object upload_id
                           (completed_parts part_e_tags))) ;;
           if negb (IsSuccess completeUploadOutcome) then ret (Err S3Error)
           else ret ResultSuccess
     end).
Proof.
  destruct (CheckS3Error createMpResponse); [|apply issues_ret].
  cbv zeta.
  apply issues_bind; [apply issues_lift|]. intros bufView.
  apply issues_bind; [apply issues_assert|]. intros _.
  apply issues_bind; [apply issues_upload_parts|]. intros outcomes.
  apply issues_bind; [apply issues_lift|]. intros [tags finished].
  destruct (finished <? _); [apply issues_block|].
  apply issues_bind; [apply issues_send; exact I|]. intros o.
  destruct (negb (IsSuccess o)); apply issues_ret.
Qed.

Lemma S3UploadOverwrite_creates_session bucket object data size w :
  library_init w = true ->
  kS3DefaultBufSize <= size ->
  exists cs,
    calls (snd (S3UploadOverwrite remote arrival bucket object data size w))
    = calls w ++ Sync (CreateMultipartUpload bucket object) :: cs
    /\ Forall multipart_call cs.
Proof.
  intros Hinit Hsize. unfold S3UploadOverwrite.
  replace (size <? kS3DefaultBufSize) with false
    by (symmetry; apply Z.ltb_ge; lia).
  erewrite bind_run by (apply GetS3Client_run; exact Hinit).
  erewrite bind_run by (apply send_plain; reflexivity).
  cbn [request_of].
  destruct (issues_S3UploadOverwrite_session bucket object data size
              (remote (CreateMultipartUpload bucket object))
              (logged [Sync (CreateMultipartUpload bucket object)] w))
    as (cs & Hcs & HP).
  exists cs. split; [|exact HP].
  etransitivity; [exact Hcs|]. simpl. rewrite <- app_assoc. reflexivity.
Qed.

Lemma issues_put_multi_future bucket object data size :
  issues multipart_call (put_multi_future remote arrival bucket object data size).
Proof.
  unfold put_multi_future.
  apply issues_bind.
  { unfold S3PutMultiAsync1.
    apply issues_bind; [apply issues_assert_init|]. intros _.
    apply issues_bind; [apply issues_assert|]. intros _.
    apply issues_bind; [apply issues_lift|]. intros bufView.
    apply issues_bind; [apply issues_lift|]. intros sema.
    apply issues_bind; [apply issues_send; exact I|]. intros o.
    apply issues_ret. }
  intros pm. apply issues_bind.
  { unfold S3PutMultiAsync2.
    destruct (PutMultiImpl.create_fut_ pm) as [resp|]; [|apply issues_abort].
    destruct (negb (IsSuccess resp)); [apply issues_ret|].
    apply issues_bind; [apply issues_assert_init|]. intros _.
    apply issues_bind; [apply issues_upload_parts|]. intros os.
    apply issues_ret. }
  intros [[[[]|e] pm2] outcomes]; [|apply issues_ret].
  apply issues_bind; [apply issues_lift|]. intros pm3.
  apply issues_bind.
  { unfold S3PutMultiAsync3.
    apply issues_bind; [apply issues_lift|]. intros _.
    apply issues_bind; [apply issues_assert_init|]. intros _.
    apply issues_bind; [apply issues_send; exact I|]. intros o.
    apply issues_ret. }
  intros [[[]|e] pm4]; [|apply issues_ret].
  apply issues_bind.
  { unfold S3PutMultiAsyncFinish.
    destruct (PutMultiImpl.outcome_fut_ pm4) as [o|]; [|apply issues_abort].
    destruct (negb (IsSuccess o)); apply issues_ret. }
  intros [[]|e]; apply issues_ret.
Qed.

(** C6, as the code has it.  A put of a payload below
    [kS3DefaultBufSize] issues exactly one [PutObject] request and no
    multipart call.  [S3UploadOverwrite] issues it through the blocking
    call and returns its outcome.  [S3PutAsync] issues nothing itself and
    returns a future; the future hands the request to [PutObjectAsync],
    which returns at once with one completion outstanding, and then waits:
    [S3PutSingleAsyncFinish] does not return while a completion is
    outstanding, and returns success once the handler has counted it; a
    rejected put ends the process in the handler.  A put of a payload at
    or above the threshold issues no [PutObject] at all: every call it
    makes belongs to the multipart protocol, [S3UploadOverwrite] starts
    with [CreateMultipartUpload], and when the store accepts every request
    the calls are the whole session, create, one [UploadPart] per part,
    complete. *)
Theorem put_routes_by_size bucket object data size w :
  library_init w = true ->
  0 <= size < 2 ^ 64 ->
  let put := PutObject bucket object data size in
  let create := CreateMultipartUpload bucket object in
  (size < kS3DefaultBufSize ->
   S3UploadOverwrite remote arrival bucket object data size w
   = (Done (if IsSuccess (remote put) then ResultSuccess else Err S3Error),
      logged [Sync put] w)
   /\ S3PutAsync remote arrival bucket object data size w
      = (Done (Ok (Some (mkFileAsyncWork
                           (put_single_future remote bucket object data size)))),
         w)
   /\ put_single_future remote bucket object data size w
      = (if IsSuccess (remote put) then Done ResultSuccess else Aborted,
         logged [Async put] w)
   /\ S3PutSingleAsync remote bucket object data size
                       CountingSemaphore.init w
      = (Done (ResultSuccess, CountingSemaphore.mk 1 1, remote put),
         logged [Async put] w)
   /\ sema_callback (CountingSemaphore.mk 1 1) (remote put)
      = (if IsSuccess (remote put) then Done (CountingSemaphore.mk 1 0)
         else Aborted)
   /\ (forall sema w',
          S3PutSingleAsyncFinish sema w'
          = (if CountingSemaphore.remaining sema =? 0
             then Done ResultSuccess else Blocked, w')))
  /\ (kS3DefaultBufSize <= size ->
      (exists cs,
          calls (snd (S3UploadOverwrite remote arrival bucket object data
                                        size w))
          = calls w ++ Sync create :: cs
          /\ Forall multipart_call cs)
      /\ S3PutAsync remote arrival bucket object data size w
         = (Done (Ok (Some (mkFileAsyncWork
                              (put_multi_future remote arrival bucket object
                                                data size)))),
            w)
      /\ (exists cs,
             calls (snd (put_multi_future remote arrival bucket object data
                                          size w))
             = calls w ++ cs
             /\ Forall multipart_call cs)
      /\ forall v,
          SegmentBuf 0 data size = Done v ->
          let upload_id := GetUploadId (remote create) in
          let uploads := upload_requests bucket object upload_id 0 (parts v) in
          let complete :=
            CompleteMultipartUpload bucket object upload_id
              (completed_parts (GetETag <$> (remote <$> uploads))) in
          IsSuccess (remote create) = true ->
          Forall (fun r => IsSuccess (remote r) = true) uploads ->
          arrival (length (parts v)) ≡ₚ seq 0 (length (parts v)) ->
          calls (snd (S3UploadOverwrite remote arrival bucket object data
                                        size w))
          = calls w ++ Sync create :: (Async <$> uploads) ++ [Sync complete]
          /\ calls (snd (put_multi_future remote arrival bucket object data
                                          size w))
             = calls w
               ++ Callable create :: (Async <$> uploads) ++ [Callable complete]).
Proof.
  intros Hinit Hsize put create. split.
  - intros Hsmall. split; [|split; [|split; [|split; [|split]]]].
    + unfold S3UploadOverwrite.
      replace (size <? kS3DefaultBufSize) with true
        by (symmetry; apply Z.ltb_lt; lia).
      apply S3PutSingleSync_run. exact Hinit.
    + unfold S3PutAsync.
      replace (size <? kS3DefaultBufSize) with true
        by (symmetry; apply Z.ltb_lt; lia).
      reflexivity.
    + apply put_single_future_run. exact Hinit.
    + unfold S3PutSingleAsync.
      erewrite bind_run by (apply assert_init_run; exact Hinit).
      erewrite bind_run by reflexivity.
      erewrite bind_run by (apply send_plain; reflexivity).
      reflexivity.
    + unfold sema_callback. destruct (IsSuccess (remote put)); reflexivity.
    + intros sema w'. unfold S3PutSingleAsyncFinish, bind, lift.
      unfold CountingSemaphore.WaitGoal.
      destruct (CountingSemaphore.remaining sema =? 0); reflexivity.
  - intros Hbig. split; [|split; [|split]].
    + apply S3UploadOverwrite_creates_session; assumption.
    + unfold S3PutAsync.
      replace (size <? kS3DefaultBufSize) with false
        by (symmetry; apply Z.ltb_ge; lia).
      reflexivity.
    + apply issues_put_multi_future.
    + intros v Hv upload_id uploads complete Hcreate Hups Hperm. split.
      * rewrite (S3UploadOverwrite_session_run remote arrival bucket object
                   data size v w Hinit ltac:(lia) Hv Hcreate Hups Hperm).
        reflexivity.
      * rewrite (put_multi_future_run remote arrival bucket object
                   data size v w Hinit ltac:(lia) Hv Hcreate Hups Hperm).
        reflexivity.
Qed.
End PutRouting.

(* ===================================================================== *)
(** ** Head, ranged get *)
(* ===================================================================== *)

Section HeadAndGet.
Context (remote : Request -> Response).
Context (arrival : nat -> list nat).

Lemma S3GetSize_run bucket object w :
  library_init w = true ->
  S3GetSize remote bucket object w
  = (Done (match CheckS3Error (remote (HeadObject bucket object)) with
           | Err e => Err e
           | Ok _ => Ok (wrap64 (GetContentLength
                                   (remote (HeadObject bucket object))))
           end),
     logged [Sync (HeadObject bucket object)] w).
Proof.
  intros Hinit. unfold S3GetSize.
  erewrite bind_run by (apply GetS3Client_run; exact Hinit).
  erewrite bind_run by (apply send_plain; reflexivity).
  cbn [request_of].
  destruct (CheckS3Error (remote (HeadObject bucket object))); reflexivity.
Qed.

(** C7, as the code has it.  [S3GetSize] issues exactly one blocking
    [HeadObject] request and always returns to its caller.  On success the
    result is the content length.  On any failure that is not a redirect,
    a missing object included, the result is the ordinary error
    [S3Error]; a redirect gives [AWSWrongRegion].  No outcome is reported
    as [NotFound]. *)
Theorem S3GetSize_single_head_request bucket object w :
  library_init w = true ->
  let outcome := remote (HeadObject bucket object) in
  snd (S3GetSize remote bucket object w)
  = logged [Sync (HeadObject bucket object)] w
  /\ (exists res, fst (S3GetSize remote bucket object w) = Done res
                  /\ res <> Err NotFound)
  /\ (IsSuccess outcome = true ->
      fst (S3GetSize remote bucket object w)
      = Done (Ok (wrap64 (GetContentLength outcome))))
  /\ (IsSuccess outcome = false ->
      GetResponseCode outcome <> MOVED_PERMANENTLY ->
      fst (S3GetSize remote bucket object w) = Done (Err S3Error))
  /\ (IsSuccess outcome = false ->
      GetResponseCode outcome = MOVED_PERMANENTLY ->
      fst (S3GetSize remote bucket object w) = Done (Err AWSWrongRegion)).
Proof.
  intros Hinit outcome. rewrite (S3GetSize_run bucket object w Hinit).
  fold outcome. cbn [fst snd]. unfold CheckS3Error.
  split; [reflexivity|]. split; [|split; [|split]].
  - destruct (IsSuccess outcome); [eexists; split; [reflexivity|discriminate]|].
    destruct (GetResponseCode outcome =? MOVED_PERMANENTLY);
      eexists; (split; [reflexivity|discriminate]).
  - intros ->. reflexivity.
  - intros -> Hcode. apply Z.eqb_neq in Hcode. rewrite Hcode. reflexivity.
  - intros -> Hcode. apply Z.eqb_eq in Hcode. rewrite Hcode. reflexivity.
Qed.

Lemma of_to_decimal z : 0 <= z -> of_decimal (to_decimal z) = Some z.
Proof.
  intros Hz. unfold of_decimal, to_decimal.
  rewrite NilEmpty.usu. cbn [fmap option_fmap option_map].
  rewrite DecimalN.Unsigned.of_to, Z2N.id by exact Hz. reflexivity.
Qed.

(** C8.  For every part with [0 <= start < end < 2^64] (and a length that
    leaves room for one more byte), the request [PrepareObjectRequest]
    builds has the range header [bytes=start-(end-1)]: its two numerals
    read back as [start] and as [end - 1], one less than the exclusive
    end; and the response is received at [dest] into a buffer of
    [end - start + 1] bytes. *)
Theorem PrepareObjectRequest_inclusive_range bucket object (part : BufPart.t) :
  0 <= BufPart.start part ->
  BufPart.start part < BufPart.end_ part ->
  BufPart.end_ part < 2 ^ 64 ->
  BufPart.end_ part - BufPart.start part + 1 < 2 ^ 64 ->
  let first := to_decimal (BufPart.start part) in
  let last := to_decimal (BufPart.end_ part - 1) in
  PrepareObjectRequest bucket object part
  = GetObject bucket object ("bytes=" +:+ first +:+ "-" +:+ last)
              (BufPart.dest part)
              (BufPart.end_ part - BufPart.start part + 1)
  /\ of_decimal first = Some (BufPart.start part)
  /\ of_decimal last = Some (BufPart.end_ part - 1).
Proof.
  intros Hstart Hlt Hend Hroom first last.
  unfold PrepareObjectRequest. rewrite !wrap64_small by lia.
  split; [reflexivity|].
  split; apply of_to_decimal; lia.
Qed.

Lemma PrepareObjectRequest_inclusive_range_witness :
  PrepareObjectRequest "b" "o" (BufPart.mk 10 14 100)
  = GetObject "b" "o" "bytes=10-13" 100 5
  /\ of_decimal "10" = Some 10
  /\ of_decimal "13" = Some 13.
Proof.
  apply (PrepareObjectRequest_inclusive_range "b" "o" (BufPart.mk 10 14 100));
    simpl; lia.
Defined.

(** C9.  [S3GetAsync] with [size = 0] returns success at once: the world
    is left as it was (no request is logged, no byte of any buffer is
    written) and the success value carries no handle. *)
Theorem S3GetAsync_zero_size_is_noop bucket object start result_buf w :
  S3GetAsync remote arrival bucket object start 0 result_buf w
  = (Done (Ok None), w)
  /\ calls (snd (S3GetAsync remote arrival bucket object start 0 result_buf w))
     = calls w
  /\ memory (snd (S3GetAsync remote arrival bucket object start 0 result_buf w))
     = memory w.
Proof. repeat split. Qed.

Lemma S3GetAsync_nonzero_size bucket object start size result_buf w :
  size <> 0 ->
  S3GetAsync remote arrival bucket object start size result_buf w
  = (Done (Ok (Some (mkFileAsyncWork
                       (get_future remote arrival bucket object start size
                                   result_buf)))), w).
Proof.
  intros Hsize. unfold S3GetAsync.
  replace (size =? 0) with false by (symmetry; apply Z.eqb_neq; exact Hsize).
  reflexivity.
Qed.
End HeadAndGet.

(** C7, with a [NotFound] result, fails on a store without the
    object: the result is [S3Error]. *)
Lemma S3GetSize_missing_object_is_S3Error :
  fst (S3GetSize remote_missing "b" "o" world0) = Done (Err S3Error)
  /\ fst (S3GetSize remote_missing "b" "o" world0) <> Done (Err NotFound).
Proof. split; [reflexivity|discriminate]. Qed.

Lemma S3GetSize_single_head_request_witness :
  snd (S3GetSize remote_4k "b" "o" world0)
  = logged [Sync (HeadObject "b" "o")] world0
  /\ (exists res, fst (S3GetSize remote_4k "b" "o" world0) = Done res
                  /\ res <> Err NotFound)
  /\ (IsSuccess (remote_4k (HeadObject "b" "o")) = true ->
      fst (S3GetSize remote_4k "b" "o" world0)
      = Done (Ok (wrap64 (GetContentLength (remote_4k (HeadObject "b" "o"))))))
  /\ (IsSuccess (remote_4k (HeadObject "b" "o")) = false ->
      GetResponseCode (remote_4k (HeadObject "b" "o")) <> MOVED_PERMANENTLY ->
      fst (S3GetSize remote_4k "b" "o" world0) = Done (Err S3Error))
  /\ (IsSuccess (remote_4k (HeadObject "b" "o")) = false ->
      GetResponseCode (remote_4k (HeadObject "b" "o")) = MOVED_PERMANENTLY ->
      fst (S3GetSize remote_4k "b" "o" world0) = Done (Err AWSWrongRegion)).
Proof.
  apply (S3GetSize_single_head_request remote_4k "b" "o" world0). reflexivity.
Defined.

Example S3GetSize_of_4k_object :
  fst (S3GetSize remote_4k "b" "o" world0) = Done (Ok 4096).
Proof. reflexivity. Qed.

Example get_future_of_four_bytes :
  get_future remote_bytes arrival_in_order "b" "o" 10 4 100 world0
  = (Done ResultSuccess,
     mkWorld true [Async (GetObject "b" "o" "bytes=10-13" 100 5)]
             (<[104 := 5]> (<[103 := 4]> (<[102 := 3]> (<[101 := 2]>
                (<[100 := 1]> ∅))))) ∅).
Proof. vm_compute. reflexivity. Qed.

(* ===================================================================== *)
(** ** Listing *)
(* ===================================================================== *)

Section Strings.
Lemma prefix_app a r : String.prefix a (a +:+ r) = true.
Proof.
  induction a as [|c a IH]; simpl; [destruct r; reflexivity|].
  destruct (ascii_dec c c); [exact IH|congruence].
Qed.

Lemma prefix_inv a : forall s, String.prefix a s = true -> exists r, s = a +:+ r.
Proof.
  induction a as [|c a IH]; intros s H.
  - exists s. reflexivity.
  - destruct s as [|d s]; simpl in H; [discriminate|].
    destruct (ascii_dec c d) as [->|]; [|discriminate].
    destruct (IH s H) as [r ->]. exists r. reflexivity.
Qed.

Lemma find_from_unfold pos needle hay :
  find_from pos needle hay
  = if String.prefix needle hay then Some pos
    else match hay with
         | EmptyString => None
         | String _ hay' => find_from (S pos) needle hay'
         end.
Proof. destruct hay; reflexivity. Qed.

Lemma find_from_ge needle hay :
  forall pos k, find_from pos needle hay = Some k -> (pos <= k)%nat.
Proof.
  induction hay as [|c hay IH]; intros pos k; rewrite find_from_unfold.
  - destruct (String.prefix needle ""); [|discriminate].
    intros [= <-]. lia.
  - destruct (String.prefix needle (String c hay)).
    + intros [= <-]. lia.
    + intros H. apply IH in H. lia.
Qed.

Lemma find_zero needle hay :
  find needle hay = Some 0%nat <-> String.prefix needle hay = true.
Proof.
  unfold find. rewrite find_from_unfold.
  destruct (String.prefix needle hay); [tauto|].
  split; [|discriminate].
  destruct hay as [|c hay]; [discriminate|].
  intros H. apply find_from_ge in H. lia.
Qed.

Lemma get_app a r : String.get (String.length a) (a +:+ r) = String.get 0 r.
Proof. induction a as [|c a IH]; simpl; [reflexivity|exact IH]. Qed.

Lemma string_drop_app a r (n : nat) :
  string_drop (String.length a + n) (a +:+ r) = string_drop n r.
Proof. induction a as [|c a IH]; simpl; [reflexivity|exact IH]. Qed.

Lemma erase_front (n : nat) s : erase 0 n s = string_drop n s.
Proof. unfold erase. destruct s; reflexivity. Qed.

Lemma under_prefix_checks object key :
  under_prefix object key <->
  String.prefix object key = true
  /\ String.get (String.length object) key = Some slash.
Proof.
  split.
  - intros [name ->]. split; [apply prefix_app|].
    rewrite get_app. reflexivity.
  - intros [Hp Hg]. apply prefix_inv in Hp as [r ->].
    rewrite get_app in Hg. destruct r as [|c r]; [discriminate|].
    simpl in Hg. injection Hg as ->. exists r. reflexivity.
Qed.

Lemma under_prefix_dec object key :
  under_prefix object key \/ ~ under_prefix object key.
Proof.
  rewrite under_prefix_checks.
  destruct (String.prefix object key);
    destruct (decide (String.get (String.length object) key = Some slash));
    intuition congruence.
Qed.
End Strings.

Section Listing.
Context (remote : Request -> Response).

Lemma emplace_short_name_valid object list name w :
  emplace_short_name object list (object +:+ "/" +:+ name) w
  = (Done tt, emplaced list w name).
Proof.
  unfold emplace_short_name.
  pose proof (proj2 (find_zero object (object +:+ "/" +:+ name))
                    (prefix_app _ _)) as Hfind.
  rewrite Hfind.
  rewrite bool_decide_eq_true_2 by reflexivity.
  cbn [GALOIS_LOG_ASSERT]. rewrite bind_ret_l.
  rewrite bool_decide_eq_true_2 by (rewrite get_app; reflexivity).
  cbn [GALOIS_LOG_ASSERT]. rewrite bind_ret_l.
  rewrite erase_front, string_drop_app. reflexivity.
Qed.

Lemma emplace_short_name_stray object list key w :
  ~ under_prefix object key ->
  emplace_short_name object list key w = (Aborted, w).
Proof.
  intros Hstray. unfold emplace_short_name.
  destruct (find object key) as [begin|] eqn:Hfind; [|reflexivity].
  destruct (decide (begin = 0%nat)) as [->|Hne].
  - rewrite bool_decide_eq_true_2 by reflexivity.
    cbn [GALOIS_LOG_ASSERT]. rewrite bind_ret_l.
    rewrite bool_decide_eq_false_2; [reflexivity|].
    intros Hget. apply Hstray, under_prefix_checks.
    split; [apply find_zero; exact Hfind|exact Hget].
  - rewrite bool_decide_eq_false_2 by exact Hne. reflexivity.
Qed.

Lemma emplaced_all_frame list names :
  forall w,
    library_init (emplaced_all list names w) = library_init w
    /\ calls (emplaced_all list names w) = calls w
    /\ memory (emplaced_all list names w) = memory w.
Proof.
  induction names as [|name names IH]; intros w; [auto|].
  cbn [emplaced_all foldl]. destruct (IH (emplaced list w name)) as (?&?&?).
  unfold emplaced_all in *. auto.
Qed.

Lemma emplaced_all_set list names :
  forall w,
    sets (emplaced_all list names w) !!! list
    = list_to_set names ∪ (sets w !!! list).
Proof.
  induction names as [|name names IH]; intros w.
  - cbn. rewrite (left_id_L ∅ (∪)). reflexivity.
  - cbn [emplaced_all foldl]. unfold emplaced_all in IH. rewrite IH.
    cbn [emplaced sets list_to_set foldr]. rewrite lookup_total_insert_eq.
    rewrite (assoc_L (∪)). f_equal. apply (comm_L (∪)).
Qed.

Lemma emplaced_all_other list names other :
  other <> list ->
  forall w, sets (emplaced_all list names w) !! other = sets w !! other.
Proof.
  intros Hne. induction names as [|name names IH]; intros w; [reflexivity|].
  cbn [emplaced_all foldl]. unfold emplaced_all in IH. rewrite IH.
  cbn [emplaced sets]. apply lookup_insert_ne. congruence.
Qed.

Lemma emplaced_all_logged list names cs :
  forall w,
    emplaced_all list names (logged cs w)
    = logged cs (emplaced_all list names w).
Proof.
  induction names as [|name names IH]; intros w; [reflexivity|].
  cbn [emplaced_all foldl]. unfold emplaced_all in IH.
  rewrite <- IH. reflexivity.
Qed.

Lemma emplaced_all_app list names1 names2 w :
  emplaced_all list names2 (emplaced_all list names1 w)
  = emplaced_all list (names1 ++ names2) w.
Proof. unfold emplaced_all. rewrite foldl_app. reflexivity. Qed.

(** The loop over the keys of one page. *)
Lemma emplace_keys_valid object list keys :
  forall names w,
    names_of object keys names ->
    foldM (fun _ key => emplace_short_name object list key) tt keys w
    = (Done tt, emplaced_all list names w).
Proof.
  induction keys as [|key keys IH]; intros names w Hnames.
  - inversion Hnames; subst. reflexivity.
  - inversion Hnames as [|? name ? names' Hkey Hrest]; subst.
    cbn [foldM].
    erewrite bind_run by apply emplace_short_name_valid.
    change (emplaced_all list (name :: names') w)
      with (emplaced_all list names' (emplaced list w name)).
    apply IH. exact Hrest.
Qed.

Lemma emplace_keys_stray object list keys :
  Exists (fun key => ~ under_prefix object key) keys ->
  forall w,
    fst (foldM (fun _ key => emplace_short_name object list key) tt keys w)
    = Aborted.
Proof.
  induction keys as [|key keys IH]; intros Hex w.
  - inversion Hex.
  - cbn [foldM].
    destruct (under_prefix_dec object key) as [[name ->]|Hstray].
    + erewrite bind_run by apply emplace_short_name_valid.
      apply IH. inversion Hex as [? ? Hbad|]; subst; [|assumption].
      exfalso. apply Hbad. exists name. reflexivity.
    + erewrite bind_aborted by (apply emplace_short_name_stray; exact Hstray).
      reflexivity.
Qed.

Lemma names_of_exist object keys :
  Forall (under_prefix object) keys -> exists names, names_of object keys names.
Proof.
  induction 1 as [|key keys [name ->] _ [names IH]].
  - exists []. constructor.
  - exists (name :: names). constructor; [reflexivity|exact IH].
Qed.

Lemma names_of_under_prefix object keys names :
  names_of object keys names -> Forall (under_prefix object) keys.
Proof.
  induction 1 as [|key name keys names Hkey _ IH]; constructor; [|exact IH].
  exists name. exact Hkey.
Qed.

Lemma all_or_stray object keys :
  Forall (under_prefix object) keys
  \/ Exists (fun key => ~ under_prefix object key) keys.
Proof.
  induction keys as [|key keys [IH|IH]].
  - left. constructor.
  - destruct (under_prefix_dec object key) as [Hk|Hk].
    + left. constructor; assumption.
    + right. left. exact Hk.
  - right. right. exact IH.
Qed.

(** One turn of the loop on a page whose keys all lie under the prefix. *)
Lemma list_pages_step fuel bucket object list token names w :
  library_init w = true ->
  let request := ListObjectsV2 bucket object (token_opt token) in
  let resp := remote request in
  IsSuccess resp = true ->
  names_of object (GetContents resp) names ->
  let w' := emplaced_all list names (logged [Sync request] w) in
  list_pages remote (S fuel) bucket object list token w
  = if GetIsTruncated resp
    then if (0 <? String.length (GetNextContinuationToken resp))%nat
         then list_pages remote fuel bucket object list
                         (GetNextContinuationToken resp) w'
         else (Aborted, w')
    else (Done ResultSuccess, w').
Proof.
  intros Hinit request resp Hok Hnames w'. cbn [list_pages].
  erewrite bind_run by (apply async_s3_client_run; exact Hinit).
  erewrite bind_run by (apply send_plain; reflexivity).
  cbn [request_of]. fold (token_opt token). fold request resp.
  rewrite Hok. cbn [negb].
  erewrite bind_run by (apply emplace_keys_valid; exact Hnames).
  fold w'.
  destruct (GetIsTruncated resp); [|reflexivity].
  destruct (0 <? String.length (GetNextContinuationToken resp))%nat eqn:E.
  - rewrite bind_assoc. cbn [GALOIS_LOG_ASSERT]. rewrite !bind_ret_l.
    rewrite E. reflexivity.
  - rewrite bind_assoc. reflexivity.
Qed.

Lemma nonempty_token token :
  token <> EmptyString -> (0 <? String.length token)%nat = true.
Proof. destruct token; [congruence|reflexivity]. Qed.

Lemma list_pages_run bucket object list token pages :
  page_chain remote bucket object token pages ->
  forall fuel names w,
    library_init w = true ->
    (length pages <= fuel)%nat ->
    names_of object (concat (GetContents <$> pages)) names ->
    list_pages remote fuel bucket object list token w
    = (Done ResultSuccess,
       emplaced_all list names
         (logged (Sync <$> page_requests bucket object token pages) w)).
Proof.
  induction 1 as [token resp Hok Hlast|token rest resp Hok Hmore Htok Hrest IH];
    intros fuel names w Hinit Hfuel Hnames.
  - destruct fuel as [|fuel]; [simpl in Hfuel; lia|].
    cbn [fmap list_fmap concat] in Hnames. rewrite app_nil_r in Hnames.
    rewrite (list_pages_step fuel bucket object list token names w Hinit
               Hok Hnames).
    fold resp. rewrite Hlast. reflexivity.
  - destruct fuel as [|fuel]; [simpl in Hfuel; lia|].
    cbn [fmap list_fmap concat] in Hnames.
    apply Forall2_app_inv_l in Hnames as (names1 & names2 & H1 & H2 & ->).
    rewrite (list_pages_step fuel bucket object list token names1 w Hinit
               Hok H1).
    fold resp. rewrite Hmore, (nonempty_token _ Htok).
    rewrite (IH fuel names2); [| |simpl in Hfuel; lia|exact H2].
    + cbn [page_requests fmap list_fmap]. fold resp.
      rewrite <- emplaced_all_logged, emplaced_all_app, logged_logged.
      reflexivity.
    + destruct (emplaced_all_frame list names1
                  (logged [Sync (ListObjectsV2 bucket object (token_opt token))] w))
        as (-> & _ & _).
      exact Hinit.
Qed.

Lemma list_pages_stray bucket object list token pages :
  page_chain remote bucket object token pages ->
  forall fuel w,
    library_init w = true ->
    (length pages <= fuel)%nat ->
    Exists (fun key => ~ under_prefix object key)
           (concat (GetContents <$> pages)) ->
    fst (list_pages remote fuel bucket object list token w) = Aborted.
Proof.
  assert (forall fuel token w,
             library_init w = true ->
             let resp := remote (ListObjectsV2 bucket object (token_opt token)) in
             IsSuccess resp = true ->
             Exists (fun key => ~ under_prefix object key) (GetContents resp) ->
             fst (list_pages remote (S fuel) bucket object list token w)
             = Aborted) as Hpage.
  { intros fuel token' w Hinit resp Hok Hex. cbn [list_pages].
    erewrite bind_run by (apply async_s3_client_run; exact Hinit).
    erewrite bind_run by (apply send_plain; reflexivity).
    cbn [request_of]. fold (token_opt token'). fold resp.
    rewrite Hok. cbn [negb].
    pose proof (emplace_keys_stray object list (GetContents resp) Hex
                  (logged [Sync (ListObjectsV2 bucket object (token_opt token'))] w))
      as Hab.
    unfold bind at 1.
    destruct (foldM _ tt (GetContents resp) _) as [[[]| |] w1];
      simpl in Hab; try discriminate. reflexivity. }
  induction 1 as [token resp Hok Hlast|token rest resp Hok Hmore Htok Hrest IH];
    intros fuel w Hinit Hfuel Hex.
  - destruct fuel as [|fuel]; [simpl in Hfuel; lia|].
    cbn [fmap list_fmap concat] in Hex. rewrite app_nil_r in Hex.
    apply Hpage; assumption.
  - destruct fuel as [|fuel]; [simpl in Hfuel; lia|].
    cbn [fmap list_fmap concat] in Hex.
    destruct (all_or_stray object (GetContents resp)) as [Hall|Hbad];
      [|apply Hpage; assumption].
    apply Exists_app in Hex as [Hex|Hex].
    { apply Hpage; assumption. }
    destruct (names_of_exist object _ Hall) as [names1 H1].
    rewrite (list_pages_step fuel bucket object list token names1 w Hinit
               Hok H1).
    fold resp. rewrite Hmore, (nonempty_token _ Htok).
    apply IH; [|simpl in Hfuel; lia|exact Hex].
    destruct (emplaced_all_frame list names1
                (logged [Sync (ListObjectsV2 bucket object (token_opt token))] w))
      as (-> & _ & _).
    exact Hinit.
Qed.

Lemma page_requests_length bucket object pages :
  forall token, length (page_requests bucket object token pages) = length pages.
Proof.
  induction pages as [|p pages IH]; intros token; simpl; [|rewrite IH];
    reflexivity.
Qed.

(** C10.  When the store answers the listing with a chain of pages (each
    but the last truncated with a non-empty continuation token), the future
    of [S3ListAsync] issues exactly one [ListObjectsV2] request per page,
    the first without a token and each next one with the token of the page
    before, and stops at the first page that is not truncated.  If every
    listed key is the prefix, a slash and a name, it returns success and
    what it has added to the caller's set are those names, without the
    prefix and the slash.  If some listed key does not begin with the
    prefix followed by a slash, it aborts on its assertion.  A page marked
    truncated with an empty continuation token aborts as well. *)
Theorem S3ListAsync_relative_names fuel bucket object list pages w :
  library_init w = true ->
  page_chain remote bucket object EmptyString pages ->
  (length pages <= fuel)%nat ->
  let keys := concat (GetContents <$> pages) in
  let requests := page_requests bucket object EmptyString pages in
  let work := list_pages remote fuel bucket object list EmptyString in
  S3ListAsync remote fuel bucket object list w
  = (Done (Ok (Some (mkFileAsyncWork work))), w)
  /\ length requests = length pages
  /\ (Forall (under_prefix object) keys ->
      exists names,
        names_of object keys names
        /\ work w
           = (Done ResultSuccess,
              emplaced_all list names (logged (Sync <$> requests) w))
        /\ sets (snd (work w)) !!! list
           = list_to_set names ∪ (sets w !!! list))
  /\ (Exists (fun key => ~ under_prefix object key) keys ->
      fst (work w) = Aborted)
  /\ (forall token names w',
         library_init w' = true ->
         let resp := remote (ListObjectsV2 bucket object (token_opt token)) in
         IsSuccess resp = true ->
         names_of object (GetContents resp) names ->
         GetIsTruncated resp = true ->
         GetNextContinuationToken resp = EmptyString ->
         fst (list_pages remote (S fuel) bucket object list token w')
         = Aborted).
Proof.
  intros Hinit Hchain Hfuel keys requests work.
  split; [|split; [|split; [|split]]].
  - unfold S3ListAsync.
    erewrite bind_run by (apply assert_init_run; exact Hinit). reflexivity.
  - apply page_requests_length.
  - intros Hall. destruct (names_of_exist object keys Hall) as [names Hnames].
    exists names. split; [exact Hnames|].
    pose proof (list_pages_run bucket object list EmptyString pages Hchain
                  fuel names w Hinit Hfuel Hnames) as Hrun.
    split; [exact Hrun|].
    subst work. rewrite Hrun. cbn [snd].
    rewrite emplaced_all_set. reflexivity.
  - intros Hex.
    apply (list_pages_stray bucket object list EmptyString pages Hchain
             fuel w Hinit Hfuel Hex).
  - intros token names w' Hinit' resp Hok Hnames Htrunc Htok.
    rewrite (list_pages_step fuel bucket object list token names w' Hinit'
               Hok Hnames).
    fold resp. rewrite Htrunc, Htok. reflexivity.
Qed.
End Listing.

(* ===================================================================== *)
(** ** Operation groups *)
(* ===================================================================== *)

Section OpGroup.
Import AsyncOpGroup.
Context {S : Type}.
Implicit Types (ops : list (AsyncOp S)) (fs : Futures.t) (s : S).

Lemma encountered_schedule ops :
  forall fs1 fs2 s,
    Futures.schedule fs1 = Futures.schedule fs2 ->
    encountered ops fs1 s = encountered ops fs2 s.
Proof.
  induction ops as [|op ops IH]; intros fs1 fs2 s Hs; [reflexivity|].
  cbn [encountered]. unfold Futures.outcome, Futures.resolution.
  rewrite Hs. destruct (on_complete op s) as [c s'].
  rewrite (IH fs1 fs2 s' Hs). reflexivity.
Qed.

(** Draining blocks on each future in queue order and runs each
    continuation, whatever the order the futures resolve in. *)
Lemma drain_run ops :
  forall fs s first ran,
    Forall (fun op => is_Some (Futures.outcome (result op) fs)) ops ->
    exists fs',
      drain ops fs s first ran
      = Done (first_error (first :: encountered ops fs s),
              continued ops s, fs', ran ++ (file <$> ops))
      /\ Futures.schedule fs' = Futures.schedule fs
      /\ (Futures.now fs <= Futures.now fs')%nat
      /\ Forall (fun op =>
                   exists k e, Futures.resolution (result op) fs = Some (k, e)
                               /\ (k < Futures.now fs')%nat) ops.
Proof.
  induction ops as [|op ops IH]; intros fs s first ran Hall.
  - exists fs. cbn [drain encountered continued foldl fmap list_fmap].
    rewrite app_nil_r.
    replace (first_error [first]) with first by (destruct first as [[]|]; reflexivity).
    repeat split; [lia|constructor].
  - apply Forall_cons in Hall as [[r Hr] Hall].
    unfold Futures.outcome in Hr.
    destruct (Futures.resolution (result op) fs) as [[k [id r']]|] eqn:Hres;
      [|discriminate].
    cbn in Hr. injection Hr as ->.
    cbn [drain]. unfold Futures.get. rewrite Hres. cbn [run_bind].
    set (fs1 := Futures.mk (Futures.schedule fs)
                           (Nat.max (Futures.now fs) (Datatypes.S k))).
    destruct (on_complete op s) as [c s'] eqn:Hc.
    destruct (IH fs1 s' (first_error [first; r; c]) (ran ++ [file op]))
      as (fs' & Hrun & Hsched & Hnow & Hres').
    { eapply Forall_impl; [exact Hall|]. intros op' Hop'. exact Hop'. }
    exists fs'. split; [|split; [exact Hsched|split]].
    + rewrite Hrun. cbn [encountered continued foldl fmap list_fmap].
      unfold Futures.outcome. rewrite Hres, Hc. cbn [fmap option_fmap option_map
        default snd].
      rewrite first_error_app. cbn [app].
      rewrite (encountered_schedule ops fs1 fs s' eq_refl).
      rewrite <- app_assoc. reflexivity.
    + subst fs1. cbn in Hnow. lia.
    + constructor.
      * exists k, (id, r). split; [exact Hres|].
        subst fs1. cbn in Hnow. lia.
      * exact Hres'.
Qed.

(** C5.  Whatever the order in which the futures resolve, provided each
    registered future resolves at all, [Finish] returns; it has invoked
    the continuations of all registered operations, each once, in the order
    the operations were registered; it has waited for every registered
    future and left the queue empty; and it reports the first error met
    while draining, so that a non-error return means that every future
    resolved without error and every continuation returned success. *)
Theorem ReadGroup_Finish_fifo (g : ReadGroup.t S) fs s :
  let ops := pending_ops_ (ReadGroup.async_op_group_ g) in
  Forall (fun op => is_Some (Futures.outcome (result op) fs)) ops ->
  exists fs',
    ReadGroup.Finish g fs s
    = Done (first_error (encountered ops fs s), ReadGroup.Make,
            continued ops s, fs', file <$> ops)
    /\ Forall (fun op =>
                 exists k e, Futures.resolution (result op) fs = Some (k, e)
                             /\ (k < Futures.now fs')%nat) ops
    /\ (is_ok (first_error (encountered ops fs s)) = true ->
        Forall (fun r => is_ok r = true) (encountered ops fs s)
        /\ Forall (fun op => Futures.outcome (result op) fs
                             = Some ResultSuccess) ops).
Proof.
  intros ops Hall.
  destruct (drain_run ops fs s ResultSuccess [] Hall)
    as (fs' & Hrun & _ & _ & Hres).
  exists fs'. split; [|split; [exact Hres|]].
  - unfold ReadGroup.Finish, Finish. fold ops. rewrite Hrun. reflexivity.
  - intros Hok. apply first_error_all_ok in Hok. split; [exact Hok|].
    clear Hrun Hres. revert s Hok.
    induction ops as [|op ops' IH]; intros s Hok; [constructor|].
    apply Forall_cons in Hall as [[r Hr] Hall].
    cbn [encountered] in Hok. rewrite Hr in Hok. cbn [default] in Hok.
    destruct (on_complete op s) as [c s'].
    apply Forall_cons in Hok as [Hr_ok Hok].
    apply Forall_cons in Hok as [_ Hok].
    constructor.
    + rewrite Hr. destruct r as [[]|]; [reflexivity|discriminate].
    + apply (IH Hall s' Hok).
Qed.
End OpGroup.

Lemma ReadGroup_Finish_fifo_witness :
  exists fs',
    ReadGroup.Finish group_abc futures_cab []
    = Done (Err S3Error, ReadGroup.Make, ["A"; "B"; "C"], fs', ["A"; "B"; "C"]).
Proof.
  destruct (ReadGroup_Finish_fifo group_abc futures_cab [])
    as (fs' & Hrun & _).
  - repeat constructor; eexists; reflexivity.
  - exists fs'. exact Hrun.
Defined.

Example group_abc_drains_in_registration_order :
  ReadGroup.Finish group_abc futures_cab []
  = Done (Err S3Error, ReadGroup.Make, ["A"; "B"; "C"],
          Futures.mk (Futures.schedule futures_cab) 3, ["A"; "B"; "C"]).
Proof. reflexivity. Qed.

Example unresolved_future_blocks :
  ReadGroup.Finish group_abc (Futures.mk [(2%nat, ResultSuccess)] 0) []
  = Blocked.
Proof. reflexivity. Qed.

(* ===================================================================== *)
(** ** Concrete runs *)
(* ===================================================================== *)

Lemma S3Delete_batches_witness :
  S3Delete remote_ok join_slash "b" "dir" ["x"; "y"] world0
  = (Done ResultSuccess,
     logged [Sync (DeleteObjects "b" ["dir/x"; "dir/y"])] world0).
Proof.
  exact (proj1 (S3Delete_batches remote_ok join_slash "b" "dir" ["x"; "y"]
                  world0 ltac:(discriminate) eq_refl ltac:(simpl; lia))).
Defined.

(** Scenario: [2 * kS3MaxDelete + 1] keys and a store that rejects the
    second batch.  Three batched calls go out, of 995, 995 and 1 keys, and
    the error of the second batch is what is returned. *)
Example S3Delete_second_batch_fails :
  let run := S3Delete (remote_rejecting "dir/1000") join_slash "b" "dir"
                      (numbered_files 1991) world0 in
  fst run = Done (Err S3Error)
  /\ batch_sizes (calls (snd run)) = [995; 995; 1]%nat.
Proof. vm_compute. split; reflexivity. Qed.

Lemma completion_manifest_in_part_order_witness :
  S3UploadOverwrite remote_etags arrival_reversed "b" "o" 0 (3 * MB 8) world0
  = (Done ResultSuccess,
     logged [Sync (CreateMultipartUpload "b" "o");
             Async (UploadPart "b" "o" "upload-1" 1 0 (MB 8));
             Async (UploadPart "b" "o" "upload-1" 2 (MB 8) (MB 8));
             Async (UploadPart "b" "o" "upload-1" 3 (2 * MB 8) (MB 8));
             Sync (CompleteMultipartUpload "b" "o" "upload-1"
                     [(1, "etag-1"); (2, "etag-2"); (3, "etag-3")])]
            world0).
Proof.
  refine (proj1 (proj1 (completion_manifest_in_part_order remote_etags
                          arrival_reversed "b" "o" 0 (3 * MB 8)
                          (SegmentedBufferView.mk 0 0 (3 * MB 8) (MB 8)) world0
                          eq_refl _ eq_refl _)
                       eq_refl _)).
  - vm_compute. split; [discriminate|reflexivity].
  - apply reverse_Permutation.
  - vm_compute. repeat constructor.
Defined.

(** Scenario: the store rejects the second of three parts.  All three parts
    were dispatched, the handler of the second ends the process, and no
    completion request goes out. *)
Example put_with_rejected_part :
  S3UploadOverwrite (remote_rejecting_part 2) arrival_reversed "b" "o" 0
                    (3 * MB 8) world0
  = (Aborted,
     logged [Sync (CreateMultipartUpload "b" "o");
             Async (UploadPart "b" "o" "upload-1" 1 0 (MB 8));
             Async (UploadPart "b" "o" "upload-1" 2 (MB 8) (MB 8));
             Async (UploadPart "b" "o" "upload-1" 3 (2 * MB 8) (MB 8))]
            world0).
Proof. vm_compute. reflexivity. Qed.

(** C6, with the synchronous put for every put, fails on [S3PutAsync]:
    for a payload of 4 KB it returns a future having issued nothing, the
    future issues its one [PutObject] through [PutObjectAsync], and no
    blocking [PutObject] is ever issued. *)
Lemma S3PutAsync_small_put_is_not_synchronous :
  4096 < kS3DefaultBufSize
  /\ S3PutAsync remote_ok arrival_in_order "b" "o" 0 4096 world0
     = (Done (Ok (Some (mkFileAsyncWork
                          (put_single_future remote_ok "b" "o" 0 4096)))),
        world0)
  /\ calls (snd (put_single_future remote_ok "b" "o" 0 4096 world0))
     = [Async (PutObject "b" "o" 0 4096)]
  /\ Sync (PutObject "b" "o" 0 4096)
     ∉ calls (snd (put_single_future remote_ok "b" "o" 0 4096 world0)).
Proof.
  split; [reflexivity|]. split; [reflexivity|]. split; [reflexivity|].
  intros Hin. apply list_elem_of_singleton in Hin. discriminate Hin.
Qed.

Lemma put_routes_by_size_witness :
  S3UploadOverwrite remote_ok arrival_in_order "b" "o" 0 4096 world0
  = (Done ResultSuccess, logged [Sync (PutObject "b" "o" 0 4096)] world0).
Proof.
  exact (proj1 (proj1 (put_routes_by_size remote_ok arrival_in_order "b" "o"
                         0 4096 world0 eq_refl ltac:(lia))
                      eq_refl)).
Defined.

(** Scenario: a put of 4 KB takes the single put, and the size of the
    object is what a head request then reports. *)
Example put_4k_then_head :
  fst (S3UploadOverwrite remote_4k arrival_in_order "b" "o" 0 4096 world0)
  = Done ResultSuccess
  /\ calls (snd (S3UploadOverwrite remote_4k arrival_in_order "b" "o" 0 4096
                                   world0))
     = [Sync (PutObject "b" "o" 0 4096)]
  /\ fst (S3GetSize remote_4k "b" "o" world0) = Done (Ok 4096).
Proof. repeat split. Qed.

(** Scenario: ten default segments make ten parts, numbered 1 to 10 in
    the manifest although the completions arrive in reverse. *)
Example put_ten_segments :
  let run := put_multi_future remote_etags arrival_reversed "b" "o" 0
                              (10 * kS3DefaultBufSize) world0 in
  fst run = Done ResultSuccess
  /\ last (calls (snd run))
     = Some (Callable
               (CompleteMultipartUpload "b" "o" "upload-1"
                  [(1, "etag-1"); (2, "etag-2"); (3, "etag-3"); (4, "etag-4");
                   (5, "etag-5"); (6, "etag-6"); (7, "etag-7"); (8, "etag-8");
                   (9, "etag-9"); (10, "etag-10")]))
  /\ length (calls (snd run)) = 12%nat.
Proof. vm_compute. repeat split. Qed.

Lemma S3ListAsync_relative_names_witness :
  exists names,
    names_of "dir" ["dir/a"; "dir/b"; "dir/c"] names
    /\ list_pages remote_two_pages 2 "b" "dir" 7 "" world0
       = (Done ResultSuccess,
          emplaced_all 7 names
            (logged [Sync (ListObjectsV2 "b" "dir" None);
                     Sync (ListObjectsV2 "b" "dir" (Some "next"))] world0))
    /\ sets (snd (list_pages remote_two_pages 2 "b" "dir" 7 "" world0)) !!! 7
       = list_to_set names ∪ (sets world0 !!! 7).
Proof.
  destruct (S3ListAsync_relative_names remote_two_pages 2 "b" "dir" 7
              [remote_two_pages (ListObjectsV2 "b" "dir" None);
               remote_two_pages (ListObjectsV2 "b" "dir" (Some "next"))]
              world0 eq_refl)
    as (_ & _ & Hvalid & _).
  - apply (page_more remote_two_pages "b" "dir" "");
      [reflexivity|reflexivity|discriminate|].
    apply (page_last remote_two_pages "b" "dir" "next"); reflexivity.
  - simpl. lia.
  - apply Hvalid. repeat constructor; eexists; reflexivity.
Defined.

Example list_two_pages :
  list_pages remote_two_pages 2 "b" "dir" 7 "" world0
  = (Done ResultSuccess,
     mkWorld true [Sync (ListObjectsV2 "b" "dir" None);
                   Sync (ListObjectsV2 "b" "dir" (Some "next"))]
             ∅ {[ 7 := {[ "a"; "b"; "c" ]} ]}).
Proof. vm_compute. reflexivity. Qed.

Example list_stray_key_aborts :
  fst (list_pages remote_stray_key 1 "b" "dir" 7 "" world0) = Aborted.
Proof. reflexivity. Qed.

(* ===================================================================== *)
(** ** Existence, initialisation, segment size *)
(* ===================================================================== *)

Section Monad.




Lemma keeps_ret {A} (R : World -> World -> Prop) (a : A) :
Reflexive R -> keeps R (ret a).
Proof. intros HR w. apply HR. Qed.

Lemma keeps_lift {A} (R : World -> World -> Prop) (r : Run A) :
Reflexive R -> keeps R (lift r).
Proof. intros HR w. apply HR. Qed.

Lemma keeps_abort {A} (R : World -> World -> Prop) :
Reflexive R -> keeps R (@abort A).
Proof. intros HR w. apply HR. Qed.

Lemma keeps_block {A} (R : World -> World -> Prop) :
Reflexive R -> keeps R (@block A).
Proof. intros HR w. apply HR. Qed.

Lemma keeps_assert (R : World -> World -> Prop) c :
Reflexive R -> keeps R (GALOIS_LOG_ASSERT c).
Proof. intros HR. destruct c; [apply keeps_ret|apply keeps_abort]; exact HR. Qed.

Lemma keeps_assert_init (R : World -> World -> Prop) :
Reflexive R -> keeps R (fun w => GALOIS_LOG_ASSERT (library_init w) w).
Proof. intros HR w. destruct (library_init w); apply HR. Qed.

Lemma keeps_bind {A B} (R : World -> World -> Prop) (m : M A) (f : A -> M B) :
Transitive R -> keeps R m -> (forall a, keeps R (f a)) -> keeps R (bind m f).
Proof.
intros HR Hm Hf w. specialize (Hm w). unfold bind.
destruct (m w) as [[a| |] w']; simpl in Hm; [|exact Hm|exact Hm].
eapply HR; [exact Hm|apply Hf].
Qed.

Lemma keeps_foldM {A B} (R : World -> World -> Prop) (f : A -> B -> M A) l :
Reflexive R -> Transitive R ->
(forall a b, keeps R (f a b)) -> forall a, keeps R (foldM f a l).
Proof.
intros Hrefl Htrans Hf. induction l as [|b l IH]; intros a; cbn [foldM].
- apply keeps_ret, Hrefl.
- apply keeps_bind; [exact Htrans|apply Hf|exact IH].
Qed.

Global Instance only_logged_refl : Reflexive only_logged.
Proof. intros w. repeat split. Qed.

Global Instance only_logged_trans : Transitive only_logged.
Proof.
intros w1 w2 w3 (H1 & H2 & H3) (H4 & H5 & H6).
repeat split; congruence.
Qed.

Global Instance only_listed_refl list : Reflexive (only_listed list).
Proof. intros w. repeat split; auto. Qed.

Global Instance only_listed_trans list : Transitive (only_listed list).
Proof.
intros w1 w2 w3 (H1 & H2 & H3 & H4) (H5 & H6 & H7 & H8).
split; [congruence|]. split; [congruence|]. split.
- intros other Hne. rewrite H7, H3 by exact Hne. reflexivity.
- etransitivity; eassumption.
Qed.
End Monad.

Section ExistsInit.
Context (remote : Request -> Response).
Context (arrival : nat -> list nat).
Context (JoinPath : string -> string -> string).

(** X1.  Once the library is initialised, [S3Exists] issues exactly one
  blocking [HeadObject] request and never reports an error: whatever goes
  wrong with the request is the answer [false].  It answers [true] exactly
  when [S3GetSize] on the same store returns a size. *)
Theorem S3Exists_never_fails bucket object w :
library_init w = true ->
S3Exists remote bucket object w
= (Done (Ok (IsSuccess (remote (HeadObject bucket object)))),
   logged [Sync (HeadObject bucket object)] w)
/\ (fst (S3Exists remote bucket object w) = Done (Ok true)
    <-> exists n, fst (S3GetSize remote bucket object w) = Done (Ok n)).
Proof.
intros Hinit.
assert (S3Exists remote bucket object w
        = (Done (Ok (IsSuccess (remote (HeadObject bucket object)))),
           logged [Sync (HeadObject bucket object)] w)) as Hrun.
{ unfold S3Exists.
  erewrite bind_run by (apply GetS3Client_run; exact Hinit).
  erewrite bind_run by (apply send_plain; reflexivity).
  cbn [request_of].
  destruct (IsSuccess (remote (HeadObject bucket object))); reflexivity. }
split; [exact Hrun|].
rewrite Hrun, (S3GetSize_run remote bucket object w Hinit). cbn [fst].
unfold CheckS3Error.
destruct (IsSuccess (remote (HeadObject bucket object))).
- split; [intros _; eexists; reflexivity|reflexivity].
- split; [discriminate|]. intros [n Hn].
  destruct (GetResponseCode _ =? MOVED_PERMANENTLY); discriminate.
Qed.

Lemma GetS3Client_uninit w :
library_init w = false -> GetS3Client w = (Aborted, w).
Proof. intros H. unfold GetS3Client. rewrite H. reflexivity. Qed.

Lemma assert_init_uninit w :
library_init w = false ->
(fun w => GALOIS_LOG_ASSERT (library_init w) w) w = (Aborted, w).
Proof. intros H. cbv beta. rewrite H. reflexivity. Qed.

Lemma S3SendDelete_uninit aws_objs bucket w :
library_init w = false ->
S3SendDelete remote aws_objs bucket w = (Aborted, w).
Proof.
intros H. unfold S3SendDelete.
apply bind_aborted, GetS3Client_uninit, H.
Qed.

Lemma S3Delete_loop_uninit bucket object files :
forall index aws_objs res w,
  library_init w = false ->
  files <> [] \/ aws_objs <> [] ->
  bind (S3Delete_loop remote JoinPath bucket object files index aws_objs res)
       (S3Delete_rest remote bucket) w
  = (Aborted, w).
Proof.
induction files as [|file files IH]; intros index aws_objs res w Hinit Hne.
- destruct Hne as [Hne|Hne]; [congruence|].
  cbn [S3Delete_loop]. rewrite bind_ret_l. cbn [S3Delete_rest].
  destruct aws_objs as [|x objs]; [congruence|].
  cbn [length Nat.ltb Nat.leb].
  apply bind_aborted, S3SendDelete_uninit, Hinit.
- cbn [S3Delete_loop]. rewrite bind_assoc.
  destruct (negb (index =? 0) && (index mod kS3MaxDelete =? 0)).
  + rewrite bind_assoc.
    apply bind_aborted, S3SendDelete_uninit, Hinit.
  + rewrite bind_ret_l. apply IH; [exact Hinit|].
    right. intros E. destruct aws_objs; discriminate.
Qed.

(** X2.  Before [S3Init] has run, every entry point that reaches a client
  ends the process on the initialisation assertion without having issued
  a request: [S3GetSize], [S3Exists], [S3UploadOverwrite] of any size,
  [S3DownloadRange] of any size, [S3Delete] of a non-empty set,
  [S3ListAsync] and the futures of [S3PutAsync].  [S3Delete] of an empty
  set returns success all the same, and [S3Init] leaves an initialised
  world behind. *)
Theorem calls_before_S3Init_abort bucket object data size start result_buf
      files list fuel w :
library_init w = false ->
S3GetSize remote bucket object w = (Aborted, w)
/\ S3Exists remote bucket object w = (Aborted, w)
/\ S3UploadOverwrite remote arrival bucket object data size w = (Aborted, w)
/\ S3DownloadRange remote arrival bucket object start size result_buf w
   = (Aborted, w)
/\ (files <> [] ->
    S3Delete remote JoinPath bucket object files w = (Aborted, w))
/\ S3Delete remote JoinPath bucket object [] w = (Done ResultSuccess, w)
/\ S3ListAsync remote fuel bucket object list w = (Aborted, w)
/\ put_single_future remote bucket object data size w = (Aborted, w)
/\ put_multi_future remote arrival bucket object data size w = (Aborted, w)
/\ library_init (snd (S3Init w)) = true.
Proof.
intros Hinit.
split; [apply bind_aborted, GetS3Client_uninit, Hinit|].
split; [apply bind_aborted, GetS3Client_uninit, Hinit|].
split.
{ unfold S3UploadOverwrite, S3PutSingleSync.
  destruct (size <? kS3DefaultBufSize);
    apply bind_aborted, GetS3Client_uninit, Hinit. }
split; [apply bind_aborted, GetS3Client_uninit, Hinit|].
split.
{ intros Hne. unfold S3Delete.
  destruct files as [|file files]; [congruence|]. cbn [length Nat.eqb].
  rewrite <- (S3Delete_loop_uninit bucket object (file :: files) 0 []
                ResultSuccess w Hinit ltac:(left; discriminate)).
  unfold bind, S3Delete_rest.
  destruct (S3Delete_loop remote JoinPath bucket object (file :: files)
                          0 [] ResultSuccess w) as [[[objs res]| |] w'];
    reflexivity. }
split; [reflexivity|].
split; [apply bind_aborted, assert_init_uninit, Hinit|].
split.
{ unfold put_single_future, S3PutSingleAsync. rewrite !bind_assoc.
  apply bind_aborted, assert_init_uninit, Hinit. }
split; [|reflexivity].
unfold put_multi_future, S3PutMultiAsync1. rewrite !bind_assoc.
apply bind_aborted, assert_init_uninit, Hinit.
Qed.

End ExistsInit.

Section SegmentSize.
Import SegmentedBufferView.



End SegmentSize.

(* ===================================================================== *)
(** ** Ranged downloads *)
(* ===================================================================== *)

Section Download.
Import SegmentedBufferView.
Context (remote : Request -> Response).
Context (arrival : nat -> list nat).

Lemma received_app reqs1 reqs2 w :
received remote (reqs1 ++ reqs2) w
= received remote reqs2 (received remote reqs1 w).
Proof. unfold received. apply foldl_app. Qed.

Lemma received_frame reqs :
forall w,
  library_init (received remote reqs w) = library_init w
  /\ sets (received remote reqs w) = sets w
  /\ calls (received remote reqs w) = calls w ++ (Async <$> reqs).
Proof.
induction reqs as [|r reqs IH]; intros w.
- cbn. rewrite app_nil_r. auto.
- cbn [received foldl]. unfold received in IH.
  destruct (IH (mkWorld (library_init w) (calls w ++ [Async r])
                        (deliver r (remote r) (memory w)) (sets w)))
    as (H1 & H2 & H3).
  rewrite H1, H2, H3. cbn [library_init sets calls fmap list_fmap].
  rewrite <- app_assoc. auto.
Qed.

Lemma get_parts_run bucket object parts :
forall w,
  get_parts remote bucket object parts w
  = (Done (remote <$> get_requests bucket object parts),
     received remote (get_requests bucket object parts) w).
Proof.
induction parts as [|p ps IH]; intros w; [reflexivity|].
cbn [get_parts get_requests fmap list_fmap].
erewrite bind_run by reflexivity.
erewrite bind_run by apply IH.
reflexivity.
Qed.

Lemma SegmentBuf_parts_count start data size v :
0 <= size < 2 ^ 64 ->
SegmentBuf start data size = Done v ->
Z.of_nat (length (parts v)) < 2 ^ 64.
Proof.
intros Hsize Hv.
destruct (SegmentBuf_view _ _ _ _ Hv) as (E1 & E2 & E3 & Hmin).
pose proof kS3MinBufSize_pos as Hpos.
rewrite parts_length.
pose proof (NumSegments_bounds v ltac:(lia) ltac:(lia)) as (Hlb & _ & Hn).
rewrite Z2Nat.id by exact Hn.
destruct (Z.eqb_spec (size_ v) 0) as [E0|E0]; simpl in Hlb; nia.
Qed.

Lemma success_or_failure (reqs : list Request) :
Forall (fun r => IsSuccess (remote r) = true) reqs
\/ Exists (fun r => IsSuccess (remote r) = false) reqs.
Proof.
induction reqs as [|r reqs [IH|IH]].
- left. constructor.
- destruct (IsSuccess (remote r)) eqn:E.
  + left. constructor; assumption.
  + right. left. exact E.
- right. right. exact IH.
Qed.

Lemma download_callbacks_run (outcomes : list Response) :
Forall (fun o => IsSuccess o = true) outcomes ->
forall (order : list nat) (finished : Z),
  Forall (fun i => (i < length outcomes)%nat) order ->
  0 <= finished -> finished + Z.of_nat (length order) < 2 ^ 64 ->
  run_foldl (download_callback outcomes) finished order
  = Done (finished + Z.of_nat (length order)).
Proof.
intros Hok. induction order as [|i order IH]; intros finished Hord Hfin Hfit.
- cbn. rewrite Z.add_0_r. reflexivity.
- apply Forall_cons in Hord as [Hi Hord'].
  destruct (lookup_lt_is_Some_2 outcomes i Hi) as [o Ho].
  pose proof (proj1 (Forall_lookup _ _) Hok i o Ho) as Hs. simpl in Hs.
  cbn [run_foldl length] in *. unfold download_callback at 1.
  rewrite Ho, Hs. cbn [run_bind]. rewrite wrap64_small by lia.
  rewrite IH by (assumption || lia). f_equal. lia.
Qed.

Lemma download_callbacks_abort (outcomes : list Response) :
forall (order : list nat) (finished : Z),
  Exists (rejected outcomes) order ->
  run_foldl (download_callback outcomes) finished order = Aborted.
Proof.
induction order as [|i order IH]; intros finished Hex.
- inversion Hex.
- cbn [run_foldl]. unfold download_callback at 1.
  destruct (outcomes !! i) as [o|] eqn:Ho.
  + destruct (IsSuccess o) eqn:Hs; [|reflexivity].
    cbn [run_bind]. apply IH.
    apply Exists_cons in Hex as [(o' & Ho' & Hfail)|Hex]; [|exact Hex].
    congruence.
  + cbn [run_bind]. apply IH.
    apply Exists_cons in Hex as [(o' & Ho' & Hfail)|Hex]; [|exact Hex].
    congruence.
Qed.

(** The handlers of [S3GetMultiAsync], run in any order that visits only
  dispatched parts while the semaphore expects that many. *)
Lemma sema_callbacks_run (outcomes : list Response) :
Forall (fun o => IsSuccess o = true) outcomes ->
forall (order : list nat) (sema : CountingSemaphore.t),
  Forall (fun i => (i < length outcomes)%nat) order ->
  CountingSemaphore.remaining sema = Z.of_nat (length order) ->
  run_foldl (fun s i => match outcomes !! i with
                        | Some outcome => sema_callback s outcome
                        | None => Done s
                        end) sema order
  = Done (CountingSemaphore.mk (CountingSemaphore.goal sema) 0).
Proof.
intros Hok. induction order as [|i order IH]; intros sema Hord Hrem.
- cbn. destruct sema as [g r]. cbn in Hrem. subst r. reflexivity.
- apply Forall_cons in Hord as [Hi Hord'].
  destruct (lookup_lt_is_Some_2 outcomes i Hi) as [o Ho].
  pose proof (proj1 (Forall_lookup _ _) Hok i o Ho) as Hs. simpl in Hs.
  cbn [run_foldl length] in *. rewrite Ho. unfold sema_callback at 1.
  rewrite Hs. unfold CountingSemaphore.GoalMinusOne.
  replace (CountingSemaphore.remaining sema >? 0) with true
    by (symmetry; apply Z.gtb_lt; lia).
  cbn [run_bind]. rewrite IH; [reflexivity|exact Hord'|cbn; lia].
Qed.

Lemma sema_callbacks_abort (outcomes : list Response) :
forall (order : list nat) (sema : CountingSemaphore.t),
  Exists (rejected outcomes) order ->
  run_foldl (fun s i => match outcomes !! i with
                        | Some outcome => sema_callback s outcome
                        | None => Done s
                        end) sema order
  = Aborted.
Proof.
induction order as [|i order IH]; intros sema Hex.
- inversion Hex.
- cbn [run_foldl].
  destruct (outcomes !! i) as [o|] eqn:Ho.
  + unfold sema_callback at 1.
    destruct (IsSuccess o) eqn:Hs; [|reflexivity].
    unfold CountingSemaphore.GoalMinusOne.
    destruct (CountingSemaphore.remaining sema >? 0); [|reflexivity].
    cbn [run_bind]. apply IH.
    apply Exists_cons in Hex as [(o' & Ho' & Hfail)|Hex]; [|exact Hex].
    congruence.
  + cbn [run_bind]. apply IH.
    apply Exists_cons in Hex as [(o' & Ho' & Hfail)|Hex]; [|exact Hex].
    congruence.
Qed.

Lemma S3DownloadRange_many_run bucket object start size result_buf v w :
library_init w = true ->
0 <= size < 2 ^ 64 ->
SegmentBuf start result_buf size = Done v ->
arrival (length (parts v)) ≡ₚ seq 0 (length (parts v)) ->
(1 < length (parts v))%nat ->
(Forall (fun r => IsSuccess (remote r) = true)
        (get_requests bucket object (parts v)) ->
 S3DownloadRange remote arrival bucket object start size result_buf w
 = (Done ResultSuccess,
    received remote (get_requests bucket object (parts v)) w))
/\ (Exists (fun r => IsSuccess (remote r) = false)
           (get_requests bucket object (parts v)) ->
    S3DownloadRange remote arrival bucket object start size result_buf w
    = (Aborted, received remote (get_requests bucket object (parts v)) w)).
Proof.
intros Hinit Hsize Hv Hperm Hmany.
pose proof (SegmentBuf_parts_count start result_buf size v Hsize Hv) as Hfit.
set (ps := parts v) in *.
set (reqs := get_requests bucket object ps).
assert (length (remote <$> reqs) = length ps) as Hlen
    by (unfold reqs, get_requests; rewrite !length_fmap; reflexivity).
destruct (permutation_in_range _ _ Hperm) as [Hrange Hlenord].
assert (S3DownloadRange remote arrival bucket object start size result_buf w
        = (outcomes <- get_parts remote bucket object ps ;;
           finished <- lift (run_foldl (download_callback outcomes) 0
                                       (arrival (length outcomes))) ;;
           if finished <? Z.of_nat (length ps) then block
           else ret ResultSuccess) w) as ->.
{ unfold S3DownloadRange.
  erewrite bind_run by (apply GetS3Client_run; exact Hinit).
  rewrite Hv. erewrite bind_run by reflexivity. fold ps.
  destruct ps as [|p1 [|p2 ps']]; cbn [length] in Hmany; [lia|lia|].
  reflexivity. }
erewrite bind_run by apply get_parts_run.
fold reqs. rewrite Hlen.
split.
- intros Hok.
  rewrite download_callbacks_run;
    [|apply Forall_fmap; exact Hok|rewrite Hlen; exact Hrange|lia|lia].
  erewrite bind_run by reflexivity.
  rewrite Hlenord, Z.add_0_l, Z.ltb_irrefl. reflexivity.
- intros Hbad.
  rewrite download_callbacks_abort; [reflexivity|].
  apply rejected_in_order; [rewrite Hlen; exact Hperm|].
  apply Exists_fmap. exact Hbad.
Qed.

(** X4.  [S3DownloadRange], once the library is initialised and the view
  is built: with no part it returns success and issues nothing; with one
  part it issues one blocking [GetObject] and a failure comes back as an
  error value ([S3Error], or [AWSWrongRegion] on a redirect); with several
  parts it dispatches one [GetObject] per part, returns success when the
  store accepts them all, and when the store rejects one the handler of
  that part ends the process: no error value is returned on that path. *)
Theorem S3DownloadRange_by_part_count bucket object start size result_buf v w :
library_init w = true ->
0 <= size < 2 ^ 64 ->
SegmentBuf start result_buf size = Done v ->
arrival (length (parts v)) ≡ₚ seq 0 (length (parts v)) ->
(parts v = [] ->
 S3DownloadRange remote arrival bucket object start size result_buf w
 = (Done ResultSuccess, w))
/\ (forall part,
       parts v = [part] ->
       S3DownloadRange remote arrival bucket object start size result_buf w
       = (Done (CheckS3Error
                  (remote (PrepareObjectRequest bucket object part))),
          mkWorld (library_init w)
                  (calls w
                   ++ [Sync (PrepareObjectRequest bucket object part)])
                  (deliver (PrepareObjectRequest bucket object part)
                           (remote (PrepareObjectRequest bucket object part))
                           (memory w))
                  (sets w)))
/\ ((1 < length (parts v))%nat ->
    (Forall (fun r => IsSuccess (remote r) = true)
            (get_requests bucket object (parts v)) ->
     S3DownloadRange remote arrival bucket object start size result_buf w
     = (Done ResultSuccess,
        received remote (get_requests bucket object (parts v)) w))
    /\ (Exists (fun r => IsSuccess (remote r) = false)
               (get_requests bucket object (parts v)) ->
        S3DownloadRange remote arrival bucket object start size result_buf w
        = (Aborted,
           received remote (get_requests bucket object (parts v)) w))).
Proof.
intros Hinit Hsize Hv Hperm.
split; [|split].
- intros Eps. unfold S3DownloadRange.
  erewrite bind_run by (apply GetS3Client_run; exact Hinit).
  rewrite Hv. erewrite bind_run by reflexivity. rewrite Eps. reflexivity.
- intros part Eps. unfold S3DownloadRange.
  erewrite bind_run by (apply GetS3Client_run; exact Hinit).
  rewrite Hv. erewrite bind_run by reflexivity. rewrite Eps.
  erewrite bind_run by reflexivity. cbn [request_of].
  destruct (CheckS3Error (remote (PrepareObjectRequest bucket object part)))
    as [[]|e]; reflexivity.
- intros Hmany.
  exact (S3DownloadRange_many_run bucket object start size result_buf v w
           Hinit Hsize Hv Hperm Hmany).
Qed.

(** X5.  The future of [S3GetAsync] for a view with at least one part
  dispatches one [GetObject] per part and returns success when the store
  accepts them all; when the store rejects one, the handler of that part
  ends the process.  For a view of several parts the future and
  [S3DownloadRange] do the same: same requests, same bytes delivered, same
  outcome (the log records how a request is dispatched, not through which
  client object). *)
Theorem get_future_all_or_abort bucket object start size result_buf v w :
library_init w = true ->
0 <= size < 2 ^ 64 ->
SegmentBuf start result_buf size = Done v ->
arrival (length (parts v)) ≡ₚ seq 0 (length (parts v)) ->
(parts v <> [] ->
 (Forall (fun r => IsSuccess (remote r) = true)
         (get_requests bucket object (parts v)) ->
  get_future remote arrival bucket object start size result_buf w
  = (Done ResultSuccess,
     received remote (get_requests bucket object (parts v)) w))
 /\ (Exists (fun r => IsSuccess (remote r) = false)
            (get_requests bucket object (parts v)) ->
     get_future remote arrival bucket object start size result_buf w
     = (Aborted, received remote (get_requests bucket object (parts v)) w)))
/\ ((1 < length (parts v))%nat ->
    get_future remote arrival bucket object start size result_buf w
    = S3DownloadRange remote arrival bucket object start size result_buf w).
Proof.
intros Hinit Hsize Hv Hperm.
set (ps := parts v) in *.
set (reqs := get_requests bucket object ps).
assert (length (remote <$> reqs) = length ps) as Hlen
    by (unfold reqs, get_requests; rewrite !length_fmap; reflexivity).
destruct (permutation_in_range _ _ Hperm) as [Hrange Hlenord].
assert (ps <> [] ->
        (Forall (fun r => IsSuccess (remote r) = true) reqs ->
         get_future remote arrival bucket object start size result_buf w
         = (Done ResultSuccess, received remote reqs w))
        /\ (Exists (fun r => IsSuccess (remote r) = false) reqs ->
            get_future remote arrival bucket object start size result_buf w
            = (Aborted, received remote reqs w))) as Hfuture.
{ intros Hne.
  assert (S3GetMultiAsync remote bucket object start size result_buf
                          CountingSemaphore.init w
          = (Done (ResultSuccess,
                   CountingSemaphore.mk (Z.of_nat (length ps))
                                        (Z.of_nat (length ps)),
                   remote <$> reqs),
             received remote reqs w)) as Hmulti.
  { unfold S3GetMultiAsync. rewrite Hv.
    erewrite bind_run by reflexivity. fold ps.
    rewrite bool_decide_eq_false_2 by exact Hne.
    erewrite bind_run by reflexivity.
    erewrite bind_run by (apply async_s3_client_run; exact Hinit).
    erewrite bind_run by apply get_parts_run.
    reflexivity. }
  unfold get_future.
  erewrite bind_run by exact Hmulti. cbv beta iota. cbn [ResultSuccess].
  rewrite Hlen.
  destruct (received_frame reqs w) as (Hinit' & _ & _).
  split.
  - intros Hok.
    rewrite sema_callbacks_run;
      [|apply Forall_fmap; exact Hok|rewrite Hlen; exact Hrange
       |cbn; rewrite Hlenord; reflexivity].
    erewrite bind_run by reflexivity.
    reflexivity.
  - intros Hbad.
    rewrite sema_callbacks_abort; [reflexivity|].
    apply rejected_in_order; [rewrite Hlen; exact Hperm|].
    apply Exists_fmap. exact Hbad. }
split; [exact Hfuture|].
intros Hmany.
destruct (S3DownloadRange_many_run bucket object start size
            result_buf v w Hinit Hsize Hv Hperm Hmany) as [Hok Hbad].
fold ps in Hok, Hbad. fold reqs in Hok, Hbad.
destruct Hfuture as [Hok' Hbad'].
{ intros E. rewrite E in Hmany. simpl in Hmany. lia. }
destruct (success_or_failure reqs) as [H|H].
- rewrite (Hok H), (Hok' H). reflexivity.
- rewrite (Hbad H), (Hbad' H). reflexivity.
Qed.
End Download.

(* ===================================================================== *)
(** ** What a download may write *)
(* ===================================================================== *)

Section Frames.
Import SegmentedBufferView.
Context (remote : Request -> Response).
Context (arrival : nat -> list nat).

Global Instance writes_within_refl lo hi : Reflexive (writes_within lo hi).
Proof. intros w a _. reflexivity. Qed.

Global Instance writes_within_trans lo hi : Transitive (writes_within lo hi).
Proof.
intros w1 w2 w3 H12 H23 a Ha. rewrite (H23 a Ha). apply H12, Ha.
Qed.

Lemma keeps_bind_lift {A B} (R : World -> World -> Prop) (r : Run A)
    (f : A -> M B) :
Reflexive R -> (forall a, r = Done a -> keeps R (f a)) ->
keeps R (bind (lift r) f).
Proof.
intros HR Hf w. unfold bind, lift.
destruct r as [a| |]; [apply (Hf a eq_refl)|apply HR|apply HR].
Qed.

Lemma store_bytes_outside bytes :
forall dest m a,
  a < dest \/ dest + Z.of_nat (length bytes) <= a ->
  store_bytes dest bytes m !! a = m !! a.
Proof.
induction bytes as [|b bs IH]; intros dest m a Ha; [reflexivity|].
cbn [store_bytes]. cbn [length] in Ha.
rewrite IH by lia. apply lookup_insert_ne. lia.
Qed.

(** The stream of a part's [GetObject] takes at most one byte more than the
  part is long, and no more than the response holds. *)
Lemma deliver_within buf size hi bucket object part resp m :
lands_within buf size part ->
BufPart.dest part
+ Z.min (BufPart.len part + 1) (Z.of_nat (length (GetBody resp))) <= hi ->
untouched_outside buf hi m
                  (deliver (PrepareObjectRequest bucket object part) resp m).
Proof.
intros (Hlo & Hpos & Hin & Hfit) Hhi a Ha.
unfold PrepareObjectRequest, deliver, BufPart.len in *.
destruct (IsSuccess resp); [|reflexivity].
apply store_bytes_outside.
rewrite length_take, wrap64_small by lia. lia.
Qed.

Lemma keeps_send lo hi c :
(forall m, untouched_outside lo hi m
             (deliver (request_of c) (remote (request_of c)) m)) ->
keeps (writes_within lo hi) (send remote c).
Proof. intros H w. apply H. Qed.

Lemma keeps_get_parts lo hi bucket object parts :
Forall (fun part =>
          forall m,
            untouched_outside lo hi m
              (deliver (PrepareObjectRequest bucket object part)
                       (remote (PrepareObjectRequest bucket object part)) m))
       parts ->
keeps (writes_within lo hi) (get_parts remote bucket object parts).
Proof.
induction 1 as [|part parts Hpart _ IH]; cbn [get_parts].
- apply keeps_ret. tc_solve.
- apply keeps_bind; [tc_solve|apply keeps_send; exact Hpart|intros o].
  apply keeps_bind; [tc_solve|exact IH|intros os].
  apply keeps_ret. tc_solve.
Qed.

Lemma view_lands_within start dest size segment_size :
0 <= start -> 0 <= size -> 0 < segment_size -> start + size < 2 ^ 64 ->
0 <= dest -> dest + size < 2 ^ 64 -> segment_size + 1 < 2 ^ 64 ->
Forall (lands_within dest size) (parts (mk start dest size segment_size)).
Proof.
intros Hstart Hsz Hseg Hfit Hdest Hdfit Hsfit. unfold parts.
pose proof (NumSegments_bounds (mk start dest size segment_size) Hseg Hsz)
  as (Hlb & _ & _).
apply Forall_fmap, Forall_forall. intros i Hi.
apply elem_of_seq in Hi. cbn [start_ dest_ size_ segment_size_] in *.
assert (size <> 0) as Hnz.
{ intros E0. unfold NumSegments in Hi. cbn in Hi. rewrite E0 in Hi.
  rewrite Z.div_0_l, Z.mod_0_l in Hi by lia. simpl in Hi. lia. }
assert ((size =? 0) = false) as E by (apply Z.eqb_neq; exact Hnz).
rewrite E in Hlb. simpl in Hlb.
assert (0 <= Z.of_nat i * segment_size) as Hoff0 by nia.
assert (Z.of_nat i * segment_size < size) as Hoff by nia.
unfold lands_within, GetPart.
cbn [BufPart.start BufPart.end_ BufPart.dest start_ dest_ size_
                   segment_size_ compose].
rewrite !wrap64_small by lia. lia.
Qed.

Lemma downloads_frame hi bucket object start size result_buf :
0 <= start -> 0 <= size -> start + size < 2 ^ 64 ->
0 <= result_buf -> result_buf + size < 2 ^ 64 ->
(forall part,
    lands_within result_buf size part ->
    BufPart.dest part
    + Z.min (BufPart.len part + 1)
            (Z.of_nat (length (GetBody
               (remote (PrepareObjectRequest bucket object part)))))
    <= hi) ->
keeps (writes_within result_buf hi)
      (S3DownloadRange remote arrival bucket object start size result_buf)
/\ keeps (writes_within result_buf hi)
         (get_future remote arrival bucket object start size result_buf).
Proof.
intros Hstart Hsz Hfit Hbuf Hbfit Hhi.
assert (forall v,
           SegmentBuf start result_buf size = Done v ->
           Forall (fun part =>
                     forall m,
                       untouched_outside result_buf hi m
                         (deliver (PrepareObjectRequest bucket object part)
                            (remote (PrepareObjectRequest bucket object part))
                            m))
                  (parts v)) as Hparts.
{ intros v Hv.
  assert (0 < kS3DefaultBufSize /\ kS3DefaultBufSize + 1 < 2 ^ 64
          /\ kS3MaxBufSize + 1 < 2 ^ 64) as (Hd0 & Hd1 & Hmax)
      by (vm_compute; repeat split; reflexivity).
  pose proof kS3MinBufSize_pos as Hpos.
  assert (Forall (lands_within result_buf size) (parts v)) as Hlands.
  { unfold SegmentBuf in Hv.
    destruct (size / kS3DefaultBufSize >? kS3MaxMultiPart).
    - destruct (_ && _) eqn:E; [|discriminate].
      apply andb_prop in E as [E1 E2]. injection Hv as <-.
      apply view_lands_within; (assumption || lia).
    - injection Hv as <-.
      apply view_lands_within; (assumption || lia). }
  eapply Forall_impl; [exact Hlands|].
  intros part Hpart m.
  apply (deliver_within result_buf size); [exact Hpart|].
  apply Hhi, Hpart. }
split.
- unfold S3DownloadRange.
  apply keeps_bind; [tc_solve|apply keeps_assert_init; tc_solve|intros _].
  apply keeps_bind_lift; [tc_solve|]. intros v Hv.
  specialize (Hparts v Hv). cbv zeta.
  destruct (parts v) as [|p [|q ps]].
  + apply keeps_ret. tc_solve.
  + apply keeps_bind; [tc_solve| |intros o].
    * apply keeps_send. apply Forall_cons in Hparts as [Hp _]. exact Hp.
    * destruct (CheckS3Error o); apply keeps_ret; tc_solve.
  + apply keeps_bind; [tc_solve|apply keeps_get_parts; exact Hparts|].
    intros os.
    apply keeps_bind; [tc_solve|apply keeps_lift; tc_solve|intros n].
    destruct (n <? _); [apply keeps_block|apply keeps_ret]; tc_solve.
- unfold get_future, S3GetMultiAsync, S3GetMultiAsyncFinish. cbv zeta.
  apply keeps_bind; [tc_solve| |].
  + apply keeps_bind_lift; [tc_solve|]. intros v Hv.
    specialize (Hparts v Hv).
    destruct (bool_decide (parts v = [])); [apply keeps_ret; tc_solve|].
    apply keeps_bind; [tc_solve|apply keeps_lift; tc_solve|intros sema].
    apply keeps_bind; [tc_solve|apply keeps_assert_init; tc_solve|intros _].
    apply keeps_bind; [tc_solve|apply keeps_get_parts; exact Hparts|].
    intros os. apply keeps_ret. tc_solve.
  + intros [[[[]|e] sema] os]; [|apply keeps_ret; tc_solve].
    apply keeps_bind; [tc_solve|apply keeps_lift; tc_solve|intros sema'].
    apply keeps_bind; [tc_solve| |].
    * apply keeps_bind; [tc_solve|apply keeps_lift; tc_solve|intros _].
      apply keeps_ret. tc_solve.
    * intros [[]|e]; apply keeps_ret; tc_solve.
Qed.

(** X6.  Whatever the store answers, a ranged download ([S3DownloadRange]
  or the future of [S3GetAsync]) leaves every byte outside the caller's
  buffer as it was, but for the one byte just past its end: the stream of
  a part is one byte longer than the part.  When the store answers each
  part with no more bytes than its range asks for, that byte is left
  alone as well. *)
Theorem downloads_stay_in_buffer bucket object start size result_buf w :
0 <= start -> 0 <= size -> start + size < 2 ^ 64 ->
0 <= result_buf -> result_buf + size < 2 ^ 64 ->
(untouched_outside result_buf (result_buf + size + 1) (memory w)
   (memory (snd (S3DownloadRange remote arrival bucket object start size
                                 result_buf w)))
 /\ untouched_outside result_buf (result_buf + size + 1) (memory w)
      (memory (snd (get_future remote arrival bucket object start size
                               result_buf w))))
/\ ((forall part,
       lands_within result_buf size part ->
       honours_range remote bucket object part) ->
    untouched_outside result_buf (result_buf + size) (memory w)
      (memory (snd (S3DownloadRange remote arrival bucket object start size
                                    result_buf w)))
    /\ untouched_outside result_buf (result_buf + size) (memory w)
         (memory (snd (get_future remote arrival bucket object start size
                                  result_buf w)))).
Proof.
intros Hstart Hsz Hfit Hbuf Hbfit. split.
- destruct (downloads_frame (result_buf + size + 1) bucket object start size
              result_buf Hstart Hsz Hfit Hbuf Hbfit) as [H1 H2].
  { intros part (Hlo & Hpos & Hin & Hf). unfold BufPart.len. lia. }
  split; [apply H1|apply H2].
- intros Hhon.
  destruct (downloads_frame (result_buf + size) bucket object start size
              result_buf Hstart Hsz Hfit Hbuf Hbfit) as [H1 H2].
  { intros part Hpart. specialize (Hhon part Hpart).
    destruct Hpart as (Hlo & Hpos & Hin & Hf).
    unfold honours_range, BufPart.len in *. lia. }
  split; [apply H1|apply H2].
Qed.
End Frames.

(* ===================================================================== *)
(** ** Which errors come back, and what is left alone *)
(* ===================================================================== *)

Section Taxonomy.
Context (remote : Request -> Response).
Context (arrival : nat -> list nat).
Context (JoinPath : string -> string -> string).


Lemma fails_only_ok {A} codes (a : A) : fails_only codes (Ok a).
Proof. exact I. Qed.






End Taxonomy.

Section Untouched.
Context (remote : Request -> Response).
Context (arrival : nat -> list nat).
Context (JoinPath : string -> string -> string).

Lemma only_logged_listed list w w' : only_logged w w' -> only_listed list w w'.
Proof.
intros (H1 & H2 & H3).
split; [exact H1|]. split; [exact H2|]. split.
- intros other _. rewrite H3. reflexivity.
- rewrite H3. reflexivity.
Qed.

Lemma keeps_weaken {A} (R R' : World -> World -> Prop) (m : M A) :
(forall w w', R w w' -> R' w w') -> keeps R m -> keeps R' m.
Proof. intros HR Hm w. apply HR, Hm. Qed.

(** A request that carries no response stream changes the log alone. *)
Lemma keeps_send_plain c :
(forall resp m, deliver (request_of c) resp m = m) ->
keeps only_logged (send remote c).
Proof.
intros Hplain w. unfold send. cbn [snd]. repeat split. cbn [memory].
apply Hplain.
Qed.

Lemma keeps_emplace list short_name :
keeps (only_listed list) (emplace list short_name).
Proof.
intros w. unfold emplace. cbn [snd].
split; [reflexivity|]. split; [reflexivity|]. split; cbn [sets].
- intros other Hne. apply lookup_insert_ne. congruence.
- rewrite lookup_total_insert_eq. apply union_subseteq_r.
Qed.

Ltac keeps_step :=
match goal with
| |- keeps _ (ret _) => apply keeps_ret; tc_solve
| |- keeps _ abort => apply keeps_abort; tc_solve
| |- keeps _ block => apply keeps_block; tc_solve
| |- keeps _ (lift _) => apply keeps_lift; tc_solve
| |- keeps _ (GALOIS_LOG_ASSERT _) => apply keeps_assert; tc_solve
| |- keeps _ GetS3Client => apply keeps_assert_init; tc_solve
| |- keeps _ async_s3_client => apply keeps_assert_init; tc_solve
| |- keeps _ (fun w => GALOIS_LOG_ASSERT (library_init w) w) =>
    apply keeps_assert_init; tc_solve
| |- keeps only_logged (send _ _) =>
    apply keeps_send_plain; reflexivity
| |- keeps (only_listed _) (send _ _) =>
    apply (keeps_weaken only_logged);
    [apply only_logged_listed|apply keeps_send_plain; reflexivity]
| |- keeps _ (bind _ _) => apply keeps_bind; [tc_solve| |intros ?]
| |- keeps _ (if ?c then _ else _) => destruct c
| |- keeps _ (match ?x with (_, _) => _ end) => destruct x
| |- keeps _ (match ?x with Ok _ => _ | Err _ => _ end) => destruct x
| |- keeps _ (match ?x with Some _ => _ | None => _ end) => destruct x
end.

Lemma keeps_upload_parts bucket object upload_id parts :
forall i,
  keeps only_logged (upload_parts remote bucket object upload_id i parts).
Proof.
induction parts as [|part parts IH]; intros i; cbn [upload_parts].
- keeps_step.
- cbv zeta. keeps_step; [keeps_step|].
  keeps_step; [apply IH|keeps_step].
Qed.

Lemma keeps_S3SendDelete aws_objs bucket :
keeps only_logged (S3SendDelete remote aws_objs bucket).
Proof. unfold S3SendDelete. repeat keeps_step. Qed.

Lemma keeps_S3Delete_loop bucket object files :
forall index aws_objs res,
  keeps only_logged
        (S3Delete_loop remote JoinPath bucket object files index aws_objs
                       res).
Proof.
induction files as [|file files IH]; intros index aws_objs res;
  cbn [S3Delete_loop].
- keeps_step.
- keeps_step.
  + destruct (_ && _); [|keeps_step].
    keeps_step; [apply keeps_S3SendDelete|keeps_step].
  + destruct a as [objs res']. apply IH.
Qed.

Lemma keeps_emplace_short_name object list key :
keeps (only_listed list) (emplace_short_name object list key).
Proof.
unfold emplace_short_name. cbv zeta.
destruct (find object key); [|keeps_step].
repeat keeps_step. apply keeps_emplace.
Qed.

Lemma keeps_list_pages bucket object list fuel :
forall token,
  keeps (only_listed list)
        (list_pages remote fuel bucket object list token).
Proof.
induction fuel as [|fuel IH]; intros token; cbn [list_pages].
- keeps_step.
- cbv zeta. keeps_step; [keeps_step|].
  keeps_step; [keeps_step|].
  destruct (negb (IsSuccess a0)); [keeps_step|].
  keeps_step.
  { apply keeps_foldM; [tc_solve|tc_solve|].
    intros [] key. apply keeps_emplace_short_name. }
  keeps_step; [repeat keeps_step|].
  destruct (0 <? String.length a2)%nat; [apply IH|keeps_step].
Qed.

(** X8.  What the entry points leave alone.  [S3Exists],
  [S3UploadOverwrite], [S3Delete] and both futures of [S3PutAsync] change
  nothing but the log of requests: no byte of memory, no name set, not
  the initialisation flag, whatever the store answers and however the
  call ends.  The listing future writes to the name set behind its
  pointer alone, and only adds names to it.  ([S3GetSize] is not among
  them: it stores the size through its [size] pointer.) *)
Theorem entry_points_leave_alone bucket object data size files list fuel
      token :
keeps only_logged (S3Exists remote bucket object)
/\ keeps only_logged
         (S3UploadOverwrite remote arrival bucket object data size)
/\ keeps only_logged (S3Delete remote JoinPath bucket object files)
/\ keeps only_logged (put_single_future remote bucket object data size)
/\ keeps only_logged
         (put_multi_future remote arrival bucket object data size)
/\ keeps (only_listed list)
         (list_pages remote fuel bucket object list token).
Proof.
split; [unfold S3Exists; repeat keeps_step|].
split.
{ unfold S3UploadOverwrite, S3PutSingleSync. cbv zeta.
  destruct (size <? kS3DefaultBufSize); [repeat keeps_step|].
  keeps_step; [keeps_step|]. keeps_step; [keeps_step|].
  destruct (CheckS3Error a0); [|keeps_step].
  keeps_step; [keeps_step|]. keeps_step; [keeps_step|].
  keeps_step; [apply keeps_upload_parts|].
  repeat keeps_step. }
split.
{ unfold S3Delete. cbv zeta.
  destruct (length files =? 0)%nat; [keeps_step|].
  keeps_step; [apply keeps_S3Delete_loop|].
  destruct a as [objs res].
  destruct (0 <? length objs)%nat; [|keeps_step].
  keeps_step; [apply keeps_S3SendDelete|keeps_step]. }
split.
{ unfold put_single_future, S3PutSingleAsync, S3PutSingleAsyncFinish.
  cbv zeta. repeat keeps_step. }
split; [|apply keeps_list_pages].
unfold put_multi_future, S3PutMultiAsync1, S3PutMultiAsync2,
  S3PutMultiAsync3, S3PutMultiAsyncFinish. cbv zeta.
keeps_step; [repeat keeps_step|].
keeps_step.
{ destruct (PutMultiImpl.create_fut_ a) as [resp|]; [|keeps_step].
  destruct (negb (IsSuccess resp)); [keeps_step|].
  keeps_step; [keeps_step|].
  keeps_step; [apply keeps_upload_parts|keeps_step]. }
destruct a0 as [[res pm] outcomes].
destruct res as [[]|e]; [|keeps_step].
repeat keeps_step.
Qed.
End Untouched.

(* ===================================================================== *)
(** ** Redirects, batch counts, the bytes of an upload *)
(* ===================================================================== *)

Section Redirects.
Context (remote : Request -> Response).
Context (arrival : nat -> list nat).

(** X9.  A store that answers with a redirect (301).  The blocking calls
  that read the response code report [AWSWrongRegion]: [S3GetSize] and
  the multipart branch of [S3UploadOverwrite].  The others lose it: a
  small [S3UploadOverwrite] and the multipart future of [S3PutAsync]
  report the generic [S3Error] for the same answer, and [S3Exists] says
  the object is not there. *)
Theorem redirect_is_reported_by_blocking_calls bucket object data size w :
library_init w = true ->
(forall r, IsSuccess (remote r) = false
           /\ GetResponseCode (remote r) = MOVED_PERMANENTLY) ->
fst (S3GetSize remote bucket object w) = Done (Err AWSWrongRegion)
/\ fst (S3Exists remote bucket object w) = Done (Ok false)
/\ (size < kS3DefaultBufSize ->
    fst (S3UploadOverwrite remote arrival bucket object data size w)
    = Done (Err S3Error))
/\ (kS3DefaultBufSize <= size ->
    fst (S3UploadOverwrite remote arrival bucket object data size w)
    = Done (Err AWSWrongRegion))
/\ (forall v,
       0 < size -> SegmentBuf 0 data size = Done v ->
       fst (put_multi_future remote arrival bucket object data size w)
       = Done (Err S3Error)).
Proof.
intros Hinit Hredirect.
split.
{ rewrite (S3GetSize_run remote bucket object w Hinit). cbn [fst].
  unfold CheckS3Error.
  destruct (Hredirect (HeadObject bucket object)) as [-> ->].
  reflexivity. }
split.
{ unfold S3Exists.
  erewrite bind_run by (apply GetS3Client_run; exact Hinit).
  erewrite bind_run by (apply send_plain; reflexivity).
  cbn [request_of].
  destruct (Hredirect (HeadObject bucket object)) as [-> _].
  reflexivity. }
split.
{ intros Hsmall. unfold S3UploadOverwrite.
  replace (size <? kS3DefaultBufSize) with true
    by (symmetry; apply Z.ltb_lt; exact Hsmall).
  rewrite (S3PutSingleSync_run remote bucket object data size w Hinit).
  destruct (Hredirect (PutObject bucket object data size)) as [-> _].
  reflexivity. }
split.
{ intros Hlarge.
  destruct (Hredirect (CreateMultipartUpload bucket object)) as [Hf Hc].
  rewrite (S3UploadOverwrite_create_fails remote arrival bucket object data
             size w Hinit Hlarge Hf).
  rewrite Hc. reflexivity. }
intros v Hpos Hv.
destruct (Hredirect (CreateMultipartUpload bucket object)) as [Hf _].
rewrite (put_multi_future_create_fails remote arrival bucket object data
           size v w Hinit Hpos Hv Hf).
reflexivity.
Qed.
End Redirects.

Section BatchCount.
Context {A : Type}.

Lemma chunks_length (n : nat) :
(0 < n)%nat ->
forall l : list A,
  Z.of_nat (length (chunks n l))
  = (Z.of_nat (length l) + Z.of_nat n - 1) / Z.of_nat n.
Proof.
intros Hn l. remember (length l) as m eqn:Hm.
revert l Hm. induction m as [m IH] using lt_wf_ind. intros l Hm.
destruct l as [|x l].
- subst m. cbn [length]. rewrite chunks_nil. cbn [length].
  symmetry. apply Z.div_small. lia.
- rewrite chunks_step by (exact Hn || discriminate).
  cbn [length]. rewrite Nat2Z.inj_succ.
  rewrite (IH (length (drop n (x :: l))));
    [|subst m; rewrite length_drop; cbn [length]; lia|reflexivity].
  rewrite length_drop. subst m.
  destruct (Nat.le_gt_cases (length (x :: l)) n) as [Hle|Hgt].
  + replace (length (x :: l) - n)%nat with 0%nat by lia.
    rewrite Z.div_small by lia.
    cbn [length] in *. change (Z.succ 0) with 1.
    apply (Z.div_unique _ _ 1 (Z.of_nat (S (length l)) - 1)); lia.
  + rewrite Nat2Z.inj_sub by lia.
    replace (Z.of_nat (length (x :: l)) + Z.of_nat n - 1)
      with (Z.of_nat (length (x :: l)) - Z.of_nat n + Z.of_nat n - 1
            + 1 * Z.of_nat n) by lia.
    rewrite Z.div_add by lia. lia.
Qed.

Lemma chunks_full (n : nat) :
(0 < n)%nat ->
forall (i : nat) (l b : list A),
  chunks n l !! i = Some b -> (S i < length (chunks n l))%nat ->
  length b = n.
Proof.
intros Hn. induction i as [|i IH]; intros l b Hb Hlast.
- destruct l as [|x l]; [rewrite chunks_nil in Hb; discriminate|].
  rewrite chunks_step in Hb, Hlast by (exact Hn || discriminate).
  cbn [lookup list_lookup] in Hb. injection Hb as <-.
  cbn [length] in Hlast.
  destruct (drop n (x :: l)) as [|y rest] eqn:Hdrop.
  + rewrite chunks_nil in Hlast. cbn [length] in Hlast. lia.
  + assert (length (drop n (x :: l)) = S (length rest)) as Hlen
        by (rewrite Hdrop; reflexivity).
    rewrite length_drop in Hlen. rewrite length_take. lia.
- destruct l as [|x l]; [rewrite chunks_nil in Hb; discriminate|].
  rewrite chunks_step in Hb, Hlast by (exact Hn || discriminate).
  cbn [length] in Hlast.
  apply (IH (drop n (x :: l)) b); [exact Hb|lia].
Qed.
End BatchCount.

Section DeleteCount.
Context (remote : Request -> Response).
Context (JoinPath : string -> string -> string).

(** X10.  [S3Delete] of [n > 0] keys issues the fewest requests the batch
  limit allows: the requests it adds to the log are [DeleteObjects]
  calls, their number is [n / kS3MaxDelete] rounded up, and every one of
  them but the last carries exactly [kS3MaxDelete] keys. *)
Theorem S3Delete_request_count bucket object (files : list string) w :
files <> [] ->
library_init w = true ->
Z.of_nat (length files) < 2 ^ 64 ->
exists batches : list (list string),
  calls (snd (S3Delete remote JoinPath bucket object files w))
  = calls w ++ ((fun b => Sync (DeleteObjects bucket b)) <$> batches)
  /\ Z.of_nat (length batches)
     = (Z.of_nat (length files) + kS3MaxDelete - 1) / kS3MaxDelete
  /\ (forall (i : nat) b,
         batches !! i = Some b -> (S i < length batches)%nat ->
         Z.of_nat (length b) = kS3MaxDelete).
Proof.
intros Hne Hinit Hfit.
exists (chunks 995 (JoinPath object <$> files)).
split; [|split].
- unfold S3Delete.
  destruct files as [|file files]; [congruence|].
  cbn [length Nat.eqb].
  pose proof (S3Delete_loop_run remote JoinPath bucket object
                (file :: files) 0 [] ResultSuccess w Hinit ltac:(lia)
                ltac:(simpl; lia) ltac:(reflexivity)
                ltac:(simpl in *; lia)) as Hrun.
  cbn [app length] in Hrun.
  change (995 * 0 + Z.of_nat 0) with 0 in Hrun.
  assert (forall m : M (list string * Result unit),
             (st <- m ;;
              let '(aws_objs, res) := st in
              if (0 <? length aws_objs)%nat
              then
                batch_res <- S3SendDelete remote aws_objs bucket ;;
                ret (if is_ok batch_res then res else batch_res)
              else ret res) w
             = bind m (S3Delete_rest remote bucket) w) as Hrest.
  { intros m. unfold bind, S3Delete_rest.
    destruct (m w) as [[[objs res]| |] w']; reflexivity. }
  cbv zeta. rewrite Hrest, Hrun. reflexivity.
- rewrite chunks_length by lia. rewrite length_fmap. reflexivity.
- intros i b Hb Hlast.
  rewrite (chunks_full 995 ltac:(lia) i _ b Hb Hlast). reflexivity.
Qed.
End DeleteCount.

Section Payload.
Import SegmentedBufferView.
Context (remote : Request -> Response).
Context (arrival : nat -> list nat).

Lemma view_dest_offset start dest size segment_size :
0 <= start -> 0 <= size -> 0 < segment_size -> start + size < 2 ^ 64 ->
0 <= dest -> dest + size < 2 ^ 64 ->
Forall (fun p => BufPart.dest p = dest + (BufPart.start p - start))
       (parts (mk start dest size segment_size)).
Proof.
intros Hstart Hsz Hseg Hfit Hdest Hdfit. unfold parts.
pose proof (NumSegments_bounds (mk start dest size segment_size) Hseg Hsz)
  as (Hlb & _ & _).
apply Forall_fmap, Forall_forall. intros i Hi.
apply elem_of_seq in Hi. cbn [start_ dest_ size_ segment_size_] in *.
assert (size <> 0) as Hnz.
{ intros E0. unfold NumSegments in Hi. cbn in Hi. rewrite E0 in Hi.
  rewrite Z.div_0_l, Z.mod_0_l in Hi by lia. simpl in Hi. lia. }
assert ((size =? 0) = false) as E by (apply Z.eqb_neq; exact Hnz).
rewrite E in Hlb. simpl in Hlb.
assert (0 <= Z.of_nat i * segment_size) as Hoff0 by nia.
assert (Z.of_nat i * segment_size < size) as Hoff by nia.
unfold GetPart.
cbn [BufPart.start BufPart.end_ BufPart.dest start_ dest_ size_
                   segment_size_ compose].
rewrite !wrap64_small by lia. lia.
Qed.

Lemma chain_slices data bucket object upload_id a b ps :
chain a b ps ->
0 <= a -> b < 2 ^ 64 ->
Forall (fun p => BufPart.dest p = data + BufPart.start p) ps ->
forall i,
  slices (data + a) (data + b)
         (upload_requests bucket object upload_id i ps).
Proof.
induction 1 as [a|a b p ps Hs Hlt Hc IH]; intros Ha Hb Hdest i.
- constructor.
- apply Forall_cons in Hdest as [Hp Hps].
  pose proof (chain_le _ _ _ Hc) as Hle.
  cbn [upload_requests]. rewrite Hp, Hs.
  rewrite wrap64_small by lia.
  constructor; [lia|].
  replace (data + a + (BufPart.end_ p - a)) with (data + BufPart.end_ p)
    by lia.
  apply IH; [lia|exact Hb|exact Hps].
Qed.

(** X11.  A multipart upload sends every byte of the payload once and in
  order.  When the store accepts the session and its parts, the requests
  [S3UploadOverwrite] and the multipart future of [S3PutAsync] issue
  between creating and completing the session are [UploadPart] requests
  whose bodies are non-empty pieces of the caller's buffer laid end to
  end from [data] to [data + size]. *)
Theorem multipart_upload_covers_payload bucket object data size v w :
library_init w = true ->
kS3DefaultBufSize <= size ->
0 <= data -> data + size < 2 ^ 64 ->
SegmentBuf 0 data size = Done v ->
IsSuccess (remote (CreateMultipartUpload bucket object)) = true ->
Forall (fun r => IsSuccess (remote r) = true)
       (upload_requests bucket object
          (GetUploadId (remote (CreateMultipartUpload bucket object)))
          0 (parts v)) ->
arrival (length (parts v)) ≡ₚ seq 0 (length (parts v)) ->
exists uploads complete,
  calls (snd (S3UploadOverwrite remote arrival bucket object data size w))
  = calls w
    ++ Sync (CreateMultipartUpload bucket object)
       :: (Async <$> uploads) ++ [Sync complete]
  /\ calls (snd (put_multi_future remote arrival bucket object data size w))
     = calls w
       ++ Callable (CreateMultipartUpload bucket object)
          :: (Async <$> uploads) ++ [Callable complete]
  /\ slices data (data + size) uploads.
Proof.
intros Hinit Hsize Hdata Hfit Hv Hcreate Hups Hperm.
assert (0 < kS3DefaultBufSize) as Hthr by reflexivity.
eexists _, _. split; [|split].
- rewrite (S3UploadOverwrite_session_run remote arrival bucket object data
             size v w Hinit ltac:(lia) Hv Hcreate Hups Hperm).
  reflexivity.
- rewrite (put_multi_future_run remote arrival bucket object data size v w
             Hinit ltac:(lia) Hv Hcreate Hups Hperm).
  reflexivity.
- destruct (SegmentBuf_view _ _ _ _ Hv) as (E1 & E2 & E3 & Hmin).
  pose proof kS3MinBufSize_pos as Hpos.
  pose proof (parts_chain v ltac:(lia) ltac:(lia) ltac:(lia) ltac:(lia))
    as Hchain.
  rewrite E1, E3, Z.add_0_l in Hchain.
  replace data with (data + 0) at 1 by lia.
  apply chain_slices; [exact Hchain|lia|lia|].
  destruct v as [s d z seg]. cbn in E1, E2, E3, Hmin. subst s d z.
  eapply Forall_impl;
    [apply (view_dest_offset 0 data size seg); lia|].
  intros p Hp. cbv beta in Hp. lia.
Qed.
End Payload.

(* ===================================================================== *)
(** ** The name-server client *)
(* ===================================================================== *)

Section NameServer.
Import HttpNameServerClient.
Context (HttpGetJson_health : string -> Result string).
Context (HttpGetJson_meta : string -> Result RDGMeta).
Context (HttpPostJson HttpPutJson : string -> RDGMeta -> Result unit).
Context (Encode : Uri -> string).
Context (prefix_ : string).

(** X12.  [Create] and [Update] of the name-server client.  Only the host
  with ID 0 talks to the server; every other host returns success having
  done nothing.  On host 0 each sends one request, to
  [prefix_ + "rdgs/" + Encode(name)], [Update] adding
  ["?expected-version=<old version>"], and calls [NotifyFailure] once
  exactly when the request fails.  [Update] returns what the request
  returned; [Create] returns success even when its request failed. *)
Theorem Create_hides_what_Update_reports (ID : Z) rdg_name old_version meta h :
let url := prefix_ +:+ "rdgs/" +:+ Encode rdg_name in
let put_url := url +:+ "?expected-version=" +:+ to_decimal old_version in
fst (Create HttpPostJson Encode prefix_ ID rdg_name meta h) = ResultSuccess
/\ (ID <> 0 ->
    Create HttpPostJson Encode prefix_ ID rdg_name meta h
    = (ResultSuccess, h)
    /\ Update HttpPutJson Encode prefix_ ID rdg_name old_version meta h
       = (ResultSuccess, h))
/\ (ID = 0 ->
    snd (Create HttpPostJson Encode prefix_ ID rdg_name meta h)
    = mkHost (http_log h ++ [HttpPost url meta])
             (failures_notified h
              + (if is_ok (HttpPostJson url meta) then 0 else 1))
    /\ Update HttpPutJson Encode prefix_ ID rdg_name old_version meta h
       = (HttpPutJson put_url meta,
          mkHost (http_log h ++ [HttpPut put_url meta])
                 (failures_notified h
                  + (if is_ok (HttpPutJson put_url meta) then 0 else 1)))).
Proof.
intros url put_url. unfold Create, Update, BuildUrl. fold url. cbv zeta.
fold put_url.
split; [destruct (ID =? 0); reflexivity|]. split.
- intros Hne. apply Z.eqb_neq in Hne. rewrite Hne. cbn.
  destruct h. split; reflexivity.
- intros ->. cbn [Z.eqb fst snd].
  destruct (HttpPostJson url meta), (HttpPutJson put_url meta);
    cbn [is_ok negb NotifyFailure sent http_log failures_notified];
    rewrite ?Nat.add_0_r, ?Nat.add_1_r; split; reflexivity.
Qed.

(** X13.  [CheckHealth] succeeds exactly when the health request succeeds
  and the status it carries is the string [ok]; any other status is the
  error [TODO], and an error of the request itself is handed on.  [Get]
  asks the same URL [Create] posts to, and the record it returns has the
  name it was asked for as its [dir_], whatever [dir_] the server
  sent. *)
Theorem CheckHealth_and_Get rdg_name h :
(is_ok (fst (CheckHealth HttpGetJson_health prefix_ h)) = true
 <-> HttpGetJson_health (prefix_ +:+ "health-status") = Ok "ok")
/\ (forall status,
       HttpGetJson_health (prefix_ +:+ "health-status") = Ok status ->
       status <> "ok" ->
       fst (CheckHealth HttpGetJson_health prefix_ h) = Err TODO)
/\ (forall e,
       HttpGetJson_health (prefix_ +:+ "health-status") = Err e ->
       fst (CheckHealth HttpGetJson_health prefix_ h) = Err e)
/\ http_log (snd (Get HttpGetJson_meta Encode prefix_ rdg_name h))
   = http_log h ++ [HttpGet (prefix_ +:+ "rdgs/" +:+ Encode rdg_name)]
/\ (forall meta,
       fst (Get HttpGetJson_meta Encode prefix_ rdg_name h) = Ok meta ->
       dir_ meta = rdg_name
       /\ exists sent_meta,
           HttpGetJson_meta (prefix_ +:+ "rdgs/" +:+ Encode rdg_name)
           = Ok sent_meta
           /\ others meta = others sent_meta).
Proof.
unfold CheckHealth, Get, BuildUrl. cbv zeta.
split; [|split; [|split; [|split]]].
- destruct (HttpGetJson_health _) as [status|e]; cbn [fst].
  + destruct (String.eqb_spec status "ok") as [->|Hne]; cbn.
    * split; reflexivity.
    * split; [discriminate|]. intros [= E]. contradiction.
  + cbn. split; discriminate.
- intros status -> Hne.
  destruct (String.eqb_spec status "ok") as [E|_]; [contradiction|].
  reflexivity.
- intros e ->. reflexivity.
- destruct (HttpGetJson_meta _); reflexivity.
- intros meta.
  destruct (HttpGetJson_meta _) as [sent_meta|e]; cbn [fst];
    [|discriminate].
  intros [= <-]. split; [reflexivity|].
  exists sent_meta. split; reflexivity.
Qed.
End NameServer.

(* ===================================================================== *)
(** ** More concrete runs *)
(* ===================================================================== *)

Lemma S3Exists_never_fails_witness :
  S3Exists remote_missing "b" "o" world0
  = (Done (Ok false), logged [Sync (HeadObject "b" "o")] world0).
Proof.
  exact (proj1 (S3Exists_never_fails remote_missing "b" "o" world0 eq_refl)).
Defined.

Lemma calls_before_S3Init_abort_witness :
  S3GetSize remote_ok "b" "o" world_uninit = (Aborted, world_uninit)
  /\ S3Exists remote_ok "b" "o" world_uninit = (Aborted, world_uninit).
Proof.
  destruct (calls_before_S3Init_abort remote_ok arrival_in_order join_slash
              "b" "o" 0 0 0 0 [] 0 0%nat world_uninit eq_refl)
    as (H1 & H2 & _).
  split; [exact H1|exact H2].
Defined.


Lemma S3DownloadRange_by_part_count_witness :
  fst (S3DownloadRange remote_five_bytes arrival_in_order "b" "o" 0 5 100
                       world0)
  = Done ResultSuccess.
Proof.
  destruct (S3DownloadRange_by_part_count remote_five_bytes arrival_in_order
              "b" "o" 0 5 100
              (SegmentedBufferView.mk 0 100 5 kS3DefaultBufSize) world0
              eq_refl ltac:(lia) eq_refl ltac:(reflexivity))
    as (_ & Hone & _).
  rewrite (Hone _ eq_refl). reflexivity.
Defined.

Lemma get_future_all_or_abort_witness :
  fst (get_future remote_five_bytes arrival_in_order "b" "o" 0 5 100 world0)
  = Done ResultSuccess.
Proof.
  destruct (get_future_all_or_abort remote_five_bytes arrival_in_order
              "b" "o" 0 5 100
              (SegmentedBufferView.mk 0 100 5 kS3DefaultBufSize) world0
              eq_refl ltac:(lia) eq_refl ltac:(reflexivity))
    as (Hsome & _).
  destruct (Hsome ltac:(vm_compute; discriminate)) as (Hok & _).
  rewrite Hok; [reflexivity|].
  vm_compute. repeat constructor.
Defined.

Lemma downloads_stay_in_buffer_witness :
  untouched_outside 100 106 (memory world0)
    (memory (snd (S3DownloadRange remote_five_bytes arrival_in_order "b" "o"
                                  0 5 100 world0)))
  /\ untouched_outside 100 105 (memory world0)
       (memory (snd (S3DownloadRange remote_ok arrival_in_order "b" "o"
                                     0 5 100 world0))).
Proof.
  split.
  - exact (proj1 (proj1 (downloads_stay_in_buffer remote_five_bytes
                           arrival_in_order "b" "o" 0 5 100 world0
                           ltac:(lia) ltac:(lia) ltac:(lia) ltac:(lia)
                           ltac:(lia)))).
  - refine (proj1 (proj2 (downloads_stay_in_buffer remote_ok
                            arrival_in_order "b" "o" 0 5 100 world0
                            ltac:(lia) ltac:(lia) ltac:(lia) ltac:(lia)
                            ltac:(lia))
                         _)).
    intros part (_ & Hpos & _). unfold honours_range, BufPart.len. cbn. lia.
Defined.

Lemma redirect_is_reported_by_blocking_calls_witness :
  fst (S3GetSize remote_redirect "b" "o" world0) = Done (Err AWSWrongRegion).
Proof.
  refine (proj1 (redirect_is_reported_by_blocking_calls remote_redirect
                   arrival_in_order "b" "o" 0 0 world0 eq_refl _)).
  intros r. split; reflexivity.
Defined.

Lemma S3Delete_request_count_witness :
  exists batches : list (list string),
    calls (snd (S3Delete remote_ok join_slash "b" "dir" ["x"; "y"] world0))
    = calls world0 ++ ((fun b => Sync (DeleteObjects "b" b)) <$> batches)
    /\ Z.of_nat (length batches)
       = (Z.of_nat (length ["x"; "y"]) + kS3MaxDelete - 1) / kS3MaxDelete
    /\ (forall (i : nat) b,
           batches !! i = Some b -> (S i < length batches)%nat ->
           Z.of_nat (length b) = kS3MaxDelete).
Proof.
  exact (S3Delete_request_count remote_ok join_slash "b" "dir" ["x"; "y"]
           world0 ltac:(discriminate) eq_refl ltac:(simpl; lia)).
Defined.

Lemma multipart_upload_covers_payload_witness :
  exists uploads complete,
    calls (snd (S3UploadOverwrite remote_etags arrival_reversed "b" "o" 0
                                  (3 * MB 8) world0))
    = calls world0
      ++ Sync (CreateMultipartUpload "b" "o")
         :: (Async <$> uploads) ++ [Sync complete]
    /\ calls (snd (put_multi_future remote_etags arrival_reversed "b" "o" 0
                                    (3 * MB 8) world0))
       = calls world0
         ++ Callable (CreateMultipartUpload "b" "o")
            :: (Async <$> uploads) ++ [Callable complete]
    /\ slices 0 (0 + 3 * MB 8) uploads.
Proof.
  refine (multipart_upload_covers_payload remote_etags arrival_reversed
            "b" "o" 0 (3 * MB 8)
            (SegmentedBufferView.mk 0 0 (3 * MB 8) (MB 8)) world0
            eq_refl _ ltac:(lia) _ eq_refl eq_refl _ _).
  - vm_compute. discriminate.
  - vm_compute. reflexivity.
  - vm_compute. repeat constructor.
  - apply reverse_Permutation.
Defined.

Lemma Create_hides_what_Update_reports_witness :
  HttpNameServerClient.Create refuse_write id "http://ns/" 0 "g"
    (HttpNameServerClient.mkRDGMeta "g" "{}") host0
  = (ResultSuccess,
     HttpNameServerClient.mkHost
       [HttpNameServerClient.HttpPost "http://ns/rdgs/g"
          (HttpNameServerClient.mkRDGMeta "g" "{}")] 1)
  /\ fst (HttpNameServerClient.Update refuse_write id "http://ns/" 0 "g" 7
            (HttpNameServerClient.mkRDGMeta "g" "{}") host0)
     = Err Unknown.
Proof.
  destruct (Create_hides_what_Update_reports refuse_write refuse_write id
              "http://ns/" 0 "g" 7 (HttpNameServerClient.mkRDGMeta "g" "{}")
              host0)
    as (Hres & _ & Hzero).
  destruct (Hzero eq_refl) as [Hcreate Hupdate].
  split.
  - apply injective_projections; [exact Hres|exact Hcreate].
  - rewrite Hupdate. reflexivity.
Defined.

Lemma CheckHealth_and_Get_witness :
  fst (HttpNameServerClient.CheckHealth health_down "http://ns/" host0)
  = Err TODO
  /\ (forall meta,
         fst (HttpNameServerClient.Get meta_at_server id "http://ns/" "g"
                                       host0) = Ok meta ->
         HttpNameServerClient.dir_ meta = "g").
Proof.
  destruct (CheckHealth_and_Get health_down meta_at_server id "http://ns/"
              "g" host0)
    as (_ & Hstatus & _ & _ & Hget).
  split.
  - apply (Hstatus "down"); [reflexivity|discriminate].
  - intros meta Hmeta. exact (proj1 (Hget meta Hmeta)).
Defined.
